(* ===== verification/_CoqProject ===== *)
-Q . S2P
Prelude.v
Config.v
Replace.v
Field.v
Line.v
Driver.v
Loop.v
Rfc4180.v
Sinks.v
Calls.v
