(* ===== verification/Prelude.v ===== *)
(** * A verification development for uncsv's [src/csv.c]

    uncsv turns delimiter-separated lines into RFC 4180 CSV.  Its core,
    [src/csv.c], has four parts that call each other leaf-first:
    - pattern substitution, [replace_string_by_char] (lines 60-85): an
      in-place rewrite of every occurrence of a literal pattern into one
      control byte;
    - the field encoder, [convert_field] (lines 99-188): optional
      substitutions, the copy of the field into the static scratch array
      [buf] with every double quote doubled, the quoting decision of the
      configured policy, and the write of the field, preceded by a comma
      unless the global [start_of_line] is set;
    - the line splitter, [convert_line] (lines 198-239): cuts a line at
      the delimiter, hands each field to [convert_field], and copies the
      end-of-line bytes through;
    - the line driver, [convert_from_fp] (lines 247-273): reads the input
      with [fgets] into a [MAXLINELEN] array, converts each chunk and
      flushes the output at end of file.
    The configuration ([delimiter], [quote_style], [r_replacement],
    [n_replacement]) and the output functions ([write_character],
    [write_string], [flush_output]) are defined outside [src/]; the code
    only declares them (lines 35-44).

    ** Files

    - [Prelude] (this file): bytes and their constants, the notation
      [b{"..."}] for byte strings, the libc functions the code calls
      ([strpbrk], [strchr], [strstr], the C-string view [cstring], and
      [buf_write] for [memcpy] into a static array), their lemmas, the
      hint databases [uncsv] and [uncsv_rw] and the tactic
      [decide_by_eval].
    - [Config]: the buffer sizes, [QUOTE_STYLE], the configuration record
      [config] with its well-formedness [config_wf], and the output sink
      as an interface: the class [Sink] (the three output functions, plus
      the bytes accepted and the bytes delivered) with its laws
      [SinkLaws], implemented by an unbuffered [list_sink] and a
      stdio-like [buffered_sink].  All theorems about the conversion are
      proved against [SinkLaws], for any sink.
    - [Replace]: [replace_loop]/[replace_string_by_char], the loop with
      the pointer as a split of the buffer, and the relational
      specification [replaced] of leftmost non-overlapping substitution.
    - [Field]: the state [conv_state] (scratch array, [start_of_line],
      sink), [convert_field] composed of [apply_replacement],
      [escape_loop] (a [Function] on the length of the unscanned field)
      and [style_quoted] (the [switch]); the reference encoding
      [escape]/[csv_field]; and the abstract encoder [encode_field_spec]
      on the abstract state [astate] (the byte [buf[1]], the line-start
      flag and the bytes written) that [convert_field] refines.
    - [Line]: [convert_line_loop]/[convert_line] and the specification
      [line_split]/[fields_encoded]/[line_spec].
    - [Driver]: the stream [file] with [fgets], the loop
      [convert_from_fp_loop]/[convert_from_fp] with its [outcome] (the
      return value or the [errx] exit status), the specification
      [chunked]/[stream_spec], and [usage] (the synopsis it prints and
      its exit status).
    - [Loop]: the same loop as a step relation [fp_step] on
      configurations (stream, the array [line], [lineno], state), the
      well-formedness [state_wf] of the conversion state, the invariant
      [fp_inv] of reachable configurations, the value [fp_exit] the
      function returns when the loop has left, and the 32-bit
      [INT_MAX] bounding [int lineno].
    - [Rfc4180]: a reader of CSV records, lenient ([parse_record]) or
      following the record structure of RFC 4180, where CR and LF occur
      only inside quotes ([parse_record_rfc]), used to state that the
      output is CSV that reads back as the input.
    - [Sinks]: the relation [writes] (calls of the write functions
      only) that every path of the conversion but the end-of-file
      return follows, and what a stdio-like buffer then delivers.
    - [Calls]: two successive calls of [convert_from_fp], which share
      [buf] and [start_of_line]; the determinism of the abstract runs
      and the split of a run at an append of chunk lists.

    ** Theorems

    Each layer is proved to refine its specification for any sink: the
    substitution loop computes exactly [replaced] and terminates for a
    nonempty pattern; [convert_field] writes [encode_field_spec];
    [convert_line] writes [line_spec] of the split of the line; and
    [convert_from_fp] converts the chunks [fgets] cuts the stream into
    and flushes, or returns -1 on a read error having lost at most one
    partial chunk.  On top of these: the round trip (what a line is
    written as reads back, as a CSV record, as its fields after
    substitution, under every policy, and as a record of RFC 4180 when
    its fields hold no CR or LF); the bound on the static array
    [buf] (never written past [MAXFIELDLEN], since [fgets] stores at
    most [MAXLINELEN - 1] bytes and a field at most doubles plus two
    quotes); the state machine of the loop (every reachable
    configuration satisfies [fp_inv], by rule induction over [rtc];
    every configuration is strongly normalizing since a step consumes
    input; the loop reaches a configuration where [fgets] returns
    [NULL]; the fuelled loop returns what the machine's unique final
    configuration determines; [convert_field] and [convert_line] keep
    [state_wf]); quote doubling, the five quoting policies, byte-for-byte
    copy of plain input, verbatim end-of-line bytes, and the length law
    of the in-place substitution; and the composition of calls (a
    stream of whole lines then any stream is converted as their
    concatenation).  A last group
    pins down behaviours the spec does not state or states otherwise: the
    stale [buf[1]] read by the BorderSpaces policy, a long line cut with a
    comma, a NUL byte ending a line (the line behaves as the end of the
    stream), a bare CR (everything after it written raw under every
    policy), a NUL delimiter running past the line, the empty pattern
    looping for ever (no fuel is enough), no flush on a
    read error (nothing written below a stdio buffer's capacity is
    delivered), [int lineno] counting past [INT_MAX] on a stream of
    [INT_MAX] empty lines, and a stream ending without a line
    terminator joined to the first line of the next call, since
    [start_of_line] is never reset between calls.

    ** Fuel and bounds

    Loops are fuelled functions whose [None] result stands for running
    past the end of the buffer or not terminating.  The fuel is
    [S (length big)] for the substitution loop (each iteration consumes
    at least one byte of a nonempty pattern), [S (length line)] for the
    splitter (each delimiter consumes a byte), and
    [S (S (length data))] for the driver (each [fgets] call consumes a
    byte, plus one call for end of file); the totality theorems show
    that this fuel is enough.  The quote loop is a [Function] with a
    measure.  Sizes are [nat]: the [size_t] lengths never exceed
    [MAXFIELDLEN] (the bound theorem), far from the width, and the
    [int] count of replacements is at most the field length.  [lineno]
    is kept as a [nat] and compared with [INT_MAX] (2^31 - 1, the
    32-bit [int]), since its overflow is what the theorem exhibits; the
    stream that shows it is never evaluated, only reasoned about.

    ** Not modelled

    [main] with the option parsing (not under [src/]: the options are
    modelled from the spec as single updates of [config]); of [usage],
    only the bytes and the status are modelled, not the process exit
    itself or where stdio sends the bytes; the text of the [errx]
    message; the sink's implementation beyond its laws; and the bytes of
    [line] the conversion leaves rewritten in place (they are read again
    only on a branch that the [fgets] model shows unreachable).  Every
    function body and declaration of [src/csv.c] is modelled; the lines
    left out are the licence, the includes, comments and blank lines.
    The configuration and the output sink stay partly modelled because
    their code is not in [src/]: only csv.c's declarations of them are. *)

From Stdlib Require Export Init.Byte Strings.String Strings.Byte ZArith Lia.
From stdpp Require Export base list options decidable sets.

(** ** Bytes *)

#[export] Instance byte_eqdec : EqDecision byte := Byte.byte_eq_dec.
#[export] Instance byte_inhabited : Inhabited byte := populate x00.

(** The byte constants the C code writes as character literals. *)
Abbreviation NUL := x00.    (* the string terminator *)
Abbreviation DQ := x22.     (* the double quote *)
Abbreviation COMMA := x2c.  (* the comma *)
Abbreviation SP := x20.     (* the space *)
Abbreviation TAB := x09.    (* the horizontal tab *)
Abbreviation LF := x0a.     (* the line feed *)
Abbreviation CR := x0d.     (* the carriage return *)

Declare Scope uncsv_scope.
Delimit Scope uncsv_scope with uncsv.
Open Scope uncsv_scope.

(** [b{"a,b"}] is the byte string of a string literal. *)
Notation "'b{' s '}'" := (list_byte_of_string s%string)
  (at level 0, format "'b{' s '}'") : uncsv_scope.

(** ** The libc string functions the code calls

    A C string is modelled by the list of its bytes before the
    terminating NUL, so a well-formed one has no NUL in it.  A pointer
    returned by a search function is modelled by its offset from the
    start of the string. *)

(** [strpbrk(s, accept)]: first byte of [s] that occurs in [accept]. *)
Fixpoint strpbrk (s accept : list byte) : option nat :=
  match s with
  | [] => None
  | b :: s' => if decide (b ∈ accept) then Some 0 else S <$> strpbrk s' accept
  end.

(** [strchr(s, ch)]: first occurrence of [ch]; searching for NUL finds
    the terminator. *)
Definition strchr (s : list byte) (ch : byte) : option nat :=
  if decide (ch = NUL) then Some (length s) else strpbrk s [ch].

(** [strstr(s, pat)]: first offset at which [pat] occurs; the empty
    pattern occurs at offset 0. *)
Fixpoint strstr (s pat : list byte) : option nat :=
  if decide (pat `prefix_of` s) then Some 0
  else match s with
       | [] => None
       | _ :: s' => S <$> strstr s' pat
       end.

(** The C string held in a byte array: its bytes up to the first NUL. *)
Fixpoint cstring (l : list byte) : list byte :=
  match l with
  | [] => []
  | b :: l' => if decide (b = NUL) then [] else b :: cstring l'
  end.

(** ** Writing into a static byte array

    [buf_write buf i src] is [memcpy(buf + i, src, |src|)] on a static
    array whose contents are [buf] followed by zeros (static storage is
    zero-initialised); reading [buf[j]] is [buf !!! j]. *)
Definition buf_write (buf : list byte) (i : nat) (src : list byte) : list byte :=
  take i buf ++ replicate (i - length buf) NUL ++ src ++ drop (i + length src) buf.

(** ** Automation *)

Create HintDb uncsv discriminated.
Create Rewrite HintDb uncsv_rw.

(** Close a decidable side condition on concrete data by evaluation. *)
Ltac decide_by_eval := apply (bool_decide_unpack _); vm_compute; reflexivity.

(** ** Lemmas on the string functions *)

Section Strings.
Implicit Types (s pre post accept pat : list byte) (b ch : byte).

Lemma strpbrk_none s accept :
  Forall (λ b, b ∉ accept) s → strpbrk s accept = None.
Proof. induction 1; simpl; [done|]. by rewrite decide_False, IHForall. Qed.

Lemma strpbrk_first pre b post accept :
  Forall (λ b, b ∉ accept) pre → b ∈ accept →
  strpbrk (pre ++ b :: post) accept = Some (length pre).
Proof.
  intros Hpre Hb. induction Hpre; simpl; [by rewrite decide_True|].
  by rewrite decide_False, IHHpre.
Qed.

(** What a search result tells about the string. *)
Lemma strpbrk_Some s accept i :
  strpbrk s accept = Some i →
  ∃ pre b post, s = pre ++ b :: post ∧ length pre = i ∧ b ∈ accept ∧
                Forall (λ b, b ∉ accept) pre.
Proof.
  revert i. induction s as [|c s IH]; intros i; simpl; [done|].
  case_decide.
  - intros [= <-]. by exists [], c, s.
  - destruct (strpbrk s accept) as [j|]; intros [= <-].
    destruct (IH j eq_refl) as (pre & b & post & -> & <- & ? & ?).
    exists (c :: pre), b, post. naive_solver.
Qed.

Lemma strpbrk_None s accept :
  strpbrk s accept = None → Forall (λ b, b ∉ accept) s.
Proof.
  induction s as [|c s IH]; simpl; [constructor|].
  case_decide; [done|]. destruct (strpbrk s accept); naive_solver.
Qed.

Lemma strchr_Some s ch i :
  ch ≠ NUL → strchr s ch = Some i →
  ∃ pre post, s = pre ++ ch :: post ∧ length pre = i ∧ ch ∉ pre.
Proof.
  unfold strchr. intros Hch. rewrite decide_False by done.
  intros (pre & b & post & -> & <- & Hb & Hpre)%strpbrk_Some.
  exists pre, post. rewrite Forall_forall in Hpre. set_solver.
Qed.

Lemma strchr_None s ch : ch ≠ NUL → strchr s ch = None → ch ∉ s.
Proof.
  unfold strchr. intros Hch. rewrite decide_False by done.
  intros Hs%strpbrk_None. rewrite Forall_forall in Hs. set_solver.
Qed.

(** The first occurrence found by [strstr]: [pat] starts at offset
    [i] and at no earlier offset. *)
Lemma strstr_Some s pat i :
  strstr s pat = Some i →
  i ≤ length s ∧ pat `prefix_of` drop i s ∧
  ∀ j, j < i → ¬ pat `prefix_of` drop j s.
Proof.
  revert i. induction s as [|c s IH]; intros i; simpl.
  - case_decide; [intros [= <-]; split_and!; [lia|done|lia]|done].
  - case_decide as Hp; [intros [= <-]; split_and!; [lia|done|lia]|].
    destruct (strstr s pat) as [k|] eqn:E; intros [= <-].
    destruct (IH k eq_refl) as (? & ? & Hk).
    split_and!; [simpl; lia|done|].
    intros [|j] ?; [done|]. apply Hk. lia.
Qed.

Lemma strstr_None s pat :
  strstr s pat = None → ∀ j, j ≤ length s → ¬ pat `prefix_of` drop j s.
Proof.
  induction s as [|c s IH]; simpl.
  - case_decide; [done|]. intros _ j ?. by replace j with 0 by lia.
  - case_decide; [done|]. destruct (strstr s pat); [done|].
    intros _ [|j] ?; [done|]. apply IH; [done|lia].
Qed.

Lemma strstr_empty s : strstr s [] = Some 0.
Proof. by destruct s. Qed.

(** A nonempty pattern found at [i] lies inside the string. *)
Lemma strstr_Some_bound s pat i :
  pat ≠ [] → strstr s pat = Some i → i + length pat ≤ length s.
Proof.
  intros ? (? & Hp & _)%strstr_Some.
  apply prefix_length in Hp. rewrite length_drop in Hp. lia.
Qed.

(** The tests [strchr(s, ch) != NULL] and [strpbrk(s, accept) != NULL]. *)
Lemma strpbrk_found s accept :
  match strpbrk s accept with Some _ => true | None => false end =
  bool_decide (Exists (λ b, b ∈ accept) s).
Proof.
  destruct (strpbrk s accept) as [i|] eqn:Hs.
  - destruct (strpbrk_Some _ _ _ Hs) as (pre & b & post & -> & _ & Hb & _).
    symmetry. apply bool_decide_eq_true_2, Exists_exists. exists b. set_solver.
  - apply strpbrk_None in Hs. rewrite Forall_forall in Hs.
    symmetry. apply bool_decide_eq_false_2. intros (b & Hb & Ha)%Exists_exists.
    by apply (Hs b).
Qed.

Lemma strchr_found s ch :
  ch ≠ NUL → match strchr s ch with Some _ => true | None => false end = bool_decide (ch ∈ s).
Proof.
  intros Hch. unfold strchr. rewrite decide_False by done. rewrite strpbrk_found.
  apply bool_decide_ext. rewrite Exists_exists. split.
  - intros (b & Hb & Hc). set_solver.
  - intros Hc. exists ch. set_solver.
Qed.

(** A string splits in one way only at the first byte of a set. *)
Lemma first_split_unique (P : byte → Prop) pre1 b1 post1 pre2 b2 post2 :
  pre1 ++ b1 :: post1 = pre2 ++ b2 :: post2 →
  Forall (λ b, ¬ P b) pre1 → P b1 → Forall (λ b, ¬ P b) pre2 → P b2 →
  pre1 = pre2 ∧ b1 = b2 ∧ post1 = post2.
Proof.
  revert pre2. induction pre1 as [|c pre1 IH]; intros [|c2 pre2]; simpl;
    intros [= -> Heq] H1 Hb1 H2 Hb2.
  - done.
  - inversion H2; subst. contradiction.
  - inversion H1; subst. contradiction.
  - inversion H1; inversion H2; subst.
    destruct (IH pre2 Heq) as (-> & -> & ->); done.
Qed.

Lemma cstring_length l : length (cstring l) ≤ length l.
Proof. induction l as [|b l IH]; simpl; [done|]. case_decide; simpl; lia. Qed.

Lemma cstring_id l : NUL ∉ l → cstring l = l.
Proof.
  induction l as [|b l IH]; intros Hl; simpl; [done|].
  rewrite decide_False by set_solver. f_equal. set_solver.
Qed.

(** The C string of an array stops at its first NUL. *)
Lemma cstring_app_nul p x : NUL ∉ p → cstring (p ++ NUL :: x) = p.
Proof.
  induction p as [|b p IH]; intros Hp; simpl; [by rewrite ?decide_True|].
  rewrite decide_False by set_solver. f_equal. set_solver.
Qed.
End Strings.

(** ** Generic list facts *)

Lemma take_S_split {A} (pre : list A) (b : A) post : take (S (length pre)) (pre ++ b :: post) = pre ++ [b].
Proof. rewrite take_app_ge by lia. by replace (S (length pre) - length pre) with 1 by lia. Qed.

Lemma drop_S_split {A} (pre : list A) (b : A) post : drop (S (length pre)) (pre ++ b :: post) = post.
Proof. rewrite drop_app_ge by lia. by replace (S (length pre) - length pre) with 1 by lia. Qed.

(** ** Lemmas on the static array *)

Section Buffers.
Implicit Types (buf src : list byte).

Lemma length_buf_write buf i src :
  length (buf_write buf i src) = i + length src + (length buf - (i + length src)).
Proof.
  unfold buf_write. rewrite !length_app, length_take, length_replicate, length_drop. lia.
Qed.

(** Writing where the array is already initialised: the written
    prefix is the old prefix followed by the copied bytes. *)
Lemma take_buf_write buf i src :
  i ≤ length buf → take (i + length src) (buf_write buf i src) = take i buf ++ src.
Proof.
  intros Hi. unfold buf_write. replace (i - length buf) with 0 by lia. simpl.
  rewrite app_assoc, take_app_length'; [done|].
  rewrite length_app, length_take. lia.
Qed.

Lemma buf_write_lookup_lt buf i src j :
  j < i → buf_write buf i src !!! j = buf !!! j.
Proof.
  intros Hj. unfold buf_write. rewrite !list_lookup_total_alt.
  destruct (decide (j < length buf)).
  - rewrite lookup_app_l by (rewrite length_take; lia).
    by rewrite lookup_take_lt by lia.
  - rewrite lookup_app_r by (rewrite length_take; lia).
    rewrite lookup_app_l by (rewrite length_take, length_replicate; lia).
    rewrite lookup_replicate_2 by (rewrite length_take; lia).
    by rewrite (lookup_ge_None_2 buf j) by lia.
Qed.

Lemma buf_write_lookup_in buf i src j :
  i ≤ j < i + length src → buf_write buf i src !!! j = src !!! (j - i).
Proof.
  intros Hj. unfold buf_write. rewrite !list_lookup_total_alt.
  rewrite app_assoc, lookup_app_r; rewrite length_app, length_take, length_replicate; [|lia].
  rewrite lookup_app_l by lia. f_equal. f_equal. lia.
Qed.

Lemma buf_write_lookup_ge buf i src j :
  i + length src ≤ j → buf_write buf i src !!! j = buf !!! j.
Proof.
  intros Hj. unfold buf_write. rewrite !list_lookup_total_alt.
  rewrite !app_assoc, lookup_app_r;
    rewrite !length_app, length_take, length_replicate; [|lia].
  rewrite lookup_drop. f_equal. f_equal.
  destruct (decide (i ≤ length buf)); lia.
Qed.

Lemma buf_write_length_ge buf i src :
  i + length src ≤ length (buf_write buf i src).
Proof. rewrite length_buf_write. lia. Qed.
End Buffers.

#[export] Hint Resolve take_buf_write buf_write_length_ge buf_write_lookup_lt buf_write_lookup_ge : uncsv.
#[export] Hint Extern 1 (_ ≤ _) => lia : uncsv.
#[export] Hint Extern 1 (_ < _) => lia : uncsv.
#[export] Hint Rewrite take_buf_write buf_write_lookup_lt using lia : uncsv_rw.
