(* ===== verification/Config.v ===== *)
(** * Configuration, buffer sizes and the output sink

    [src/csv.c] reads its configuration from four [extern] globals
    ([delimiter], [quote_style], [r_replacement], [n_replacement]) that
    are defined with the option parsing outside [src/], together with
    the [QUOTE_STYLE] enumeration of [uncsv.h].  It writes through three
    functions that are only declared there ([write_character],
    [write_string], [flush_output]).  This file gives the configuration
    as a record, the two buffer sizes of the [#define]s, and the sink as
    an interface ([Sink] with its laws [SinkLaws]) that the conversion
    is proved against, with two implementations: an unbuffered one and a
    stdio-like buffered one. *)

From S2P Require Import Prelude.

(** ** Buffer sizes (csv.c lines 31-32) *)

Definition MAXLINELEN : nat := 64 * 1024.
Definition MAXFIELDLEN : nat := MAXLINELEN * 2 + 2.

(** ** Configuration *)

Inductive QUOTE_STYLE :=
  | QS_MINIMUM
  | QS_ALL_VALUES
  | QS_EVERYTHING
  | QS_BORDER_SPACES
  | QS_ALL_SPACES.

#[export] Instance QUOTE_STYLE_eqdec : EqDecision QUOTE_STYLE.
Proof. solve_decision. Defined.

(** The run's configuration: the input delimiter, the quoting policy and
    the two optional patterns ([NULL] is [None]). *)
Record config := mk_config {
  delimiter : byte;
  quote_style : QUOTE_STYLE;
  r_replacement : option (list byte);
  n_replacement : option (list byte);
}.

(** The defaults of the option parsing (comma, Minimum, no rules) and
    the single-option changes [-q]/[-Q]/[-s]/[-S], [-d], [-r], [-n]
    make to them. *)
Definition default_config : config := mk_config COMMA QS_MINIMUM None None.

Definition with_quote_style (qs : QUOTE_STYLE) (cfg : config) : config :=
  mk_config (delimiter cfg) qs (r_replacement cfg) (n_replacement cfg).
Definition with_delimiter (d : byte) (cfg : config) : config :=
  mk_config d (quote_style cfg) (r_replacement cfg) (n_replacement cfg).
Definition with_r_replacement (p : list byte) (cfg : config) : config :=
  mk_config (delimiter cfg) (quote_style cfg) (Some p) (n_replacement cfg).
Definition with_n_replacement (p : list byte) (cfg : config) : config :=
  mk_config (delimiter cfg) (quote_style cfg) (r_replacement cfg) (Some p).

(** A replacement pattern given on the command line is a C string; the
    substitution loop needs it nonempty. *)
Definition pattern_ok (p : option (list byte)) : Prop :=
  match p with
  | None => True
  | Some pat => pat ≠ [] ∧ NUL ∉ pat
  end.

#[export] Instance pattern_ok_dec p : Decision (pattern_ok p).
Proof. destruct p; simpl; apply _. Defined.

Definition patterns_ok (cfg : config) : Prop :=
  pattern_ok (r_replacement cfg) ∧ pattern_ok (n_replacement cfg).

(** The configuration the conversion is correct for: a delimiter that is
    not the string terminator and nonempty patterns. *)
Definition config_wf (cfg : config) : Prop := delimiter cfg ≠ NUL ∧ patterns_ok cfg.

#[export] Instance patterns_ok_dec cfg : Decision (patterns_ok cfg).
Proof. unfold patterns_ok. apply _. Defined.

#[export] Instance config_wf_dec cfg : Decision (config_wf cfg).
Proof. unfold config_wf. apply _. Defined.

(** ** The output sink (csv.c lines 42-44)

    [sink_bytes] is every byte accepted so far, in order;
    [sink_delivered] is what has reached the output device. *)
Class Sink (S : Type) := {
  write_character : byte → S → S;
  write_string : list byte → S → S;
  flush_output : S → S;
  sink_bytes : S → list byte;
  sink_delivered : S → list byte;
}.

Class SinkLaws (S : Type) `{!Sink S} := {
  sink_bytes_write_character c s : sink_bytes (write_character c s) = sink_bytes s ++ [c];
  sink_bytes_write_string b s : sink_bytes (write_string b s) = sink_bytes s ++ b;
  sink_bytes_flush s : sink_bytes (flush_output s) = sink_bytes s;
  sink_delivered_prefix s : sink_delivered s `prefix_of` sink_bytes s;
  sink_delivered_flush s : sink_delivered (flush_output s) = sink_bytes s;
}.

#[export] Hint Rewrite @sink_bytes_write_character @sink_bytes_write_string
  @sink_bytes_flush @sink_delivered_flush using typeclasses eauto : uncsv_rw.

(** An unbuffered sink: every byte is delivered at once. *)
#[export] Instance list_sink : Sink (list byte) := {
  write_character c s := s ++ [c];
  write_string b s := s ++ b;
  flush_output s := s;
  sink_bytes s := s;
  sink_delivered s := s;
}.

#[export] Instance list_sink_laws : SinkLaws (list byte).
Proof. split; intros; simpl; done. Qed.

(** A stdio-like sink with a buffer of [cap] bytes: the buffer is
    handed to the device when it is full, or on a flush. *)
Record bsink := mk_bsink { bs_device : list byte; bs_pending : list byte }.

Section Buffered.
Context (cap : nat).

Definition bs_put (b : list byte) (s : bsink) : bsink :=
  let p := bs_pending s ++ b in
  if decide (cap ≤ length p) then mk_bsink (bs_device s ++ p) []
  else mk_bsink (bs_device s) p.

Definition buffered_sink : Sink bsink := {|
  write_character c s := bs_put [c] s;
  write_string b s := bs_put b s;
  flush_output s := mk_bsink (bs_device s ++ bs_pending s) [];
  sink_bytes s := bs_device s ++ bs_pending s;
  sink_delivered s := bs_device s;
|}.

Lemma bs_put_bytes b s :
  bs_device (bs_put b s) ++ bs_pending (bs_put b s) = (bs_device s ++ bs_pending s) ++ b.
Proof. unfold bs_put. case_decide; simpl; by rewrite ?app_nil_r, <-!app_assoc. Qed.

Lemma buffered_sink_laws : @SinkLaws bsink buffered_sink.
Proof.
  split; intros; simpl; rewrite ?bs_put_bytes, ?app_nil_r; try done.
  by eexists.
Qed.
End Buffered.
