(* ===== verification/Replace.v ===== *)
(** * Pattern substitution: [replace_string_by_char] (csv.c lines 60-85)

    The C loop keeps one pointer [c] into the buffer [big]; the model's
    state is the buffer split at that pointer ([pre] before it, [c] from
    it), the counter, and a fuel bound.  One iteration finds the pattern
    at offset [i] with [strstr], writes [repl] over its first byte
    ([c1]), and [memmove]s the string from offset [i + patlen] of [c1]
    to just after [repl]; for a nonempty pattern this leaves
    [take i c ++ [repl] ++ drop (i + patlen) c] with the pointer after
    [repl].  Running out of fuel ([None]) stands for the
    loop not terminating: it never happens for a nonempty pattern
    ([replace_string_by_char_total]) and always happens for the empty
    one ([replace_string_by_char_empty_diverges]), where the C loop
    keeps growing the string past its buffer.

    The abstract specification [replaced] states leftmost,
    non-overlapping substitution as a relation; the loop refines it
    ([replace_string_by_char_spec]) and it determines its result. *)

From S2P Require Import Prelude.

(** ** The code *)

Fixpoint replace_loop (fuel : nat) (pre c pattern : list byte) (repl : byte)
    (count : nat) : option (list byte * nat) :=
  match fuel with
  | O => None
  | S fuel' =>
      match strstr c pattern with
      | None => Some (pre ++ c, count)
      | Some i =>
          (* [*(c++) = repl], then the [memmove] from [c + patlen - 1]. *)
          let c1 := <[i := repl]> c in
          replace_loop fuel' (pre ++ take (S i) c1) (drop (i + length pattern) c1)
            pattern repl (S count)
      end
  end.

(** The buffer after the call and the returned count. *)
Definition replace_string_by_char (big pattern : list byte) (repl : byte)
    : option (list byte * nat) :=
  replace_loop (S (length big)) [] big pattern repl 0.

(** ** The specification *)

(** [occurs_at pat s j]: the pattern starts at offset [j] of [s]. *)
Definition occurs_at (pat s : list byte) (j : nat) : Prop := pat `prefix_of` drop j s.

Inductive replaced (pat : list byte) (repl : byte) : list byte → list byte → nat → Prop :=
  | replaced_none s :
      (∀ j, j ≤ length s → ¬ occurs_at pat s j) →
      replaced pat repl s s 0
  | replaced_hit u v r n :
      (∀ j, j < length u → ¬ occurs_at pat (u ++ pat ++ v) j) →
      replaced pat repl v r n →
      replaced pat repl (u ++ pat ++ v) (u ++ repl :: r) (S n).

(** ** Lemmas *)

Section Lemmas.
Context (pat : list byte) (repl : byte).
Implicit Types (s pre c r : list byte).

Lemma occurs_at_app u w : occurs_at pat (u ++ w) (length u) ↔ pat `prefix_of` w.
Proof. unfold occurs_at. by rewrite drop_app_length. Qed.

(** The split of the string at the occurrence [strstr] found. *)
Lemma strstr_hit c i :
  strstr c pat = Some i →
  ∃ u v, c = u ++ pat ++ v ∧ i = length u ∧
         ∀ j, j < length u → ¬ occurs_at pat c j.
Proof.
  intros Hs. destruct (strstr_Some _ _ _ Hs) as (Hi & [w Hw] & Hfirst).
  exists (take i c), w. split_and!.
  - by rewrite <-Hw, take_drop.
  - rewrite length_take. lia.
  - intros j. rewrite length_take. intros ?. apply Hfirst. lia.
Qed.

(** One iteration on a nonempty pattern: [repl] over its first byte,
    the rest of the pattern moved over. *)
Lemma replace_step u v :
  pat ≠ [] →
  take (S (length u)) (<[length u := repl]> (u ++ pat ++ v)) = u ++ [repl] ∧
  drop (length u + length pat) (<[length u := repl]> (u ++ pat ++ v)) = v.
Proof.
  destruct pat as [|p pat']; [done|]. intros _.
  rewrite insert_app_r_alt, Nat.sub_diag by lia. cbn [app insert list_insert].
  split; [apply take_S_split|].
  rewrite <-drop_drop, drop_app_length. simpl. by rewrite drop_app_length.
Qed.

Lemma replace_loop_sound fuel pre c k r n :
  pat ≠ [] →
  replace_loop fuel pre c pat repl k = Some (r, n) →
  ∃ r', r = pre ++ r' ∧ replaced pat repl c r' (n - k) ∧ k ≤ n.
Proof.
  intros Hpat. revert pre c k. induction fuel as [|fuel IH]; intros pre c k; simpl; [done|].
  destruct (strstr c pat) as [i|] eqn:Hs.
  - destruct (strstr_hit c i Hs) as (u & v & -> & -> & Hfirst).
    destruct (replace_step u v Hpat) as [-> ->].
    intros (r' & -> & Hr & Hk)%IH.
    exists (u ++ repl :: r'). rewrite <-!app_assoc. simpl.
    split_and!; [done| |lia].
    replace (n - k) with (S (n - S k)) by lia. by apply replaced_hit.
  - intros [= <- <-]. exists c. split_and!; [done| |lia].
    rewrite Nat.sub_diag. apply replaced_none. by apply strstr_None.
Qed.

Lemma replace_loop_total fuel pre c k :
  pat ≠ [] → length c < fuel →
  ∃ r n, replace_loop fuel pre c pat repl k = Some (r, n).
Proof.
  intros Hpat. revert pre c k. induction fuel as [|fuel IH]; intros pre c k Hc; simpl; [lia|].
  destruct (strstr c pat) as [i|] eqn:Hs; [|by eauto].
  destruct (strstr_hit c i Hs) as (u & v & -> & -> & _).
  destruct (replace_step u v Hpat) as [-> ->].
  apply IH. rewrite !length_app in Hc. destruct pat; [done|]. simpl in *. lia.
Qed.

(** The relation is a function of its input. *)
Lemma replaced_det s r1 n1 r2 n2 :
  replaced pat repl s r1 n1 → replaced pat repl s r2 n2 → r1 = r2 ∧ n1 = n2.
Proof.
  intros H1. revert r2 n2. induction H1 as [s Hs|u v r n Hu Hv IH]; intros r2 n2 H2.
  - inversion H2 as [|u v r' n' Hu Hv]; subst; [done|].
    exfalso. apply (Hs (length u)); [rewrite !length_app; lia|].
    apply occurs_at_app. by eexists.
  - inversion H2 as [s Hs|u' v' r' n' Hu' Hv']; subst.
    + exfalso. apply (Hs (length u)); [rewrite !length_app; lia|].
      apply occurs_at_app. by eexists.
    + assert (length u = length u') as Hlen.
      { destruct (Nat.lt_trichotomy (length u) (length u')) as [Hlt|[?|Hlt]]; [|done|].
        - exfalso. apply (Hu' (length u) Hlt).
          assert (occurs_at pat (u ++ pat ++ v) (length u)) by (apply occurs_at_app; by eexists).
          congruence.
        - exfalso. apply (Hu (length u') Hlt).
          assert (occurs_at pat (u' ++ pat ++ v') (length u')) by (apply occurs_at_app; by eexists).
          congruence. }
      apply app_inj_1 in H as [-> Hv'']; [|done].
      apply app_inv_head in Hv'' as ->.
      destruct (IH _ _ Hv') as [-> ->]. done.
Qed.

(** Each replacement shortens the string by [length pat - 1]. *)
Lemma replaced_length s r n :
  pat ≠ [] → replaced pat repl s r n → length r + n * (length pat - 1) = length s.
Proof.
  intros Hpat. assert (1 ≤ length pat) by (destruct pat; simpl; [done|lia]).
  induction 1 as [|u v r n _ _ IH]; [simpl; lia|].
  rewrite !length_app. simpl. nia.
Qed.

Lemma replaced_zero s r :
  replaced pat repl s r 0 ↔ r = s ∧ ∀ j, j ≤ length s → ¬ occurs_at pat s j.
Proof.
  split.
  - inversion 1; subst; done.
  - intros [-> ?]. by constructor.
Qed.

(** Each replacement leaves its byte in the result. *)
Lemma replaced_count_le s r n : replaced pat repl s r n → n ≤ length r.
Proof. induction 1; simpl; rewrite ?length_app; simpl; lia. Qed.

End Lemmas.

(** ** Properties of [replace_string_by_char] *)

Section Properties.
Implicit Types (big pat r : list byte) (repl : byte).

Lemma replace_string_by_char_sound big pat repl r n :
  pat ≠ [] → replace_string_by_char big pat repl = Some (r, n) → replaced pat repl big r n.
Proof.
  intros Hpat (r' & -> & Hr & _)%replace_loop_sound; [|done]. by rewrite Nat.sub_0_r in Hr.
Qed.

Lemma replace_string_by_char_some big pat repl :
  pat ≠ [] → ∃ r n, replace_string_by_char big pat repl = Some (r, n).
Proof. intros Hpat. apply replace_loop_total; [done|lia]. Qed.

(** C5: for a nonempty pattern the substitution loop terminates, after
    at most [length big / patlen] replacements. *)
Theorem replace_string_by_char_total big pat repl :
  pat ≠ [] →
  ∃ r n, replace_string_by_char big pat repl = Some (r, n) ∧ n * length pat ≤ length big.
Proof.
  intros Hpat. destruct (replace_string_by_char_some big pat repl Hpat) as (r & n & Hrun).
  exists r, n. split; [done|]. apply replace_string_by_char_sound in Hrun; [|done].
  pose proof (replaced_length _ _ _ _ _ Hpat Hrun). pose proof (replaced_count_le _ _ _ _ _ Hrun).
  destruct pat; [done|]. simpl in *. nia.
Qed.

(** C37: with the empty pattern the loop never terminates: [strstr]
    finds the pattern at the pointer on every iteration, so no amount
    of fuel is enough, from any state of the loop (in particular from
    the initial one of [replace_string_by_char]). *)
Theorem replace_string_by_char_empty_diverges fuel pre big repl k :
  replace_loop fuel pre big [] repl k = None.
Proof.
  revert pre big k. induction fuel as [|fuel IH]; intros pre big k; [done|].
  cbn [replace_loop]. rewrite strstr_empty. apply IH.
Qed.

(** C4: the loop implements leftmost, non-overlapping substitution:
    its result is exactly the one [replaced] specifies. *)
Theorem replace_string_by_char_spec big pat repl r n :
  pat ≠ [] →
  replace_string_by_char big pat repl = Some (r, n) ↔ replaced pat repl big r n.
Proof.
  intros Hpat. split; [by apply replace_string_by_char_sound|].
  intros Hspec.
  destruct (replace_loop_total pat repl (S (length big)) [] big 0 Hpat ltac:(lia)) as (r' & n' & Hrun).
  destruct (replaced_det _ _ _ _ _ _ _ Hspec (replace_string_by_char_sound _ _ _ _ _ Hpat Hrun))
    as [-> ->].
  done.
Qed.

(** C23: every replacement shrinks the buffer by [patlen - 1] bytes, so
    the operation is safe in place. *)
Theorem replace_string_by_char_length big pat repl :
  pat ≠ [] →
  ∃ r n, replace_string_by_char big pat repl = Some (r, n) ∧
    length r + n * (length pat - 1) = length big.
Proof.
  intros Hpat. destruct (replace_string_by_char_some big pat repl Hpat) as (r & n & Hrun).
  exists r, n. split; [done|]. by eapply replaced_length, replace_string_by_char_sound.
Qed.

(** C24: the count is zero exactly when the pattern does not occur,
    and then the buffer is unchanged. *)
Theorem replace_string_by_char_zero big pat repl :
  pat ≠ [] →
  ∃ r n, replace_string_by_char big pat repl = Some (r, n) ∧
    (n = 0 ↔ ∀ j, j ≤ length big → ¬ occurs_at pat big j) ∧ (n = 0 → r = big).
Proof.
  intros Hpat. destruct (replace_string_by_char_some big pat repl Hpat) as (r & n & Hrun).
  exists r, n. split; [done|].
  apply replace_string_by_char_sound in Hrun; [|done].
  destruct Hrun as [s Hs|u v r n Hu Hv]; [done|].
  split; [|done]. split; [done|]. intros Hno. exfalso.
  apply (Hno (length u)); [rewrite !length_app; lia|]. apply occurs_at_app. by eexists.
Qed.
End Properties.

(** ** Witnesses *)

Example replace_string_by_char_run :
  replace_string_by_char b{"x\ny\nz"} b{"\n"} LF = Some ([x78; LF; x79; LF; x7a], 2).
Proof. reflexivity. Qed.

Lemma replace_string_by_char_total_witness :
  ∃ r n, replace_string_by_char b{"a\rb"} b{"\r"} CR = Some (r, n) ∧ n * length b{"\r"} ≤ length b{"a\rb"}.
Proof. apply replace_string_by_char_total. vm_compute. discriminate. Defined.

Lemma replace_string_by_char_spec_witness :
  replaced b{"\n"} LF b{"x\ny"} [x78; LF; x79] 1.
Proof. eapply replace_string_by_char_spec; [vm_compute; discriminate|reflexivity]. Defined.

Lemma replace_string_by_char_length_witness :
  ∃ r n, replace_string_by_char b{"x\ny"} b{"\n"} LF = Some (r, n) ∧
    length r + n * (length b{"\n"} - 1) = length b{"x\ny"}.
Proof. apply (replace_string_by_char_length _ _ LF). vm_compute. discriminate. Defined.

Lemma replace_string_by_char_zero_witness :
  ∃ r n, replace_string_by_char b{"abc"} b{"\n"} LF = Some (r, n) ∧
    (n = 0 ↔ ∀ j, j ≤ length b{"abc"} → ¬ occurs_at b{"\n"} b{"abc"} j) ∧ (n = 0 → r = b{"abc"}).
Proof. apply (replace_string_by_char_zero _ _ LF). vm_compute. discriminate. Defined.
