(* ===== verification/Field.v ===== *)
(** * The field encoder: [convert_field] (csv.c lines 99-188)

    State: the static scratch array [buf] (initialised to one double
    quote followed by zeros, never cleared between calls), the global
    [start_of_line] flag, and the output sink.  [conv_state] holds the
    three; [convert_field] is the whole function, composed of
    - the two replacement passes ([apply_replacement], lines 114-128),
    - the copy-and-escape loop ([escape_loop], lines 130-150), a
      [Function] on the length of the unscanned rest of the field,
    - the quoting policy ([style_quoted], lines 152-175) and the comma
      check (lines 177-179),
    - the closing quote and the write (lines 181-187).
    [None] is returned only when a replacement pass does not terminate.

    The abstract encoder [encode_field_spec] describes one call on an
    abstract state: the byte [buf[1]] left by the previous call, the
    line-start flag and the bytes written.  [convert_field_correct]
    proves that the code refines it. *)

From Stdlib Require Import FunInd Recdef.
From S2P Require Import Prelude Config Replace.

(** ** The code *)

(** [replace_string_by_char] on the field if the pattern is configured;
    a replacement forces quoting and re-measures the field. *)
Definition apply_replacement (pat : option (list byte)) (repl : byte)
    (c : list byte) (len : nat) (quoted : bool) : option (list byte * nat * bool) :=
  match pat with
  | None => Some (c, len, quoted)
  | Some p =>
      '(c', count) ← replace_string_by_char c p repl;
      if decide (0 < count) then Some (c', length c', true) else Some (c', len, quoted)
  end.

(** The copy loop: [c] is the unscanned rest of the field, [len] its
    length ([size_t]), [cur] the write offset into [buf].  Each found
    quote is copied with everything before it and then doubled. *)
Function escape_loop (c : list byte) (len : nat) (buf : list byte) (cur : nat)
    (quoted : bool) {measure length c} : list byte * nat * list byte * nat * bool :=
  match strchr c DQ with
  | None => (c, len, buf_write buf cur (take len c), cur + len, quoted)
  | Some i =>
      escape_loop (drop (S i) c) (len - S i)
        (buf_write (buf_write buf cur (take (S i) c)) (cur + S i) [DQ])
        (cur + S i + 1) true
  end.
Proof.
  intros c _ _ _ _ i Hi.
  destruct (strchr_Some c DQ i ltac:(discriminate) Hi) as (pre & post & -> & <- & _).
  rewrite length_drop, length_app. simpl. lia.
Defined.

Definition is_blank (b : byte) : bool := bool_decide (b = SP) || bool_decide (b = TAB).

(** The [switch (quote_style)]: [buf] and [len] are read after the loop,
    so [len] is the length of the rest after the last quote. *)
Definition style_quoted (qs : QUOTE_STYLE) (buf c : list byte) (len : nat)
    (quoted : bool) : bool :=
  match qs with
  | QS_EVERYTHING => true
  | QS_ALL_VALUES => if decide (0 < len) then true else quoted
  | QS_BORDER_SPACES =>
      if bool_decide (buf !!! 1 = SP) || bool_decide (buf !!! 1 = TAB)
         || bool_decide (buf !!! len = SP) || bool_decide (buf !!! len = TAB)
      then true else quoted
  | QS_ALL_SPACES =>
      match strpbrk c [SP; TAB] with Some _ => true | None => quoted end
  | QS_MINIMUM => quoted
  end.

Record conv_state (Out : Type) := mk_state {
  st_buf : list byte;
  st_start_of_line : bool;
  st_out : Out;
}.
Arguments mk_state {Out}.
Arguments st_buf {Out}.
Arguments st_start_of_line {Out}.
Arguments st_out {Out}.

(** The scratch array starts as one double quote ([static char buf[MAXFIELDLEN]]
    at line 102) and [start_of_line] as [true] (line 39). *)
Definition initial_buf : list byte := [DQ].

Definition init_state {Out} (out : Out) : conv_state Out := mk_state initial_buf true out.

Section Encoder.
Context {Out : Type} `{!Sink Out}.

Definition convert_field (cfg : config) (c : list byte) (len : nat)
    (st : conv_state Out) : option (conv_state Out) :=
  let out := if st_start_of_line st then st_out st
             else write_character COMMA (st_out st) in
  '(c, len, quoted) ← apply_replacement (r_replacement cfg) CR c len false;
  '(c, len, quoted) ← apply_replacement (n_replacement cfg) LF c len quoted;
  let '(c, len, buf, cur, quoted) := escape_loop c len (st_buf st) 1 quoted in
  let quoted := style_quoted (quote_style cfg) buf c len quoted in
  let quoted := if quoted then true
                else match strchr c COMMA with Some _ => true | None => false end in
  let '(offset, buf, cur) :=
    if quoted then (0, buf_write buf cur [DQ], S cur) else (1, buf, cur) in
  Some (mk_state buf false (write_string (take (cur - offset) (drop offset buf)) out)).
End Encoder.

(** ** The reference encoding *)

(** RFC 4180 escaping: every double quote is doubled. *)
Definition escape_byte (b : byte) : list byte := if decide (b = DQ) then [DQ; DQ] else [b].
Definition escape (f : list byte) : list byte := flat_map escape_byte f.

(** A field as written: with or without the surrounding quotes. *)
Definition csv_field (quoted : bool) (f : list byte) : list byte :=
  if quoted then [DQ] ++ escape f ++ [DQ] else escape f.

(** ** The abstract encoder *)

(** One replacement pass: nothing when the pattern is not configured,
    otherwise the specified substitution; [hit] says whether it
    replaced anything. *)
Definition pass_spec (p : option (list byte)) (repl : byte) (c c' : list byte)
    (hit : bool) : Prop :=
  match p with
  | None => c' = c ∧ hit = false
  | Some pat => ∃ n, replaced pat repl c c' n ∧ hit = bool_decide (0 < n)
  end.

(** The field after both passes ([r_replacement] first). *)
Definition field_replaced (cfg : config) (c f : list byte) (hit : bool) : Prop :=
  ∃ c1 h1 h2, pass_spec (r_replacement cfg) CR c c1 h1 ∧
              pass_spec (n_replacement cfg) LF c1 f h2 ∧ hit = h1 || h2.

(** What each policy adds, for a field [f] without quotes; [stale] is
    the byte [buf[1]] left by the previous call. *)
Definition style_spec (qs : QUOTE_STYLE) (stale : byte) (f : list byte) : bool :=
  match qs with
  | QS_MINIMUM => false
  | QS_EVERYTHING => true
  | QS_ALL_VALUES => bool_decide (f ≠ [])
  | QS_BORDER_SPACES =>
      match f with
      | [] => is_blank stale
      | b :: _ => is_blank b || is_blank (default NUL (last f))
      end
  | QS_ALL_SPACES => bool_decide (Exists (λ b, b ∈ [SP; TAB]) f)
  end.

Definition needs_quote (qs : QUOTE_STYLE) (stale : byte) (f : list byte) (hit : bool) : bool :=
  hit || bool_decide (DQ ∈ f) || style_spec qs stale f || bool_decide (COMMA ∈ f).

(** The byte at [buf[1]] after a call. *)
Definition stale_after (stale : byte) (f : list byte) (quoted : bool) : byte :=
  match f with
  | [] => if quoted then DQ else stale
  | b :: _ => b
  end.

(** The separator [convert_field] writes first. *)
Definition field_sep (start_of_line : bool) : list byte := if start_of_line then [] else [COMMA].

Record astate := mk_astate { a_stale : byte; a_sol : bool; a_out : list byte }.

Definition abs {Out} `{!Sink Out} (st : conv_state Out) : astate :=
  mk_astate (st_buf st !!! 1) (st_start_of_line st) (sink_bytes (st_out st)).

Definition encode_field_spec (qs : QUOTE_STYLE) (a : astate) (f : list byte) (hit : bool)
    : astate :=
  let q := needs_quote qs (a_stale a) f hit in
  mk_astate (stale_after (a_stale a) f q) false
    (a_out a ++ field_sep (a_sol a) ++ csv_field q f).

(** ** The copy-and-escape loop *)

Lemma escape_app f g : escape (f ++ g) = escape f ++ escape g.
Proof. apply flat_map_app. Qed.

Lemma escape_no_dq f : DQ ∉ f → escape f = f.
Proof.
  induction f as [|b f IH]; intros Hf; [done|]. simpl.
  unfold escape_byte. rewrite decide_False by set_solver. f_equal. apply IH. set_solver.
Qed.

Lemma length_escape_ge f : length f ≤ length (escape f).
Proof.
  induction f as [|b f IH]; [done|]. simpl. unfold escape_byte.
  rewrite length_app. case_decide; simpl; lia.
Qed.

Lemma length_escape_le f : length (escape f) ≤ 2 * length f.
Proof.
  induction f as [|b f IH]; [done|]. simpl. unfold escape_byte.
  rewrite length_app. case_decide; simpl; lia.
Qed.

#[export] Hint Rewrite escape_app : uncsv_rw.

(** One iteration: the bytes up to and including the found quote are
    copied and the quote is written a second time. *)
Lemma escape_loop_step_buf buf cur pre :
  cur ≤ length buf → DQ ∉ pre →
  let buf2 := buf_write (buf_write buf cur (pre ++ [DQ])) (cur + S (length pre)) [DQ] in
  take (cur + S (length pre) + 1) buf2 = take cur buf ++ escape (pre ++ [DQ]) ∧
  cur + S (length pre) + 1 ≤ length buf2 ∧
  (∀ j, j < cur → buf2 !!! j = buf !!! j) ∧
  (∀ j, cur + S (length pre) + 1 ≤ j → buf2 !!! j = buf !!! j).
Proof.
  intros Hcur Hpre buf2. subst buf2.
  pose proof (buf_write_length_ge buf cur (pre ++ [DQ])) as Hl1.
  rewrite length_app in Hl1. simpl in Hl1.
  split_and!.
  - replace (cur + S (length pre)) with (cur + length (pre ++ [DQ]))
      by (rewrite length_app; simpl; lia).
    rewrite (take_buf_write _ _ [DQ]) by (rewrite length_app; simpl; lia).
    rewrite take_buf_write by done.
    rewrite escape_app, escape_no_dq by done. simpl. by rewrite <-!app_assoc.
  - pose proof (buf_write_length_ge (buf_write buf cur (pre ++ [DQ]))
      (cur + S (length pre)) [DQ]). simpl in *. lia.
  - intros j Hj. rewrite !buf_write_lookup_lt by lia. done.
  - intros j Hj. rewrite !buf_write_lookup_ge; [done| |]; rewrite ?length_app; simpl; lia.
Qed.

(** The loop writes the escaped field after the already written prefix,
    leaves the bytes before [cur] alone, keeps [len] equal to the length
    of the unscanned rest [c'], and ends on the part after the last
    quote. *)
Lemma escape_loop_spec c buf cur q :
  cur ≤ length buf →
  let '(c', len', buf', cur', q') := escape_loop c (length c) buf cur q in
  take cur' buf' = take cur buf ++ escape c ∧
  cur' = cur + length (escape c) ∧ cur' ≤ length buf' ∧
  len' = length c' ∧ q' = q || bool_decide (DQ ∈ c) ∧
  DQ ∉ c' ∧ (DQ ∉ c → c' = c) ∧
  (∀ j, j < cur → buf' !!! j = buf !!! j) ∧
  (∀ j, cur' ≤ j → buf' !!! j = buf !!! j).
Proof.
  remember (length c) as n eqn:Hn.
  revert c buf cur q Hn. induction n as [n IH] using lt_wf_ind.
  intros c buf cur q Hn Hcur. rewrite escape_loop_equation.
  destruct (strchr c DQ) as [i|] eqn:Hs.
  - destruct (strchr_Some c DQ i ltac:(discriminate) Hs) as (pre & post & -> & <- & Hpre).
    destruct (escape_loop_step_buf buf cur pre Hcur Hpre) as (Htake & Hlen & Hkeep & Hkeep2).
    rewrite take_S_split, drop_S_split.
    rewrite length_app in Hn. simpl in Hn.
    replace (n - S (length pre)) with (length post) by lia.
    specialize (IH (length post) ltac:(lia) post _ _ true eq_refl Hlen).
    destruct (escape_loop post _ _ _ _) as [[[[c' len'] buf'] cur'] q'].
    destruct IH as (Htake' & Hcur' & Hlen' & -> & -> & Hc' & _ & Hkeep' & Hkeep2').
    assert (pre ++ DQ :: post = (pre ++ [DQ]) ++ post) as Hsplit by by rewrite <-app_assoc.
    split_and!.
    + by rewrite Htake', Htake, <-app_assoc, <-escape_app, <-app_assoc.
    + rewrite Hcur', Hsplit, !escape_app, !length_app, (escape_no_dq pre) by done. simpl. lia.
    + done.
    + done.
    + rewrite (bool_decide_eq_true_2 (DQ ∈ pre ++ DQ :: post)) by set_solver. by destruct q.
    + done.
    + intros Hdq. set_solver.
    + intros j Hj. rewrite Hkeep' by lia. by apply Hkeep.
    + intros j Hj. rewrite Hkeep2' by lia. apply Hkeep2. lia.
  - pose proof (strchr_None c DQ ltac:(discriminate) Hs) as Hc. subst n.
    rewrite firstn_all, escape_no_dq by done.
    split_and!; try done; try (intros; by eauto with uncsv).
    rewrite bool_decide_eq_false_2 by done. by destruct q.
Qed.

(** The loop extends [buf] only up to the end of what it writes. *)
Lemma escape_loop_length c buf cur q :
  let '(_, _, buf', _, _) := escape_loop c (length c) buf cur q in
  length buf' ≤ Nat.max (length buf) (cur + length (escape c)).
Proof.
  remember (length c) as n eqn:Hn.
  revert c buf cur q Hn. induction n as [n IH] using lt_wf_ind.
  intros c buf cur q Hn. rewrite escape_loop_equation.
  destruct (strchr c DQ) as [i|] eqn:Hs.
  - destruct (strchr_Some c DQ i ltac:(discriminate) Hs) as (pre & post & -> & <- & Hpre).
    rewrite take_S_split, drop_S_split. rewrite length_app in Hn. simpl in Hn.
    replace (n - S (length pre)) with (length post) by lia.
    set (buf2 := buf_write (buf_write buf cur (pre ++ [DQ])) (cur + S (length pre)) [DQ]).
    specialize (IH (length post) ltac:(lia) post buf2 (cur + S (length pre) + 1) true eq_refl).
    destruct (escape_loop post _ _ _ _) as [[[[c' len'] buf'] cur'] q'].
    assert (length buf2 ≤ Nat.max (length buf) (cur + S (length pre) + 1)).
    { subst buf2. rewrite !length_buf_write, length_app. simpl. lia. }
    rewrite escape_app, length_app, escape_no_dq by done. simpl. lia.
  - pose proof (strchr_None c DQ ltac:(discriminate) Hs) as Hc. subst n.
    rewrite firstn_all, length_buf_write, escape_no_dq by done. lia.
Qed.

(** ** Lemmas on the encoder *)

Lemma apply_replacement_spec p repl c q :
  pattern_ok p →
  ∃ c' h, apply_replacement p repl c (length c) q = Some (c', length c', q || h) ∧
          pass_spec p repl c c' h.
Proof.
  destruct p as [pat|]; simpl; intros Hp; [|exists c, false; by rewrite orb_false_r].
  destruct Hp as [Hne _].
  destruct (replace_loop_total pat repl (S (length c)) [] c 0 Hne ltac:(lia)) as (r & n & Hrun).
  pose proof (replace_string_by_char_sound _ _ _ _ _ Hne Hrun) as Hsp.
  unfold replace_string_by_char in *. rewrite Hrun. simpl.
  exists r, (bool_decide (0 < n)). split; [|by exists n].
  case_decide.
  - by rewrite bool_decide_eq_true_2, orb_true_r by lia.
  - assert (n = 0) as -> by lia. apply replaced_zero in Hsp as [-> _].
    by rewrite orb_false_r.
Qed.

Lemma buf_take1 buf : buf !!! 0 = DQ → take 1 buf = [DQ] ∧ 1 ≤ length buf.
Proof. destruct buf as [|b buf]; simpl; [discriminate|]. intros ->. split; [done|lia]. Qed.

Lemma lookup_total_of_take (l p : list byte) n j :
  take n l = p → j < n → j < length l → l !!! j = p !!! j.
Proof.
  intros <- ??. rewrite !list_lookup_total_alt, lookup_take_lt by lia. done.
Qed.

Lemma if_true_else (b q : bool) : (if b then true else q) = q || b.
Proof. by destruct b, q. Qed.

Lemma style_quoted_true qs buf c len : style_quoted qs buf c len true = true.
Proof. destruct qs; simpl; repeat case_match; done. Qed.

(** The policy on a field without quotes, read from the array the loop
    left behind. *)
Lemma style_quoted_plain qs buf f stale q :
  buf !!! 0 = DQ → (f = [] → buf !!! 1 = stale) →
  (∀ j, j < length f → buf !!! S j = f !!! j) →
  style_quoted qs buf f (length f) q = q || style_spec qs stale f.
Proof.
  intros H0 H1 Hf. destruct qs; simpl.
  - by rewrite orb_false_r.
  - destruct f, q; done.
  - by rewrite orb_true_r.
  - rewrite if_true_else. f_equal. destruct f as [|b f'].
    + rewrite H1 by done. simpl. rewrite H0. unfold is_blank. by rewrite !orb_false_r.
    + rewrite (Hf 0) by (simpl; lia).
      replace (length (b :: f')) with (S (pred (length (b :: f')))) by (simpl; lia).
      rewrite Hf by (simpl; lia). rewrite last_lookup, !list_lookup_total_alt.
      unfold is_blank. simpl. by rewrite !orb_assoc.
  - pose proof (strpbrk_found f [SP; TAB]) as Hfd.
    destruct (strpbrk f [SP; TAB]); rewrite <-Hfd; by destruct q.
Qed.

Lemma escape_head b f : escape (b :: f) !!! 0 = b.
Proof. simpl. unfold escape_byte. case_decide; by subst. Qed.

(** After the loop, [quoted] and the comma check decide exactly
    [needs_quote]. *)
Lemma quote_decision qs buf f hit :
  buf !!! 0 = DQ →
  let '(c', len', buf', cur', q') := escape_loop f (length f) buf 1 hit in
  (if style_quoted qs buf' c' len' q' then true
   else match strchr c' COMMA with Some _ => true | None => false end)
  = needs_quote qs (buf !!! 1) f hit.
Proof.
  intros H0. destruct (buf_take1 buf H0) as [Ht1 Hl1].
  pose proof (escape_loop_spec f buf 1 hit Hl1) as Hspec.
  destruct (escape_loop f (length f) buf 1 hit) as [[[[c' len'] buf'] cur'] q'].
  destruct Hspec as (Htake & Hcur & Hlen & -> & -> & Hc' & Hnodq & Hlt & Hge).
  unfold needs_quote. destruct (decide (DQ ∈ f)) as [Hdq|Hdq].
  - rewrite (bool_decide_eq_true_2 (DQ ∈ f)) by done.
    rewrite orb_true_r, style_quoted_true. done.
  - rewrite (bool_decide_eq_false_2 (DQ ∈ f)), orb_false_r by done.
    specialize (Hnodq Hdq). subst c'.
    rewrite Ht1, escape_no_dq in Htake by done.
    rewrite escape_no_dq in Hcur by done.
    rewrite (style_quoted_plain qs buf' f (buf !!! 1) hit).
    + rewrite <-(strchr_found f COMMA) by discriminate.
      by destruct (hit || style_spec qs (buf !!! 1) f).
    + by rewrite Hlt by lia.
    + intros ->. rewrite Hge by (simpl in Hcur; lia). done.
    + intros j Hj. rewrite (lookup_total_of_take buf' ([DQ] ++ f) cur') by (done || lia).
      done.
Qed.

(** The closing quote and the write: the bytes written are the field
    as [csv_field] prints it, and [buf[0]] still holds the quote. *)
Lemma emit_spec buf f hit (quoted : bool) :
  buf !!! 0 = DQ →
  let '(c', len', buf', cur', q') := escape_loop f (length f) buf 1 hit in
  let '(offset, buf'', cur'') :=
    if quoted then (0, buf_write buf' cur' [DQ], S cur') else (1, buf', cur') in
  take (cur'' - offset) (drop offset buf'') = csv_field quoted f ∧
  buf'' !!! 0 = DQ ∧ buf'' !!! 1 = stale_after (buf !!! 1) f quoted.
Proof.
  intros H0. destruct (buf_take1 buf H0) as [Ht1 Hl1].
  pose proof (escape_loop_spec f buf 1 hit Hl1) as Hspec.
  destruct (escape_loop f (length f) buf 1 hit) as [[[[c' len'] buf'] cur'] q'].
  destruct Hspec as (Htake & Hcur & Hlen & _ & _ & _ & _ & Hlt & Hge).
  rewrite Ht1 in Htake.
  assert (buf' !!! 1 = stale_after (buf !!! 1) f false) as Hb1.
  { destruct f as [|b f]; simpl.
    - apply Hge. simpl in Hcur. lia.
    - pose proof (length_escape_ge (b :: f)). simpl in Hcur.
      rewrite (lookup_total_of_take buf' ([DQ] ++ escape (b :: f)) cur') by (done || simpl in *; lia).
      apply escape_head. }
  destruct quoted; simpl.
  - rewrite drop_0, ?Nat.sub_0_r. split_and!.
    + replace (S cur') with (cur' + length [DQ]) by (simpl; lia).
      by rewrite take_buf_write, Htake by done.
    + rewrite buf_write_lookup_lt by lia. by rewrite Hlt by lia.
    + destruct f as [|b f]; simpl in *.
      * rewrite buf_write_lookup_in by (simpl; lia). by replace (1 - cur') with 0 by lia.
      * pose proof (length_escape_ge (b :: f)). simpl in *.
        rewrite buf_write_lookup_lt by lia. done.
  - split_and!; [|by rewrite Hlt by lia|done].
    rewrite take_drop_commute. replace (1 + (cur' - 1)) with cur' by lia.
    by rewrite Htake.
Qed.

(** The replacement passes only shorten the field. *)
Lemma pass_spec_length p repl c c' h :
  pattern_ok p → pass_spec p repl c c' h → length c' ≤ length c.
Proof.
  destruct p as [pat|]; simpl; [|by intros _ [-> _]].
  intros [Hne _] (n & Hr & _). pose proof (replaced_length _ _ _ _ _ Hne Hr). nia.
Qed.

Lemma field_replaced_length cfg c f hit :
  patterns_ok cfg → field_replaced cfg c f hit → length f ≤ length c.
Proof.
  intros [Hr Hn] (c1 & h1 & h2 & H1 & H2 & _).
  pose proof (pass_spec_length _ _ _ _ _ Hr H1). pose proof (pass_spec_length _ _ _ _ _ Hn H2). lia.
Qed.

Section Correctness.
Context {Out : Type} `{!Sink Out} `{HL : !SinkLaws Out}.

(** [convert_field] refines the abstract encoder. *)
Lemma convert_field_refines cfg c (st : conv_state Out) :
  patterns_ok cfg → st_buf st !!! 0 = DQ →
  ∃ f hit st', field_replaced cfg c f hit ∧
    convert_field cfg c (length c) st = Some st' ∧
    abs st' = encode_field_spec (quote_style cfg) (abs st) f hit ∧
    st_buf st' !!! 0 = DQ.
Proof using HL.
  intros (Hr & Hn) H0.
  destruct (apply_replacement_spec _ CR c false Hr) as (c1 & h1 & Hrun1 & Hs1).
  destruct (apply_replacement_spec _ LF c1 h1 Hn) as (f & h2 & Hrun2 & Hs2).
  set (hit := h1 || h2).
  set (q := needs_quote (quote_style cfg) (st_buf st !!! 1) f hit).
  pose proof (quote_decision (quote_style cfg) (st_buf st) f hit H0) as Hq.
  pose proof (emit_spec (st_buf st) f hit q H0) as He.
  unfold convert_field. rewrite Hrun1. simpl. rewrite Hrun2. simpl.
  fold hit.
  destruct (escape_loop f (length f) (st_buf st) 1 hit) as [[[[c' len'] buf'] cur'] q'].
  rewrite Hq. fold q.
  destruct (if q then _ else _) as [[offset buf''] cur''].
  destruct He as (Hout & Hb0 & Hb1).
  eexists f, hit, _. split_and!; [by exists c1, h1, h2|done| |done].
  unfold abs, encode_field_spec. simpl. fold q. rewrite Hb1.
  f_equal. autorewrite with uncsv_rw. rewrite Hout. unfold field_sep.
  destruct (st_start_of_line st); autorewrite with uncsv_rw; by rewrite <-?app_assoc.
Qed.

(** A call writes [buf] only up to [2 * len + 2]: the opening quote, the
    field with each byte at most doubled, the closing quote. *)
Lemma convert_field_buf_length cfg c (st st' : conv_state Out) :
  patterns_ok cfg → st_buf st !!! 0 = DQ →
  convert_field cfg c (length c) st = Some st' →
  length (st_buf st') ≤ Nat.max (length (st_buf st)) (2 * length c + 2).
Proof.
  intros Hp H0. pose proof Hp as (Hr & Hn).
  destruct (apply_replacement_spec _ CR c false Hr) as (c1 & h1 & Hrun1 & Hs1).
  destruct (apply_replacement_spec _ LF c1 h1 Hn) as (f & h2 & Hrun2 & Hs2).
  assert (length f ≤ length c) as Hf.
  { apply (field_replaced_length cfg c f (h1 || h2)); [done|by exists c1, h1, h2]. }
  pose proof (length_escape_le f) as He.
  destruct (buf_take1 _ H0) as [_ Hl1].
  pose proof (escape_loop_spec f (st_buf st) 1 (h1 || h2) Hl1) as Hspec.
  pose proof (escape_loop_length f (st_buf st) 1 (h1 || h2)) as Hlen.
  unfold convert_field. rewrite Hrun1. simpl. rewrite Hrun2. simpl.
  destruct (escape_loop f (length f) (st_buf st) 1 (h1 || h2)) as [[[[c' len'] buf'] cur'] q'].
  destruct Hspec as (_ & Hcur & _).
  destruct (if style_quoted _ _ _ _ _ then true else _); intros [= <-]; simpl; [|lia].
  rewrite length_buf_write. simpl. lia.
Qed.
End Correctness.

Lemma escape_dq_count f :
  length (filter (λ b, b = DQ) (escape f)) = 2 * length (filter (λ b, b = DQ) f).
Proof.
  induction f as [|b f IH]; [done|]. simpl. rewrite filter_app, length_app, IH.
  unfold escape_byte. case_decide; rewrite !filter_cons; repeat case_decide; simpl; (done || lia).
Qed.

Lemma pass_spec_det p repl c c1 h1 c2 h2 :
  pass_spec p repl c c1 h1 → pass_spec p repl c c2 h2 → c1 = c2 ∧ h1 = h2.
Proof.
  destruct p; simpl.
  - intros (n1 & H1 & ->) (n2 & H2 & ->). by destruct (replaced_det _ _ _ _ _ _ _ H1 H2) as [-> ->].
  - intros [-> ->] [-> ->]. done.
Qed.

Lemma field_replaced_det cfg c f1 h1 f2 h2 :
  field_replaced cfg c f1 h1 → field_replaced cfg c f2 h2 → f1 = f2 ∧ h1 = h2.
Proof.
  intros (c1 & a1 & b1 & Ha1 & Hb1 & ->) (c2 & a2 & b2 & Ha2 & Hb2 & ->).
  destruct (pass_spec_det _ _ _ _ _ _ _ Ha1 Ha2) as [<- <-].
  by destruct (pass_spec_det _ _ _ _ _ _ _ Hb1 Hb2) as [<- <-].
Qed.

Lemma field_replaced_none cfg c f hit :
  r_replacement cfg = None → n_replacement cfg = None →
  field_replaced cfg c f hit → f = c ∧ hit = false.
Proof. intros Hr Hn (c1 & h1 & h2 & H1 & H2 & ->). rewrite Hr in H1. rewrite Hn in H2.
  destruct H1 as [-> ->], H2 as [-> ->]. done. Qed.

Section Claims.
Context {Out : Type} `{!Sink Out} `{HL : !SinkLaws Out}.
Implicit Types (st : conv_state Out).

(** What one completed call did, read from the abstract encoder. *)
Lemma convert_field_run cfg c st st' :
  patterns_ok cfg → st_buf st !!! 0 = DQ →
  convert_field cfg c (length c) st = Some st' →
  ∃ f hit, field_replaced cfg c f hit ∧
    let q := needs_quote (quote_style cfg) (st_buf st !!! 1) f hit in
    sink_bytes (st_out st') = sink_bytes (st_out st) ++ field_sep (st_start_of_line st) ++ csv_field q f ∧
    st_start_of_line st' = false ∧ st_buf st' !!! 0 = DQ ∧
    st_buf st' !!! 1 = stale_after (st_buf st !!! 1) f q.
Proof using HL.
  intros Hp H0 Hrun.
  destruct (convert_field_refines cfg c st Hp H0) as (f & hit & st'' & Hf & Hrun' & Habs & Hb0).
  rewrite Hrun in Hrun'. injection Hrun' as <-.
  exists f, hit. split; [done|].
  unfold abs, encode_field_spec in Habs. injection Habs as H1 H2 H3. done.
Qed.

(** A call with no replacement rule returns, and what it writes. *)
Lemma convert_field_plain_run cfg c st :
  r_replacement cfg = None → n_replacement cfg = None → st_buf st !!! 0 = DQ →
  ∃ st', convert_field cfg c (length c) st = Some st' ∧
    let q := needs_quote (quote_style cfg) (st_buf st !!! 1) c false in
    sink_bytes (st_out st') = sink_bytes (st_out st) ++ field_sep (st_start_of_line st) ++ csv_field q c ∧
    st_start_of_line st' = false ∧ st_buf st' !!! 0 = DQ ∧
    st_buf st' !!! 1 = stale_after (st_buf st !!! 1) c q.
Proof using HL.
  intros Hr Hn H0. assert (patterns_ok cfg) as Hp by (split; by rewrite ?Hr, ?Hn).
  destruct (convert_field_refines cfg c st Hp H0) as (f & hit & st' & _ & Hrun & _ & _).
  destruct (convert_field_run cfg c st st' Hp H0 Hrun) as (f' & hit' & Hf & Hrest).
  destruct (field_replaced_none cfg c f' hit' Hr Hn Hf) as [-> ->]. by exists st'.
Qed.

(** C3: for nonempty patterns [convert_field] returns; it writes the
    separator unless the field starts the line, then the replaced field
    [f] in CSV form (quoted exactly when [needs_quote] holds, inner
    quotes doubled), clears the line-start flag, keeps the quote in
    [buf[0]] and leaves in [buf[1]] the byte the next call reads. *)
Theorem convert_field_correct cfg c st :
  patterns_ok cfg → st_buf st !!! 0 = DQ →
  ∃ f hit st', field_replaced cfg c f hit ∧ convert_field cfg c (length c) st = Some st' ∧
    let q := needs_quote (quote_style cfg) (st_buf st !!! 1) f hit in
    sink_bytes (st_out st') = sink_bytes (st_out st) ++ field_sep (st_start_of_line st) ++ csv_field q f ∧
    st_start_of_line st' = false ∧ st_buf st' !!! 0 = DQ ∧
    st_buf st' !!! 1 = stale_after (st_buf st !!! 1) f q.
Proof using HL.
  intros Hp H0.
  destruct (convert_field_refines cfg c st Hp H0) as (f & hit & st' & _ & Hrun & _ & _).
  destruct (convert_field_run cfg c st st' Hp H0 Hrun) as (f' & hit' & Hf & Hrest).
  by exists f', hit', st'.
Qed.

(** C21: under the Minimum policy without replacement rules a field is
    written quoted exactly when it holds a double quote or a comma. *)
Theorem convert_field_minimum cfg c st :
  r_replacement cfg = None → n_replacement cfg = None → quote_style cfg = QS_MINIMUM →
  st_buf st !!! 0 = DQ →
  ∃ st', convert_field cfg c (length c) st = Some st' ∧
    sink_bytes (st_out st') =
      sink_bytes (st_out st) ++ field_sep (st_start_of_line st) ++
        csv_field (bool_decide (DQ ∈ c ∨ COMMA ∈ c)) c.
Proof using HL.
  intros Hr Hn Hqs H0.
  destruct (convert_field_plain_run cfg c st Hr Hn H0) as (st' & Hrun & Hout & _).
  exists st'. split; [done|]. rewrite Hout, Hqs. do 3 f_equal. unfold needs_quote. simpl.
  repeat case_bool_decide; naive_solver.
Qed.

(** C16: a field with a double quote is written quoted, every inner quote
    doubled: [n] quotes in the field become [2n + 2] in the output. *)
Theorem convert_field_escapes_quotes cfg c st :
  r_replacement cfg = None → n_replacement cfg = None →
  DQ ∈ c → st_buf st !!! 0 = DQ →
  ∃ st' out, convert_field cfg c (length c) st = Some st' ∧
    sink_bytes (st_out st') = sink_bytes (st_out st) ++ field_sep (st_start_of_line st) ++ out ∧
    out = [DQ] ++ escape c ++ [DQ] ∧
    length (filter (λ b, b = DQ) out) = 2 * length (filter (λ b, b = DQ) c) + 2.
Proof using HL.
  intros Hr Hn Hdq H0.
  destruct (convert_field_plain_run cfg c st Hr Hn H0) as (st' & Hrun & Hout & _).
  eexists st', _. split_and!; [done|exact Hout| |]; unfold needs_quote;
    rewrite (bool_decide_eq_true_2 (DQ ∈ c)) by done; [done|simpl].
  rewrite filter_app, filter_cons, length_app, escape_dq_count. simpl. lia.
Qed.

(** C25: under the Everything policy an empty field is written as two
    double quotes. *)
Theorem convert_field_empty_everything cfg st :
  r_replacement cfg = None → n_replacement cfg = None → quote_style cfg = QS_EVERYTHING →
  st_buf st !!! 0 = DQ →
  ∃ st', convert_field cfg [] 0 st = Some st' ∧
    sink_bytes (st_out st') = sink_bytes (st_out st) ++ field_sep (st_start_of_line st) ++ [DQ; DQ].
Proof using HL.
  intros Hr Hn Hqs H0.
  destruct (convert_field_plain_run cfg [] st Hr Hn H0) as (st' & Hrun & Hout & _).
  exists st'. split; [done|]. by rewrite Hout, Hqs.
Qed.

(** C26: under the BorderSpaces policy a nonempty field is written
    quoted exactly when its first or last byte is a space or a tab, or
    it holds a double quote or a comma. *)
Theorem convert_field_border_space cfg b rest st :
  r_replacement cfg = None → n_replacement cfg = None → quote_style cfg = QS_BORDER_SPACES →
  st_buf st !!! 0 = DQ →
  ∃ st', convert_field cfg (b :: rest) (length (b :: rest)) st = Some st' ∧
    sink_bytes (st_out st') =
      sink_bytes (st_out st) ++ field_sep (st_start_of_line st) ++
        csv_field (is_blank b || is_blank (default NUL (last (b :: rest))) ||
                   bool_decide (DQ ∈ b :: rest ∨ COMMA ∈ b :: rest)) (b :: rest).
Proof using HL.
  intros Hr Hn Hqs H0.
  destruct (convert_field_plain_run cfg (b :: rest) st Hr Hn H0) as (st' & Hrun & Hout & _).
  exists st'. split; [done|]. rewrite Hout, Hqs. do 3 f_equal. unfold needs_quote. simpl.
  destruct (is_blank b), (is_blank _); simpl; repeat case_bool_decide; naive_solver.
Qed.

(** C22: a field in which a replacement rule fired is written quoted,
    whatever the policy. *)
Theorem convert_field_replacement_quotes cfg c f st :
  patterns_ok cfg → field_replaced cfg c f true → st_buf st !!! 0 = DQ →
  ∃ st', convert_field cfg c (length c) st = Some st' ∧
    sink_bytes (st_out st') =
      sink_bytes (st_out st) ++ field_sep (st_start_of_line st) ++ [DQ] ++ escape f ++ [DQ].
Proof using HL.
  intros Hp Hf H0.
  destruct (convert_field_refines cfg c st Hp H0) as (f1 & hit1 & st' & _ & Hrun & _ & _).
  destruct (convert_field_run cfg c st st' Hp H0 Hrun) as (f' & hit & Hf' & Hout & _).
  destruct (field_replaced_det _ _ _ _ _ _ Hf Hf') as [<- <-].
  exists st'. split; [done|]. by rewrite Hout.
Qed.

(** C27: under the AllValues policy every nonempty field is written
    quoted and an empty field as nothing. *)
Theorem convert_field_all_values cfg c st :
  r_replacement cfg = None → n_replacement cfg = None → quote_style cfg = QS_ALL_VALUES →
  st_buf st !!! 0 = DQ →
  ∃ st', convert_field cfg c (length c) st = Some st' ∧
    sink_bytes (st_out st') =
      sink_bytes (st_out st) ++ field_sep (st_start_of_line st) ++
        (if decide (c = []) then [] else [DQ] ++ escape c ++ [DQ]).
Proof using HL.
  intros Hr Hn Hqs H0.
  destruct (convert_field_plain_run cfg c st Hr Hn H0) as (st' & Hrun & Hout & _).
  exists st'. split; [done|]. rewrite Hout, Hqs. unfold needs_quote. simpl.
  destruct c as [|b c]; [done|]. rewrite decide_False by done.
  by rewrite (bool_decide_eq_true_2 (b :: c ≠ [])), !orb_true_r by done.
Qed.

(** C28: under the AllSpaces policy a field is written quoted exactly
    when it holds a space, a tab, a double quote or a comma. *)
Theorem convert_field_all_spaces cfg c st :
  r_replacement cfg = None → n_replacement cfg = None → quote_style cfg = QS_ALL_SPACES →
  st_buf st !!! 0 = DQ →
  ∃ st', convert_field cfg c (length c) st = Some st' ∧
    sink_bytes (st_out st') =
      sink_bytes (st_out st) ++ field_sep (st_start_of_line st) ++
        csv_field (bool_decide (SP ∈ c ∨ TAB ∈ c ∨ DQ ∈ c ∨ COMMA ∈ c)) c.
Proof using HL.
  intros Hr Hn Hqs H0.
  destruct (convert_field_plain_run cfg c st Hr Hn H0) as (st' & Hrun & Hout & _).
  exists st'. split; [done|]. rewrite Hout, Hqs. do 3 f_equal. unfold needs_quote. simpl.
  assert (bool_decide (Exists (λ b, b ∈ [SP; TAB]) c) = bool_decide (SP ∈ c ∨ TAB ∈ c)) as ->.
  { apply bool_decide_ext. rewrite Exists_exists. set_solver. }
  repeat case_bool_decide; naive_solver.
Qed.

(** C29: the BorderSpaces test reads [buf[1]], which an empty field does
    not overwrite: an empty field that follows a field starting with a
    space or tab is quoted, though it has no border space. *)
Theorem convert_field_border_stale cfg b rest st :
  r_replacement cfg = None → n_replacement cfg = None → quote_style cfg = QS_BORDER_SPACES →
  is_blank b = true → st_buf st !!! 0 = DQ →
  ∃ st1 st2, convert_field cfg (b :: rest) (length (b :: rest)) st = Some st1 ∧
    convert_field cfg [] 0 st1 = Some st2 ∧
    sink_bytes (st_out st2) = sink_bytes (st_out st1) ++ [COMMA; DQ; DQ].
Proof using HL.
  intros Hr Hn Hqs Hb H0.
  destruct (convert_field_plain_run cfg (b :: rest) st Hr Hn H0) as (st1 & Hrun1 & _ & Hsol & Hb0 & Hb1).
  destruct (convert_field_plain_run cfg [] st1 Hr Hn Hb0) as (st2 & Hrun2 & Hout & _).
  exists st1, st2. split_and!; [done|done|].
  rewrite Hout, Hsol, Hb1, Hqs. simpl. unfold needs_quote. simpl. by rewrite Hb.
Qed.
End Claims.

(** ** Witnesses on concrete fields (unbuffered sink) *)

Lemma convert_field_correct_witness :
  ∃ f hit st', field_replaced (with_n_replacement b{"\n"} default_config) b{"x\ny"} f hit ∧
    convert_field (with_n_replacement b{"\n"} default_config) b{"x\ny"} (length b{"x\ny"})
      (init_state ([] : list byte)) = Some st'.
Proof.
  destruct (convert_field_correct (with_n_replacement b{"\n"} default_config) b{"x\ny"}
    (init_state ([] : list byte)) ltac:(decide_by_eval) eq_refl) as (f & hit & st' & Hf & Hrun & _).
  eauto.
Defined.

Lemma convert_field_minimum_witness :
  ∃ st', convert_field default_config b{"a b"} (length b{"a b"}) (init_state ([] : list byte)) = Some st' ∧
    sink_bytes (st_out st') = sink_bytes (st_out (init_state ([] : list byte))) ++ field_sep true ++
      csv_field (bool_decide (DQ ∈ b{"a b"} ∨ COMMA ∈ b{"a b"})) b{"a b"}.
Proof. apply (convert_field_minimum default_config b{"a b"} (init_state [])); reflexivity. Defined.

Lemma convert_field_escapes_quotes_witness :
  ∃ st' out, convert_field default_config [x61; DQ; x62] (length [x61; DQ; x62]) (init_state ([] : list byte)) = Some st' ∧
    sink_bytes (st_out st') = sink_bytes (st_out (init_state ([] : list byte))) ++ field_sep true ++ out ∧
    out = [DQ] ++ escape [x61; DQ; x62] ++ [DQ] ∧
    length (filter (λ b, b = DQ) out) = 2 * length (filter (λ b, b = DQ) [x61; DQ; x62]) + 2.
Proof.
  apply (convert_field_escapes_quotes default_config [x61; DQ; x62] (init_state [])); try reflexivity;
    decide_by_eval.
Defined.

Lemma convert_field_empty_everything_witness :
  ∃ st', convert_field (with_quote_style QS_EVERYTHING default_config) [] 0 (init_state ([] : list byte)) = Some st' ∧
    sink_bytes (st_out st') = sink_bytes (st_out (init_state ([] : list byte))) ++ field_sep true ++ [DQ; DQ].
Proof. apply (convert_field_empty_everything (with_quote_style QS_EVERYTHING default_config)); reflexivity. Defined.

Lemma convert_field_border_space_witness :
  ∃ st', convert_field (with_quote_style QS_BORDER_SPACES default_config) b{" x"} (length b{" x"})
      (init_state ([] : list byte)) = Some st' ∧
    sink_bytes (st_out st') =
      sink_bytes (st_out (init_state ([] : list byte))) ++ field_sep true ++
        csv_field (is_blank SP || is_blank (default NUL (last b{" x"})) ||
                   bool_decide (DQ ∈ b{" x"} ∨ COMMA ∈ b{" x"})) b{" x"}.
Proof. apply (convert_field_border_space (with_quote_style QS_BORDER_SPACES default_config) SP b{"x"}); reflexivity. Defined.

Lemma convert_field_replacement_quotes_witness :
  ∃ st', convert_field (with_n_replacement b{"\n"} default_config) b{"x\ny"} (length b{"x\ny"})
      (init_state ([] : list byte)) = Some st' ∧
    sink_bytes (st_out st') =
      sink_bytes (st_out (init_state ([] : list byte))) ++ field_sep true ++ [DQ] ++ escape [x78; LF; x79] ++ [DQ].
Proof.
  apply (convert_field_replacement_quotes (with_n_replacement b{"\n"} default_config) b{"x\ny"} [x78; LF; x79]); [decide_by_eval| |reflexivity].
  exists b{"x\ny"}, false, true. split_and!; [done| |done].
  exists 1. split; [|done].
  change b{"x\ny"} with ([x78] ++ b{"\n"} ++ [x79]).
  change [x78; LF; x79] with ([x78] ++ LF :: [x79]).
  apply replaced_hit.
  - intros [|j] Hj; [|simpl in Hj; lia]. by intros [? [=]].
  - constructor. intros [|[|j]] Hj; [by intros [? [=]]|by intros [? [=]]|simpl in Hj; lia].
Defined.

Lemma convert_field_all_values_witness :
  ∃ st', convert_field (with_quote_style QS_ALL_VALUES default_config) b{"7"} (length b{"7"})
      (init_state ([] : list byte)) = Some st' ∧
    sink_bytes (st_out st') = sink_bytes (st_out (init_state ([] : list byte))) ++ field_sep true ++
      (if decide (b{"7"} = []) then [] else [DQ] ++ escape b{"7"} ++ [DQ]).
Proof. apply (convert_field_all_values (with_quote_style QS_ALL_VALUES default_config)); reflexivity. Defined.

Lemma convert_field_all_spaces_witness :
  ∃ st', convert_field (with_quote_style QS_ALL_SPACES default_config) b{"a b"} (length b{"a b"})
      (init_state ([] : list byte)) = Some st' ∧
    sink_bytes (st_out st') = sink_bytes (st_out (init_state ([] : list byte))) ++ field_sep true ++
      csv_field (bool_decide (SP ∈ b{"a b"} ∨ TAB ∈ b{"a b"} ∨ DQ ∈ b{"a b"} ∨ COMMA ∈ b{"a b"})) b{"a b"}.
Proof. apply (convert_field_all_spaces (with_quote_style QS_ALL_SPACES default_config)); reflexivity. Defined.

Lemma convert_field_border_stale_witness :
  ∃ st1 st2, convert_field (with_quote_style QS_BORDER_SPACES default_config) b{" x"} (length b{" x"})
      (init_state ([] : list byte)) = Some st1 ∧
    convert_field (with_quote_style QS_BORDER_SPACES default_config) [] 0 st1 = Some st2 ∧
    sink_bytes (st_out st2) = sink_bytes (st_out st1) ++ [COMMA; DQ; DQ].
Proof. apply (convert_field_border_stale (with_quote_style QS_BORDER_SPACES default_config) SP b{"x"} (init_state [])); reflexivity. Defined.
