(* ===== verification/Line.v ===== *)
(** * The line splitter: [convert_line] (csv.c lines 198-239)

    The C loop keeps a pointer [cur] into the line; the model keeps the
    rest of the line from [cur] ([convert_line_loop]) and a fuel bound.
    Each iteration looks for the delimiter with [strchr]; failing that,
    for the first carriage return or line feed with [strpbrk], after
    which it writes the bytes from there to the end of the line verbatim
    and sets [start_of_line]; failing both, the rest is the last field.
    Writing a NUL over the delimiter or terminator and restoring it is
    the [take]/[drop] split of the rest: [convert_field] only writes
    inside the field, so the bytes from the terminator on are the ones
    read.  [None] means the loop runs past the end of the line (or a
    replacement pass does not terminate): it happens whenever the
    delimiter is NUL ([convert_line_nul_delimiter]) and never for a
    well-formed configuration ([convert_line_correct]).

    The specification [line_split] says how a line decomposes into
    fields and end-of-line bytes; [fields_encoded] runs the abstract
    field encoder of [Field] over the fields. *)

From S2P Require Import Prelude Config Replace Field.

(** ** The code *)

Section Splitter.
Context {Out : Type} `{!Sink Out}.

Fixpoint convert_line_loop (fuel : nat) (cfg : config) (cur : list byte)
    (st : conv_state Out) : option (conv_state Out) :=
  match fuel with
  | O => None
  | S fuel' =>
      match strchr cur (delimiter cfg) with
      | Some i =>
          st' ← convert_field cfg (take i cur) i st;
          convert_line_loop fuel' cfg (drop (S i) cur) st'
      | None =>
          match strpbrk cur [CR; LF] with
          | Some i =>
              st' ← convert_field cfg (take i cur) i st;
              Some (mk_state (st_buf st') true (write_string (drop i cur) (st_out st')))
          | None => convert_field cfg cur (length cur) st
          end
      end
  end.

(** The function always returns 0. *)
Definition convert_line (cfg : config) (line : list byte) (st : conv_state Out)
    : option (Z * conv_state Out) :=
  st' ← convert_line_loop (S (length line)) cfg line st;
  Some (0%Z, st').
End Splitter.

(** ** The specification *)

(** Fields joined by the delimiter. *)
Fixpoint join_fields (d : byte) (fs : list (list byte)) : list byte :=
  match fs with
  | [] => []
  | [f] => f
  | f :: fs' => f ++ d :: join_fields d fs'
  end.

Definition is_eol (b : byte) : Prop := b ∈ [CR; LF].

(** [line] is the fields [fs] separated by [d], followed by the
    end-of-line bytes [t]: none of the fields and not [t] contains the
    delimiter, the last field has no CR or LF, and [t] is empty or
    starts with one. *)
Definition line_split (d : byte) (line : list byte) (fs : list (list byte))
    (t : list byte) : Prop :=
  fs ≠ [] ∧ line = join_fields d fs ++ t ∧ Forall (λ f, d ∉ f) fs ∧ d ∉ t ∧
  Forall (λ b, ¬ is_eol b) (default [] (last fs)) ∧
  (t = [] ∨ ∃ b t', t = b :: t' ∧ is_eol b).

(** The abstract field encoder run over the fields of a line. *)
Inductive fields_encoded (cfg : config) : astate → list (list byte) → astate → Prop :=
  | fields_encoded_nil a : fields_encoded cfg a [] a
  | fields_encoded_cons a c f hit fs a' :
      field_replaced cfg c f hit →
      fields_encoded cfg (encode_field_spec (quote_style cfg) a f hit) fs a' →
      fields_encoded cfg a (c :: fs) a'.

(** The line: its fields, then the end-of-line bytes if there are any,
    which set the line-start flag. *)
Definition line_spec (cfg : config) (a : astate) (fs : list (list byte)) (t : list byte)
    (a' : astate) : Prop :=
  ∃ a1, fields_encoded cfg a fs a1 ∧
        a' = match t with
             | [] => a1
             | _ => mk_astate (a_stale a1) true (a_out a1 ++ t)
             end.

(** ** The splitter refines the specification *)

Lemma join_fields_cons d f fs : fs ≠ [] → join_fields d (f :: fs) = f ++ d :: join_fields d fs.
Proof. by destruct fs. Qed.

Lemma last_cons_ne {A} (x : A) l : l ≠ [] → last (x :: l) = last l.
Proof. by destruct l. Qed.

Lemma line_split_one d f t :
  d ∉ f → d ∉ t → Forall (λ b, ¬ is_eol b) f → (t = [] ∨ ∃ b t', t = b :: t' ∧ is_eol b) →
  line_split d (f ++ t) [f] t.
Proof. intros. split_and!; [done|done|by constructor|done|done|done]. Qed.

Section Refinement.
Context {Out : Type} `{!Sink Out} `{HL : !SinkLaws Out}.

Lemma convert_line_loop_refines cfg n cur (st : conv_state Out) :
  config_wf cfg → length cur < n → st_buf st !!! 0 = DQ →
  ∃ fs t st', line_split (delimiter cfg) cur fs t ∧ convert_line_loop n cfg cur st = Some st' ∧
    line_spec cfg (abs st) fs t (abs st') ∧ st_buf st' !!! 0 = DQ.
Proof using HL.
  intros [Hd Hp]. revert cur st. induction n as [|n IH]; intros cur st Hn H0; [lia|]. simpl.
  destruct (strchr cur (delimiter cfg)) as [i|] eqn:Hs.
  - destruct (strchr_Some _ _ _ Hd Hs) as (pre & post & -> & <- & Hpre).
    rewrite take_app_length, drop_S_split.
    destruct (convert_field_refines cfg pre st Hp H0) as (f & hit & st1 & Hf & Hrun & Habs & H1).
    rewrite Hrun. simpl. rewrite length_app in Hn. simpl in Hn.
    destruct (IH post st1 ltac:(lia) H1) as (fs & t & st' & Hsplit & Hloop & Hspec & H').
    destruct Hsplit as (Hne & -> & Hfs & Ht & Hlast & Htt).
    exists (pre :: fs), t, st'. split_and!; [|done| |done].
    + split_and!; [done| |by constructor|done| |done].
      * rewrite join_fields_cons by done. by rewrite <-app_assoc.
      * by rewrite last_cons_ne.
    + destruct Hspec as (a1 & Henc & ->). exists a1. split; [|done].
      econstructor; [done|]. by rewrite <-Habs.
  - pose proof (strchr_None _ _ Hd Hs) as Hnd.
    destruct (strpbrk cur [CR; LF]) as [i|] eqn:Hp2.
    + destruct (strpbrk_Some _ _ _ Hp2) as (pre & b & post & -> & <- & Hb & Hpre).
      rewrite take_app_length, drop_app_length.
      destruct (convert_field_refines cfg pre st Hp H0) as (f & hit & st1 & Hf & Hrun & Habs & H1).
      rewrite Hrun. simpl. eexists [pre], (b :: post), _. split_and!; [| done | |done].
      * apply line_split_one; [set_solver|set_solver|done|]. right. by exists b, post.
      * exists (abs st1). split.
        -- econstructor; [done|]. rewrite <-Habs. constructor.
        -- unfold abs. simpl. by autorewrite with uncsv_rw.
    + apply strpbrk_None in Hp2.
      destruct (convert_field_refines cfg cur st Hp H0) as (f & hit & st1 & Hf & Hrun & Habs & H1).
      exists [cur], [], st1. split_and!; [|done| |done].
      * rewrite <-(app_nil_r cur) at 1. apply line_split_one; [done|set_solver|done|by left].
      * exists (abs st1). split; [|done]. econstructor; [done|]. rewrite <-Habs. constructor.
Qed.

(** The scratch array grows at most to [2 * length cur + 2] bytes. *)
Lemma convert_line_loop_buf cfg n cur (st st' : conv_state Out) :
  config_wf cfg → st_buf st !!! 0 = DQ → convert_line_loop n cfg cur st = Some st' →
  length (st_buf st') ≤ Nat.max (length (st_buf st)) (2 * length cur + 2).
Proof using HL.
  intros [Hd Hp]. revert cur st. induction n as [|n IH]; intros cur st H0; [done|]. simpl.
  destruct (strchr cur (delimiter cfg)) as [i|] eqn:Hs.
  - destruct (strchr_Some _ _ _ Hd Hs) as (pre & post & -> & <- & Hpre).
    rewrite take_app_length, drop_S_split.
    destruct (convert_field_refines cfg pre st Hp H0) as (f & hit & st1 & _ & Hrun & _ & H1).
    pose proof (convert_field_buf_length cfg pre st st1 Hp H0 Hrun).
    rewrite Hrun. simpl. intros Hloop%IH; [|done]. rewrite length_app. simpl. lia.
  - destruct (strpbrk cur [CR; LF]) as [i|] eqn:Hp2.
    + destruct (strpbrk_Some _ _ _ Hp2) as (pre & b & post & -> & <- & Hb & Hpre).
      rewrite take_app_length.
      destruct (convert_field_refines cfg pre st Hp H0) as (f & hit & st1 & _ & Hrun & _ & H1).
      pose proof (convert_field_buf_length cfg pre st st1 Hp H0 Hrun).
      rewrite Hrun. intros [= <-]. simpl. rewrite length_app. simpl. lia.
    + intros Hrun. by apply (convert_field_buf_length cfg cur st st' Hp H0).
Qed.

Lemma convert_line_buf cfg line (st st' : conv_state Out) r :
  config_wf cfg → st_buf st !!! 0 = DQ → convert_line cfg line st = Some (r, st') →
  length (st_buf st') ≤ Nat.max (length (st_buf st)) (2 * length line + 2).
Proof using HL.
  intros Hwf H0. unfold convert_line.
  destruct (convert_line_loop _ _ _ _) as [st1|] eqn:Hloop; [|done].
  intros [= _ <-]. by apply (convert_line_loop_buf cfg (S (length line)) line st).
Qed.
End Refinement.

(** ** The decomposition of a line is unique *)

Lemma not_elem_Forall (d : byte) f : d ∉ f → Forall (λ b, ¬ b = d) f.
Proof. intros Hd. apply Forall_forall. intros b Hb ->. contradiction. Qed.

Lemma line_split_more d line f fs t :
  fs ≠ [] → line_split d line (f :: fs) t →
  ∃ r, line = f ++ d :: r ∧ d ∉ f ∧ line_split d r fs t.
Proof.
  intros Hne (_ & -> & Hfs & Ht & Hlast & Htt). inversion Hfs; subst.
  exists (join_fields d fs ++ t). rewrite join_fields_cons, <-app_assoc by done.
  split_and!; [done|done|]. unfold line_split.
  split_and!; [done|done|done|done| |done]. by rewrite last_cons_ne in Hlast.
Qed.

Lemma line_split_last d line f t :
  line_split d line [f] t → line = f ++ t ∧ d ∉ line ∧ Forall (λ b, ¬ is_eol b) f ∧
    (t = [] ∨ ∃ b t', t = b :: t' ∧ is_eol b).
Proof. intros (_ & -> & Hfs & Ht & Hlast & Htt). inversion Hfs; subst. set_solver. Qed.

Lemma line_split_det d line fs1 t1 fs2 t2 :
  line_split d line fs1 t1 → line_split d line fs2 t2 → fs1 = fs2 ∧ t1 = t2.
Proof.
  revert line fs2. induction fs1 as [|f1 fs1 IH]; intros line fs2 H1 H2;
    [by destruct H1|].
  destruct fs2 as [|f2 fs2]; [by destruct H2|].
  destruct (decide (fs1 = [])) as [->|Hne1], (decide (fs2 = [])) as [->|Hne2].
  - destruct (line_split_last _ _ _ _ H1) as (-> & _ & Hf1 & Ht1).
    destruct (line_split_last _ _ _ _ H2) as (Heq & _ & Hf2 & Ht2).
    destruct Ht1 as [->|(b1 & t1' & -> & Hb1)], Ht2 as [->|(b2 & t2' & -> & Hb2)].
    + rewrite !app_nil_r in Heq. by subst.
    + exfalso. rewrite app_nil_r in Heq. subst f1.
      rewrite Forall_app, Forall_cons in Hf1. naive_solver.
    + exfalso. rewrite app_nil_r in Heq. subst f2.
      rewrite Forall_app, Forall_cons in Hf2. naive_solver.
    + destruct (first_split_unique is_eol _ _ _ _ _ _ Heq Hf1 Hb1 Hf2 Hb2) as (-> & -> & ->).
      done.
  - exfalso. destruct (line_split_last _ _ _ _ H1) as (_ & Hd & _).
    destruct (line_split_more _ _ _ _ _ Hne2 H2) as (r & -> & _). set_solver.
  - exfalso. destruct (line_split_last _ _ _ _ H2) as (_ & Hd & _).
    destruct (line_split_more _ _ _ _ _ Hne1 H1) as (r & -> & _). set_solver.
  - destruct (line_split_more _ _ _ _ _ Hne1 H1) as (r1 & -> & Hd1 & Hs1).
    destruct (line_split_more _ _ _ _ _ Hne2 H2) as (r2 & Heq & Hd2 & Hs2).
    destruct (first_split_unique (λ b, b = d) _ _ _ _ _ _ Heq
      (not_elem_Forall _ _ Hd1) eq_refl (not_elem_Forall _ _ Hd2) eq_refl) as (-> & _ & ->).
    destruct (IH _ _ Hs1 Hs2) as [-> ->]. done.
Qed.

(** ** Facts on the abstract run over a line *)

Lemma fields_encoded_sol cfg a fs a' :
  fs ≠ [] → fields_encoded cfg a fs a' → a_sol a' = false.
Proof.
  intros Hne H. induction H as [|a c f hit fs a' _ Henc IH]; [done|].
  destruct fs; [by inversion Henc|]. by apply IH.
Qed.

(** Plain fields under the Minimum policy are written as they are,
    separated by commas. *)
Lemma fields_encoded_plain cfg a fs a' :
  r_replacement cfg = None → n_replacement cfg = None → quote_style cfg = QS_MINIMUM →
  Forall (λ f, DQ ∉ f ∧ COMMA ∉ f) fs → fs ≠ [] →
  fields_encoded cfg a fs a' →
  a_out a' = a_out a ++ field_sep (a_sol a) ++ join_fields COMMA fs.
Proof.
  intros Hr Hn Hqs Hfs Hne H. induction H as [|a c f hit fs a' Hf Henc IH]; [done|].
  destruct (field_replaced_none cfg c f hit Hr Hn Hf) as [-> ->].
  inversion Hfs as [|? ? [Hdq Hc] Hfs']; subst.
  assert (csv_field (needs_quote (quote_style cfg) (a_stale a) c false) c = c) as Hcsv.
  { rewrite Hqs. unfold needs_quote. simpl.
    rewrite !bool_decide_eq_false_2 by done. simpl. by apply escape_no_dq. }
  destruct fs as [|c' fs].
  - inversion Henc; subst. simpl. by rewrite Hcsv.
  - rewrite IH by done. unfold encode_field_spec. cbn [a_out a_sol]. rewrite Hcsv.
    rewrite (join_fields_cons _ c (c' :: fs)) by done. unfold field_sep.
    by rewrite <-!app_assoc.
Qed.

Lemma join_fields_elem d fs f b : f ∈ fs → b ∈ f → b ∈ join_fields d fs.
Proof.
  induction fs as [|g fs IH]; [set_solver|]. intros Hf Hb.
  destruct (decide (fs = [])) as [->|Hne]; [set_solver|].
  rewrite join_fields_cons by done. apply elem_of_cons in Hf as [->|Hf]; set_solver.
Qed.

(** A line that the default settings copy: its abstract run appends it. *)
Lemma line_spec_plain cfg line fs t a a' :
  delimiter cfg = COMMA → quote_style cfg = QS_MINIMUM →
  r_replacement cfg = None → n_replacement cfg = None →
  DQ ∉ line → a_sol a = true → line_split COMMA line fs t → line_spec cfg a fs t a' →
  a_out a' = a_out a ++ line ∧ a_sol a' = bool_decide (t ≠ []).
Proof.
  intros Hd Hqs Hr Hn Hdq Hsol Hsplit (a1 & Henc & Habs).
  destruct Hsplit as (Hne & Hline & Hfs & Ht & _ & _).
  assert (a_out a1 = a_out a ++ field_sep (a_sol a) ++ join_fields COMMA fs) as Ha1.
  { apply (fields_encoded_plain cfg); [done..| |done|done].
    apply Forall_forall. intros f Hf. rewrite Forall_forall in Hfs.
    split; [|by apply Hfs]. intros Hq. apply Hdq. rewrite Hline.
    apply elem_of_app. left. by apply (join_fields_elem _ _ f). }
  rewrite Hsol in Ha1. pose proof (fields_encoded_sol cfg _ _ _ Hne Henc) as Hsol1.
  subst a'. rewrite Hline. destruct t; simpl; rewrite Ha1; simpl;
    (split; [by rewrite ?app_nil_r, <-?app_assoc|done]).
Qed.

(** The bytes written only grow, and the first field of a line starts
    with the separator the line-start flag asks for. *)
Lemma fields_encoded_mono cfg a fs a' :
  fields_encoded cfg a fs a' → a_out a `prefix_of` a_out a'.
Proof.
  induction 1 as [|a c f hit fs a' _ _ IH]; [done|].
  etrans; [|exact IH]. simpl. by apply prefix_app_r.
Qed.

Lemma line_spec_first cfg a f fs t a' :
  line_spec cfg a (f :: fs) t a' → (a_out a ++ field_sep (a_sol a)) `prefix_of` a_out a'.
Proof.
  intros (a1 & Henc & ->). inversion Henc as [|? ? f' hit ? ? _ Hrest]; subst.
  apply fields_encoded_mono in Hrest. simpl in Hrest.
  assert ((a_out a ++ field_sep (a_sol a)) `prefix_of` a_out a1) as Hp.
  { etrans; [|exact Hrest]. rewrite (app_assoc (a_out a)). by apply prefix_app_r. }
  destruct t; [done|]. simpl. by apply prefix_app_r.
Qed.

Lemma line_spec_mono cfg a fs t a' :
  line_spec cfg a fs t a' → a_out a `prefix_of` a_out a'.
Proof.
  intros (a1 & Henc & ->). apply fields_encoded_mono in Henc.
  destruct t; [done|]. simpl. by apply prefix_app_r.
Qed.

Lemma join_fields_snoc d fs :
  fs ≠ [] → ∃ p, join_fields d fs = p ++ default [] (last fs) ∧ (p = [] ∨ ∃ p', p = p' ++ [d]).
Proof.
  induction fs as [|f fs IH]; intros Hne; [done|].
  destruct (decide (fs = [])) as [->|Hne'].
  - exists []. split; [done|by left].
  - destruct (IH Hne') as (p & Hj & Hp). rewrite join_fields_cons, last_cons_ne, Hj by done.
    exists (f ++ d :: p). split; [by rewrite <-app_assoc|right].
    destruct Hp as [->|(p' & ->)]; [by exists f|]. exists (f ++ d :: p'). by rewrite <-app_assoc.
Qed.

(** A line ending in a line feed has end-of-line bytes, unless the line
    feed is the delimiter. *)
Lemma line_split_eol_nonempty d line fs t l' :
  d ≠ LF → line = l' ++ [LF] → line_split d line fs t → t ≠ [].
Proof.
  intros Hd -> (Hne & Hline & _ & _ & Hlast & _) ->. rewrite app_nil_r in Hline.
  destruct (join_fields_snoc d fs Hne) as (p & Hj & Hp). rewrite Hj in Hline.
  destruct (default [] (last fs)) as [|z f _] using rev_ind.
  - rewrite app_nil_r in Hline. destruct Hp as [->|(p' & ->)].
    + by destruct l'.
    + by apply app_inj_tail in Hline as [_ ?].
  - rewrite app_assoc in Hline. apply app_inj_tail in Hline as [_ Hz]. subst z.
    rewrite Forall_app, Forall_singleton in Hlast. destruct Hlast as [_ Hlf]. apply Hlf.
    unfold is_eol. set_solver.
Qed.

Section Claims.
Context {Out : Type} `{!Sink Out} `{HL : !SinkLaws Out}.
Implicit Types (st : conv_state Out).

(** What one completed call did. *)
Lemma convert_line_run cfg line st r st' :
  config_wf cfg → st_buf st !!! 0 = DQ → convert_line cfg line st = Some (r, st') →
  r = 0%Z ∧ ∃ fs t, line_split (delimiter cfg) line fs t ∧
    line_spec cfg (abs st) fs t (abs st') ∧ st_buf st' !!! 0 = DQ.
Proof using HL.
  intros Hwf H0 Hrun.
  destruct (convert_line_loop_refines cfg (S (length line)) line st Hwf ltac:(lia) H0)
    as (fs & t & st'' & Hsplit & Hloop & Hspec & H').
  unfold convert_line in Hrun. rewrite Hloop in Hrun. injection Hrun as <- <-.
  split; [done|]. by exists fs, t.
Qed.

Lemma convert_line_some cfg line st :
  config_wf cfg → st_buf st !!! 0 = DQ → ∃ st', convert_line cfg line st = Some (0%Z, st').
Proof using HL.
  intros Hwf H0.
  destruct (convert_line_loop_refines cfg (S (length line)) line st Hwf ltac:(lia) H0)
    as (fs & t & st' & _ & Hloop & _).
  exists st'. unfold convert_line. by rewrite Hloop.
Qed.

(** C2: for a well-formed configuration [convert_line] returns 0 and
    converts the line as its decomposition into fields and end-of-line
    bytes says: each field through the field encoder, then the
    end-of-line bytes, which set the line-start flag. *)
Theorem convert_line_correct cfg line st :
  config_wf cfg → st_buf st !!! 0 = DQ →
  ∃ fs t st', line_split (delimiter cfg) line fs t ∧
    convert_line cfg line st = Some (0%Z, st') ∧
    line_spec cfg (abs st) fs t (abs st') ∧ st_buf st' !!! 0 = DQ.
Proof using HL.
  intros Hwf H0.
  destruct (convert_line_loop_refines cfg (S (length line)) line st Hwf ltac:(lia) H0)
    as (fs & t & st' & Hsplit & Hloop & Hspec & H').
  exists fs, t, st'. unfold convert_line. by rewrite Hloop.
Qed.

(** C15: with the default settings (comma, Minimum, no replacement) a
    line without double quotes that starts a line of output is copied
    unchanged, separators and end-of-line bytes included. *)
Theorem convert_line_identity cfg line st :
  delimiter cfg = COMMA → quote_style cfg = QS_MINIMUM →
  r_replacement cfg = None → n_replacement cfg = None →
  DQ ∉ line → st_start_of_line st = true → st_buf st !!! 0 = DQ →
  ∃ st', convert_line cfg line st = Some (0%Z, st') ∧
    sink_bytes (st_out st') = sink_bytes (st_out st) ++ line.
Proof using HL.
  intros Hd Hqs Hr Hn Hdq Hsol H0.
  assert (config_wf cfg) as Hwf by (split; [by rewrite Hd|by split; rewrite ?Hr, ?Hn]).
  destruct (convert_line_some cfg line st Hwf H0) as (st' & Hrun).
  destruct (convert_line_run cfg line st 0%Z st' Hwf H0 Hrun) as (_ & fs & t & Hsplit & Hspec & _).
  exists st'. split; [done|]. rewrite Hd in Hsplit.
  by destruct (line_spec_plain cfg line fs t (abs st) (abs st') Hd Hqs Hr Hn Hdq Hsol Hsplit Hspec).
Qed.

(** C17: the end-of-line bytes of the line ([\n], [\r\n], a bare [\r],
    or none) end the output unchanged, and the line-start flag is set
    exactly when there were some. *)
Theorem convert_line_eol cfg line fs t st :
  config_wf cfg → st_buf st !!! 0 = DQ → line_split (delimiter cfg) line fs t →
  ∃ st', convert_line cfg line st = Some (0%Z, st') ∧
    t `suffix_of` sink_bytes (st_out st') ∧ st_start_of_line st' = bool_decide (t ≠ []).
Proof using HL.
  intros Hwf H0 Hsplit.
  destruct (convert_line_some cfg line st Hwf H0) as (st' & Hrun).
  destruct (convert_line_run cfg line st 0%Z st' Hwf H0 Hrun)
    as (_ & fs' & t' & Hsplit' & (a1 & Henc & Habs) & _).
  destruct (line_split_det _ _ _ _ _ _ Hsplit Hsplit') as [<- <-].
  pose proof (fields_encoded_sol cfg _ fs a1 (proj1 Hsplit) Henc) as Hsol1.
  pose proof (f_equal a_out Habs) as Hout. pose proof (f_equal a_sol Habs) as Hsol.
  simpl in Hout, Hsol. exists st'. split; [done|]. destruct t as [|b t].
  - split; [apply suffix_nil|]. by rewrite Hsol, Hsol1.
  - split; [rewrite Hout; by eexists|]. by rewrite Hsol.
Qed.

(** C34: a delimiter equal to NUL makes the loop step past the end of
    the line: the model never returns (the C code reads past the
    string). *)
Theorem convert_line_nul_delimiter cfg line st :
  delimiter cfg = NUL → patterns_ok cfg → st_buf st !!! 0 = DQ →
  convert_line cfg line st = None.
Proof using HL.
  intros Hd Hp H0. unfold convert_line.
  cut (∀ n cur st, st_buf st !!! 0 = DQ → convert_line_loop n cfg cur st = None);
    [intros ->; done|].
  clear line st H0. intros n. induction n as [|n IH]; intros cur st H0; [done|].
  simpl. unfold strchr at 1. rewrite Hd, decide_True by done.
  rewrite firstn_all.
  destruct (convert_field_refines cfg cur st Hp H0) as (f & hit & st1 & _ & -> & _ & H1).
  simpl. by apply IH.
Qed.

(** C33: a carriage return that follows the last delimiter ends the
    line for the splitter: the field before it is encoded under the
    configured policy, and every byte from the carriage return to the
    end of the line is written raw, double quotes and commas included,
    whatever the policy. *)
Theorem convert_line_bare_cr cfg f r st :
  config_wf cfg → st_buf st !!! 0 = DQ →
  delimiter cfg ∉ f → delimiter cfg ∉ CR :: r → Forall (λ b, ¬ is_eol b) f →
  ∃ f' hit st', field_replaced cfg f f' hit ∧
    convert_line cfg (f ++ CR :: r) st = Some (0%Z, st') ∧
    sink_bytes (st_out st') = sink_bytes (st_out st) ++ field_sep (st_start_of_line st) ++
      csv_field (needs_quote (quote_style cfg) (st_buf st !!! 1) f' hit) f' ++ CR :: r ∧
    st_start_of_line st' = true.
Proof using HL.
  intros Hwf H0 Hf Ht Hfe.
  destruct (convert_line_some cfg (f ++ CR :: r) st Hwf H0) as (st' & Hrun).
  destruct (convert_line_run cfg _ st _ st' Hwf H0 Hrun) as (_ & fs & t & Hs & (a1 & Henc & Habs) & _).
  assert (line_split (delimiter cfg) (f ++ CR :: r) [f] (CR :: r)) as Hs1.
  { apply line_split_one; [done..|]. right. exists CR, r. split; [done|]. unfold is_eol. set_solver. }
  destruct (line_split_det _ _ _ _ _ _ Hs Hs1) as [-> ->].
  inversion Henc as [|? ? f' hit ? ? Hrep Hnil]; subst. inversion Hnil; subst.
  exists f', hit, st'. split_and!; [done|done| |].
  - apply (f_equal a_out) in Habs. cbn [abs a_out encode_field_spec a_sol a_stale] in Habs.
    rewrite Habs. by rewrite <-!app_assoc.
  - by apply (f_equal a_sol) in Habs.
Qed.
End Claims.

(** ** Witnesses *)

Lemma convert_line_correct_witness :
  ∃ fs t st', line_split COMMA b{"1,2,3"} fs t ∧
    convert_line default_config b{"1,2,3"} (init_state ([] : list byte)) = Some (0%Z, st').
Proof.
  destruct (convert_line_correct default_config b{"1,2,3"} (init_state ([] : list byte))
    ltac:(decide_by_eval) eq_refl) as (fs & t & st' & Hs & Hrun & _).
  eauto.
Defined.

Lemma convert_line_identity_witness :
  ∃ st', convert_line default_config (b{"1,2,3"} ++ [LF]) (init_state ([] : list byte)) = Some (0%Z, st') ∧
    sink_bytes (st_out st') = sink_bytes (st_out (init_state ([] : list byte))) ++ b{"1,2,3"} ++ [LF].
Proof.
  apply (convert_line_identity default_config (b{"1,2,3"} ++ [LF]) (init_state []));
    try reflexivity.
  decide_by_eval.
Defined.

Lemma convert_line_eol_witness :
  ∃ st', convert_line default_config (b{"a,b"} ++ [CR; LF]) (init_state ([] : list byte)) = Some (0%Z, st') ∧
    [CR; LF] `suffix_of` sink_bytes (st_out st') ∧ st_start_of_line st' = bool_decide ([CR; LF] ≠ []).
Proof.
  apply (convert_line_eol default_config (b{"a,b"} ++ [CR; LF]) [b{"a"}; b{"b"}] [CR; LF]
    (init_state [])); [decide_by_eval|reflexivity|].
  split_and!; [done|reflexivity|decide_by_eval|decide_by_eval|decide_by_eval|].
  right. exists CR, [LF]. split; [done|]. unfold is_eol. set_solver.
Defined.

Lemma convert_line_nul_delimiter_witness :
  convert_line (with_delimiter NUL default_config) b{"a"} (init_state ([] : list byte)) = None.
Proof. apply convert_line_nul_delimiter; [reflexivity|decide_by_eval|reflexivity]. Defined.

Lemma convert_line_bare_cr_witness :
  let cfg := with_delimiter TAB default_config in
  ∃ f' hit st', field_replaced cfg b{"a"} f' hit ∧
    convert_line cfg (b{"a"} ++ CR :: [DQ] ++ b{"b,c"}) (init_state ([] : list byte)) = Some (0%Z, st') ∧
    sink_bytes (st_out st') = sink_bytes (st_out (init_state ([] : list byte))) ++
      field_sep (st_start_of_line (init_state ([] : list byte))) ++
      csv_field (needs_quote (quote_style cfg) (st_buf (init_state ([] : list byte)) !!! 1) f' hit) f' ++
      CR :: [DQ] ++ b{"b,c"} ∧
    st_start_of_line st' = true.
Proof.
  intros cfg. apply convert_line_bare_cr; [decide_by_eval|reflexivity|decide_by_eval|decide_by_eval|
    decide_by_eval].
Defined.
