(* ===== verification/Driver.v ===== *)
(** * The line driver: [convert_from_fp] (csv.c lines 247-273)

    The input stream is a [file]: the bytes still to be read, whether the
    device reports a read error once they are exhausted ([f_fail],
    instead of end of file), and the two indicators [feof] and [ferror]
    read.  [fgets] is the C library function: it reads at most [n - 1]
    bytes, stops after a line feed, returns [NULL] when it read nothing
    before the end, and on a read error returns [NULL] whatever it read.
    The bytes it stored are seen by [convert_line] as a C string, so a
    NUL byte ends the line there ([cstring]).

    [convert_from_fp_loop] is the [for (;;)] loop with fuel; its state
    is the stream, the array [line] (which keeps its contents across
    iterations), the line number and the conversion state.  The outcome
    is the function's return value or the exit status of [errx].  The
    same iteration as a step relation, with its invariant, termination
    and liveness, is in [Loop].  [usage] (csv.c lines 47-53) is here
    too: the synopsis it prints and the status it exits with. *)

From S2P Require Import Prelude Config Replace Field Line.

(** ** The code *)

Record file := mk_file {
  f_data : list byte;
  f_fail : bool;
  f_eof : bool;
  f_err : bool;
}.

(** The bytes one [fgets] call takes: at most [k], up to and including
    the first line feed. *)
Fixpoint fgets_chunk (k : nat) (data : list byte) : list byte :=
  match k, data with
  | O, _ => []
  | _, [] => []
  | S k', b :: data' => b :: (if decide (b = LF) then [] else fgets_chunk k' data')
  end.

(** [fgets(line, n, fp)]. *)
Definition fgets (n : nat) (fp : file) : option (list byte) * file :=
  let chunk := fgets_chunk (n - 1) (f_data fp) in
  let rest := drop (length chunk) (f_data fp) in
  let hit_end := bool_decide (rest = [] ∧ last chunk ≠ Some LF ∧ length chunk < n - 1) in
  if hit_end then
    if f_fail fp then (None, mk_file [] true (f_eof fp) true)
    else if decide (chunk = []) then (None, mk_file [] false true (f_err fp))
    else (Some chunk, mk_file [] false true (f_err fp))
  else (Some chunk, mk_file rest (f_fail fp) (f_eof fp) (f_err fp)).

Inductive outcome := Returned (z : Z) | Exited (z : Z).

Section DriverCode.
Context {Out : Type} `{!Sink Out}.

Definition flush_state (st : conv_state Out) : conv_state Out :=
  mk_state (st_buf st) (st_start_of_line st) (flush_output (st_out st)).

Fixpoint convert_from_fp_loop (fuel n : nat) (cfg : config) (fp : file)
    (line : list byte) (lineno : nat) (st : conv_state Out)
    : option (outcome * conv_state Out) :=
  match fuel with
  | O => None
  | S fuel' =>
      let '(res, fp') := fgets n fp in
      let convert (line : list byte) :=
        '(retcode, st') ← convert_line cfg (cstring line) st;
        if decide (retcode ≠ 0%Z) then Some (Exited 100, st')
        else convert_from_fp_loop fuel' n cfg fp' line (S lineno) st' in
      match res with
      | None =>
          if f_err fp' then Some (Returned (-1)%Z, st)
          else if f_eof fp' then Some (Returned 0%Z, flush_state st)
          else convert line
      | Some l => convert l
      end
  end.

(** [convert_from_fp] with [line] of [n] bytes; the program has
    [n = MAXLINELEN].  The array starts with unspecified contents. *)
Definition convert_from_fp_n (n : nat) (cfg : config) (fp : file) (st : conv_state Out)
    : option (outcome * conv_state Out) :=
  convert_from_fp_loop (S (S (length (f_data fp)))) n cfg fp [] 1 st.

Definition convert_from_fp (cfg : config) (fp : file) (st : conv_state Out)
    : option (outcome * conv_state Out) :=
  convert_from_fp_n MAXLINELEN cfg fp st.
End DriverCode.

(** A stream that has not been read yet. *)
Definition open_file (data : list byte) (fail : bool) : file := mk_file data fail false false.

(** [usage]: the synopsis [printf] writes (the two string literals of
    csv.c lines 50-51, concatenated), then [exit(100)]. *)
Definition usage_message : list byte :=
  b{"usage: csv [-VhsSqQ] [-d delimiter] [-r repl] [-n repl] "} ++ b{"[file ...]"} ++ [LF].

Definition usage : list byte * outcome := (usage_message, Exited 100).

(** ** The specification *)

(** One chunk [fgets] returns from the stream [c ++ rest]: a line up to
    its line feed, or [k] bytes without one, or the last bytes. *)
Definition chunk_ok (k : nat) (c rest : list byte) : Prop :=
  c ≠ [] ∧ length c ≤ k ∧
  ((∃ c', c = c' ++ [LF] ∧ LF ∉ c') ∨ (LF ∉ c ∧ (length c = k ∨ rest = []))).

(** The stream cut into the chunks that successive calls return. *)
Inductive chunked (k : nat) : list byte → list (list byte) → Prop :=
  | chunked_nil : chunked k [] []
  | chunked_cons c rest cs :
      chunk_ok k c rest → chunked k rest cs → chunked k (c ++ rest) (c :: cs).

(** Each chunk converted as a line, up to its first NUL. *)
Inductive stream_spec (cfg : config) : astate → list (list byte) → astate → Prop :=
  | stream_spec_nil a : stream_spec cfg a [] a
  | stream_spec_cons a l fs t a1 ls a' :
      line_split (delimiter cfg) (cstring l) fs t → line_spec cfg a fs t a1 →
      stream_spec cfg a1 ls a' → stream_spec cfg a (l :: ls) a'.

(** Lines that each end in their only line feed and fit in [k] bytes:
    [fgets] returns them one by one. *)
Definition lf_line (k : nat) (l : list byte) : Prop :=
  ∃ l', l = l' ++ [LF] ∧ LF ∉ l' ∧ length l ≤ k.

(** Lines the default settings copy, each ending in a line feed. *)
Definition plain_line (k : nat) (l : list byte) : Prop :=
  ∃ l', l = l' ++ [LF] ∧ LF ∉ l' ∧ NUL ∉ l' ∧ DQ ∉ l' ∧ length l ≤ k.

Section Result.
Context {Out : Type} `{!Sink Out}.

(** What a run of the loop from state [st] on the stream [data] gives:
    the chunks it converted and the partial chunk a read error lost. *)
Definition fp_result (n : nat) (cfg : config) (data : list byte) (st : conv_state Out) (fail : bool)
    (res : option (outcome * conv_state Out)) : Prop :=
  ∃ cs lost r st', chunked (n - 1) data (cs ++ lost) ∧ res = Some (Returned r, st') ∧
    stream_spec cfg (abs st) cs (abs st') ∧ st_buf st' !!! 0 = DQ ∧
    (if fail then r = (-1)%Z ∧ length lost ≤ 1
     else r = 0%Z ∧ lost = [] ∧ sink_delivered (st_out st') = sink_bytes (st_out st')).

End Result.

(** ** Lemmas on [fgets] *)

Lemma fgets_chunk_spec k data :
  1 ≤ k → data ≠ [] →
  let c := fgets_chunk k data in
  c ≠ [] ∧ c `prefix_of` data ∧ length c ≤ k ∧
  ((∃ c', c = c' ++ [LF] ∧ LF ∉ c') ∨ (LF ∉ c ∧ (length c = k ∨ c = data))).
Proof.
  revert k. induction data as [|b data IH]; intros k Hk Hne; [done|].
  destruct k as [|k]; [lia|]. simpl. case_decide as Hb.
  - subst. split_and!; [done|by apply prefix_cons, prefix_nil|simpl; lia|].
    left. exists []. split; [done|set_solver].
  - destruct (decide (k = 0)) as [->|Hk0].
    + split_and!; [done|by apply prefix_cons, prefix_nil|simpl; lia|].
      right. split; [set_solver|by left].
    + destruct (decide (data = [])) as [->|Hd].
      * destruct k; [lia|]. simpl. split_and!; [done|done|simpl; lia|].
        right. split; [set_solver|by right].
      * destruct (IH k ltac:(lia) Hd) as (Hne' & Hpre & Hlen & Halt).
        split_and!; [done|by apply prefix_cons|simpl; lia|].
        destruct Halt as [(c' & Hc & Hc')|(Hc & [Hl|Hl])].
        -- left. exists (b :: c'). rewrite Hc. split; [done|set_solver].
        -- right. split; [set_solver|left; simpl; lia].
        -- right. split; [set_solver|right; by f_equal].
Qed.

Lemma chunk_ok_of_fgets k data rest :
  1 ≤ k → data ≠ [] → rest = drop (length (fgets_chunk k data)) data →
  chunk_ok k (fgets_chunk k data) rest ∧ data = fgets_chunk k data ++ rest.
Proof.
  intros Hk Hne ->. destruct (fgets_chunk_spec k data Hk Hne) as (Hc & [p Hp] & Hlen & Halt).
  assert (drop (length (fgets_chunk k data)) data = p) as Hd
    by (rewrite Hp at 2; by rewrite drop_app_length).
  rewrite Hd. split; [|done]. split_and!; [done|done|].
  destruct Halt as [?|(Hc' & [Hl|Hl])]; [by left|right; by auto|].
  right. split; [done|right]. rewrite Hl in Hp. rewrite <-(app_nil_r data) in Hp at 1.
  by apply app_inv_head in Hp.
Qed.

Lemma fgets_chunk_nil k : fgets_chunk k [] = [].
Proof. by destruct k. Qed.

Lemma fgets_chunk_length k data : length (fgets_chunk k data) ≤ k.
Proof.
  revert k. induction data as [|b data IH]; intros [|k]; simpl; try lia.
  case_decide; simpl; [lia|]. specialize (IH k). lia.
Qed.

(** [fgets] returns [NULL] only with an indicator set, so the loop never
    converts the stale contents of [line]. *)
Lemma fgets_null n fp fp' : fgets n fp = (None, fp') → f_err fp' = true ∨ f_eof fp' = true.
Proof. unfold fgets. repeat case_match; intros [= <-]; simpl; auto. Qed.

(** [fgets] stores at most [n - 1] bytes. *)
Lemma fgets_length n fp l fp' : fgets n fp = (Some l, fp') → length l ≤ n - 1.
Proof.
  unfold fgets. pose proof (fgets_chunk_length (n - 1) (f_data fp)).
  repeat case_match; intros [= <- _]; done.
Qed.

Lemma chunked_single k c : chunk_ok k c [] → chunked k c [c].
Proof. intros H. pose proof (chunked_cons k c [] [] H (chunked_nil k)) as Hc. by rewrite app_nil_r in Hc. Qed.

Lemma chunked_nil_inv' k data cs : chunked k data cs → cs = [] → data = [].
Proof. by inversion 1. Qed.

Lemma chunked_nil_inv k cs : chunked k [] cs → cs = [].
Proof.
  inversion 1 as [|c rest cs' (Hc & _) _ Heq]; [done|].
  destruct c; [done|discriminate].
Qed.

(** ** The chunking of a stream is unique *)

Lemma chunk_ok_prefix k c x r1 r2 :
  chunk_ok k c r1 → chunk_ok k (c ++ x) r2 → r1 = x ++ r2 → x = [].
Proof.
  destruct x as [|y x]; [done|]. intros (Hne & Hlen & Halt) (_ & Hlen2 & Halt2) Hr.
  exfalso. rewrite length_app in Hlen2. simpl in Hlen2.
  destruct Halt as [(c' & -> & Hc')|(Hc & [Hk| ->])]; [|lia|done].
  destruct Halt2 as [(d' & Hd & Hd')|(Hc2 & _)]; [|set_solver].
  rewrite <-app_assoc in Hd. simpl in Hd.
  destruct (app_eq_app c' (LF :: y :: x) d' [LF]) as (z & [[Hz1 Hz2]|[Hz1 Hz2]]); [done| |].
  - apply (f_equal length) in Hz2. rewrite length_app in Hz2. simpl in Hz2. lia.
  - subst d'. destruct z as [|z1 z]; simpl in Hz2.
    + injection Hz2 as Hz. discriminate Hz.
    + injection Hz2 as Hz1 _. subst z1. apply Hd', elem_of_app. right. apply list_elem_of_here.
Qed.

Lemma chunk_ok_unique k c1 r1 c2 r2 :
  chunk_ok k c1 r1 → chunk_ok k c2 r2 → c1 ++ r1 = c2 ++ r2 → c1 = c2 ∧ r1 = r2.
Proof.
  intros H1 H2 Heq. destruct (app_eq_app _ _ _ _ Heq) as (x & [[-> Hr]|[-> Hr]]).
  - rewrite (chunk_ok_prefix k c2 x r2 r1 H2 H1 Hr) in Hr |- *. by rewrite app_nil_r.
  - rewrite (chunk_ok_prefix k c1 x r1 r2 H1 H2 Hr) in Hr |- *. by rewrite app_nil_r.
Qed.

Lemma chunked_det k data cs1 cs2 : chunked k data cs1 → chunked k data cs2 → cs1 = cs2.
Proof.
  intros H1. revert cs2. induction H1 as [|c rest cs Hok H1 IH]; intros cs2 H2.
  - by apply chunked_nil_inv in H2.
  - inversion H2 as [Heq|c2 rest2 cs2' Hok2 H2' Heq]; subst.
    + destruct c; [by destruct Hok|discriminate].
    + destruct (chunk_ok_unique _ _ _ _ _ Hok Hok2 (eq_sym Heq)) as [-> ->].
      by rewrite (IH _ H2').
Qed.

(** ** Facts on the abstract run over a stream *)

Lemma stream_spec_mono cfg a ls a' : stream_spec cfg a ls a' → a_out a `prefix_of` a_out a'.
Proof.
  induction 1 as [|a l fs t a1 ls a' _ Hl _ IH]; [done|].
  etrans; [|exact IH]. by eapply line_spec_mono.
Qed.

Lemma chunked_lf_lines k ls : Forall (lf_line k) ls → chunked k (concat ls) ls.
Proof.
  induction 1 as [|l ls (l' & -> & Hlf & Hlen) _ IH]; [constructor|].
  simpl. apply chunked_cons; [|done]. split_and!; [by destruct l'|done|left; by exists l'].
Qed.

Lemma chunked_plain_lines k ls : Forall (plain_line k) ls → chunked k (concat ls) ls.
Proof.
  intros Hls. apply chunked_lf_lines. eapply Forall_impl; [exact Hls|].
  intros l (l' & ? & ? & _ & _ & ?). by exists l'.
Qed.

Lemma stream_spec_plain k ls a a' :
  a_sol a = true → Forall (plain_line k) ls →
  stream_spec default_config a ls a' → a_out a' = a_out a ++ concat ls.
Proof.
  intros Hsol Hls H. revert Hls Hsol. induction H as [|a l fs t a1 ls a' Hs Hl _ IH];
    intros Hls Hsol; [by rewrite app_nil_r|].
  inversion Hls as [|? ? (l' & -> & Hlf & Hnul & Hdq & _) Hls']; subst.
  rewrite cstring_id in Hs by set_solver.
  assert (DQ ∉ l' ++ [LF]) as Hdq' by set_solver.
  assert (COMMA ≠ LF) as Hcl by discriminate.
  destruct (line_spec_plain default_config (l' ++ [LF]) fs t a a1 eq_refl eq_refl eq_refl eq_refl
    Hdq' Hsol Hs Hl) as [Hout Hsol1].
  rewrite (bool_decide_eq_true_2 _ (line_split_eol_nonempty COMMA _ fs t l' Hcl eq_refl Hs))
    in Hsol1.
  simpl. rewrite IH, Hout by done. by rewrite <-!app_assoc.
Qed.

(** ** The driver refines the specification *)

Section Refinement.
Context {Out : Type} `{!Sink Out} `{HL : !SinkLaws Out}.

(** One iteration that got a chunk from [fgets]: the chunk is converted
    as a line and the loop goes on. *)
Lemma convert_from_fp_step fuel n cfg fp' c lineno (st : conv_state Out) :
  config_wf cfg → st_buf st !!! 0 = DQ →
  ∃ fs t st1, line_split (delimiter cfg) (cstring c) fs t ∧
    line_spec cfg (abs st) fs t (abs st1) ∧ st_buf st1 !!! 0 = DQ ∧
    ('(retcode, st') ← convert_line cfg (cstring c) st;
     if decide (retcode ≠ 0%Z) then Some (Exited 100, st')
     else convert_from_fp_loop fuel n cfg fp' c (S lineno) st')
    = convert_from_fp_loop fuel n cfg fp' c (S lineno) st1.
Proof using HL.
  intros Hwf H0. destruct (convert_line_some cfg (cstring c) st Hwf H0) as (st1 & Hrun).
  destruct (convert_line_run cfg _ st _ st1 Hwf H0 Hrun) as (_ & fs & t & Hs & Hspec & H1).
  exists fs, t, st1. split_and!; [done..|]. by rewrite Hrun.
Qed.
(** At a clean end of file the loop flushes and returns 0. *)
Lemma fp_result_eof n cfg (st : conv_state Out) :
  st_buf st !!! 0 = DQ → fp_result n cfg [] st false (Some (Returned 0%Z, flush_state st)).
Proof using HL.
  intros H0. exists [], [], 0%Z, (flush_state st).
  split_and!; [apply chunked_nil|done| |done|done|done|].
  - replace (abs (flush_state st)) with (abs st); [apply stream_spec_nil|].
    unfold abs, flush_state. simpl. by autorewrite with uncsv_rw.
  - simpl. by autorewrite with uncsv_rw.
Qed.

(** On a read error the loop returns -1, losing the chunk being read. *)
Lemma fp_result_error n cfg c (st : conv_state Out) :
  st_buf st !!! 0 = DQ → (c = [] ∨ chunk_ok (n - 1) c []) →
  fp_result n cfg c st true (Some (Returned (-1)%Z, st)).
Proof.
  intros H0 [->|Hok].
  - exists [], [], (-1)%Z, st. split_and!; [apply chunked_nil|done|apply stream_spec_nil|done|done|simpl; lia].
  - exists [], [c], (-1)%Z, st. split_and!; [by apply chunked_single|done|apply stream_spec_nil|done|done|simpl; lia].
Qed.

(** A chunk converted as a line in front of the rest of the run. *)
Lemma fp_result_cons n cfg c rest fs t (st st1 : conv_state Out) fail res :
  chunk_ok (n - 1) c rest → line_split (delimiter cfg) (cstring c) fs t →
  line_spec cfg (abs st) fs t (abs st1) → fp_result n cfg rest st1 fail res →
  fp_result n cfg (c ++ rest) st fail res.
Proof.
  intros Hok Hs Hspec (cs & lost & r & st' & Hch & Hres & Hstream & H' & Hfin).
  exists (c :: cs), lost, r, st'. split_and!; [|done| |done|done].
  - by apply chunked_cons.
  - by econstructor.
Qed.

(** The loop reads the stream chunk by chunk; at a clean end of file it
    flushes and returns 0, on a read error it returns -1 without
    converting the partial chunk it was reading. *)
Lemma convert_from_fp_loop_refines fuel n cfg fp line lineno (st : conv_state Out) :
  2 ≤ n → config_wf cfg → f_err fp = false → length (f_data fp) + 2 ≤ fuel →
  st_buf st !!! 0 = DQ →
  fp_result n cfg (f_data fp) st (f_fail fp) (convert_from_fp_loop fuel n cfg fp line lineno st).
Proof using HL.
  intros Hn Hwf. revert fp line lineno st.
  induction fuel as [|fuel IH]; intros fp line lineno st Herr Hfuel H0; [lia|].
  cbn [convert_from_fp_loop]. unfold fgets.
  destruct (f_data fp) as [|b data] eqn:Hdata.
  - rewrite fgets_chunk_nil. simpl.
    rewrite bool_decide_eq_true_2 by (split_and!; [done|done|lia]).
    destruct (f_fail fp); simpl; [by apply fp_result_error; [|left]|].
    rewrite Herr. by apply fp_result_eof.
  - set (c := fgets_chunk (n - 1) (b :: data)).
    set (rest := drop (length c) (b :: data)).
    destruct (chunk_ok_of_fgets (n - 1) (b :: data) rest ltac:(lia) ltac:(done) eq_refl)
      as [Hok Hsplit]. fold c in Hok, Hsplit. rewrite Hsplit.
    assert (length rest < length (b :: data)) as Hlt.
    { rewrite Hsplit, length_app. destruct Hok as (Hne & _). destruct c; [done|simpl; lia]. }
    destruct (bool_decide (rest = [] ∧ last c ≠ Some LF ∧ length c < n - 1)) eqn:Hend.
    + apply bool_decide_eq_true_1 in Hend as (Hrest & _ & _). rewrite Hrest in Hok |- *.
      destruct (f_fail fp) eqn:Hf; simpl; [rewrite app_nil_r; by apply fp_result_error; [|right]|].
      rewrite decide_False by (destruct Hok; done).
      destruct (convert_from_fp_step fuel n cfg (mk_file [] false true (f_err fp)) c lineno st Hwf H0)
        as (fs & t & st1 & Hs & Hspec & H1 & ->).
      eapply fp_result_cons; [done..|].
      apply (IH (mk_file [] false true (f_err fp))); [done|simpl in *; lia|done].
    + simpl.
      destruct (convert_from_fp_step fuel n cfg (mk_file rest (f_fail fp) (f_eof fp) (f_err fp))
        c lineno st Hwf H0) as (fs & t & st1 & Hs & Hspec & H1 & ->).
      eapply fp_result_cons; [done..|].
      apply (IH (mk_file rest (f_fail fp) (f_eof fp) (f_err fp))); [done|simpl in *; lia|done].
Qed.

(** One call on a stream without read error. *)
Lemma convert_from_fp_clean n cfg data st :
  2 ≤ n → config_wf cfg → st_buf st !!! 0 = DQ →
  ∃ cs st', chunked (n - 1) data cs ∧
    convert_from_fp_n n cfg (open_file data false) st = Some (Returned 0%Z, st') ∧
    stream_spec cfg (abs st) cs (abs st') ∧ st_buf st' !!! 0 = DQ.
Proof using HL.
  intros Hn Hwf H0.
  destruct (convert_from_fp_loop_refines (S (S (length data))) n cfg (open_file data false)
    [] 1 st Hn Hwf eq_refl ltac:(simpl; lia) H0)
    as (cs & lost & r & st' & Hch & Hrun & Hspec & H' & (-> & -> & _)).
  exists cs, st'. by rewrite app_nil_r in Hch.
Qed.

End Refinement.

Section Claims.
Context {Out : Type} `{!Sink Out} `{HL : !SinkLaws Out}.
Implicit Types (st : conv_state Out).

(** C1: on a stream that ends cleanly [convert_from_fp] returns 0: the
    stream is read in the chunks [fgets] returns, each converted as a
    line up to its first NUL, the quote stays in [buf[0]], and the
    output is flushed, so every byte written reaches the device. *)
Theorem convert_from_fp_correct n cfg data st :
  2 ≤ n → config_wf cfg → st_buf st !!! 0 = DQ →
  ∃ cs st', chunked (n - 1) data cs ∧
    convert_from_fp_n n cfg (open_file data false) st = Some (Returned 0%Z, st') ∧
    stream_spec cfg (abs st) cs (abs st') ∧ st_buf st' !!! 0 = DQ ∧
    sink_delivered (st_out st') = sink_bytes (st_out st').
Proof using HL.
  intros Hn Hwf H0.
  destruct (convert_from_fp_loop_refines (S (S (length data))) n cfg (open_file data false)
    [] 1 st Hn Hwf eq_refl ltac:(simpl; lia) H0)
    as (cs & lost & r & st' & Hch & Hrun & Hspec & H' & (-> & -> & Hdel)).
  exists cs, st'. rewrite app_nil_r in Hch. done.
Qed.

(** C18: when the stream reports a read error [convert_from_fp] returns
    -1: the chunks read before it are converted, the partial chunk being
    read when the error came (at most one) is lost. *)
Theorem convert_from_fp_read_error n cfg data st :
  2 ≤ n → config_wf cfg → st_buf st !!! 0 = DQ →
  ∃ cs lost st', chunked (n - 1) data (cs ++ lost) ∧ length lost ≤ 1 ∧
    convert_from_fp_n n cfg (open_file data true) st = Some (Returned (-1)%Z, st') ∧
    stream_spec cfg (abs st) cs (abs st').
Proof using HL.
  intros Hn Hwf H0.
  destruct (convert_from_fp_loop_refines (S (S (length data))) n cfg (open_file data true)
    [] 1 st Hn Hwf eq_refl ltac:(simpl; lia) H0)
    as (cs & lost & r & st' & Hch & Hrun & Hspec & H' & (-> & Hlost)).
  by exists cs, lost, st'.
Qed.
(** C14: with the default settings, a stream of lines that each end in a
    line feed, fit in the [n]-byte array and hold no NUL and no double
    quote is copied to the output unchanged. *)
Theorem convert_from_fp_identity n ls st :
  2 ≤ n → Forall (plain_line (n - 1)) ls →
  st_start_of_line st = true → st_buf st !!! 0 = DQ →
  ∃ st', convert_from_fp_n n default_config (open_file (concat ls) false) st =
           Some (Returned 0%Z, st') ∧
         sink_bytes (st_out st') = sink_bytes (st_out st) ++ concat ls.
Proof using HL.
  intros Hn Hls Hsol H0.
  destruct (convert_from_fp_loop_refines (S (S (length (concat ls)))) n default_config
    (open_file (concat ls) false) [] 1 st Hn ltac:(decide_by_eval) eq_refl ltac:(simpl; lia) H0)
    as (cs & lost & r & st' & Hch & Hrun & Hspec & _ & (-> & -> & _)).
  rewrite app_nil_r in Hch. simpl in Hch.
  rewrite (chunked_det _ _ _ _ Hch (chunked_plain_lines _ _ Hls)) in Hspec.
  exists st'. split; [done|]. by apply (stream_spec_plain (n - 1) ls (abs st) (abs st')).
Qed.

(** C30: a line longer than the array is cut after [n - 1] bytes and its
    two parts are converted as two lines of which the first has no end
    of line, so a comma is written where the line was cut. *)
Theorem convert_from_fp_long_line n l rest st :
  2 ≤ n → length l = n - 1 → LF ∉ l → CR ∉ l → NUL ∉ l → DQ ∉ l → rest ≠ [] →
  st_start_of_line st = true → st_buf st !!! 0 = DQ →
  ∃ st', convert_from_fp_n n default_config (open_file (l ++ rest) false) st =
           Some (Returned 0%Z, st') ∧
         (sink_bytes (st_out st) ++ l ++ [COMMA]) `prefix_of` sink_bytes (st_out st').
Proof using HL.
  intros Hn Hlen Hlf Hcr Hnul Hdq Hrest Hsol H0.
  destruct (convert_from_fp_loop_refines (S (S (length (l ++ rest)))) n default_config
    (open_file (l ++ rest) false) [] 1 st Hn ltac:(decide_by_eval) eq_refl ltac:(simpl; lia) H0)
    as (cs & lost & r & st' & Hch & Hrun & Hspec & _ & (-> & -> & _)).
  exists st'. split; [done|]. rewrite app_nil_r in Hch. simpl in Hch.
  assert (chunk_ok (n - 1) l rest) as Hok.
  { split_and!; [by destruct l; simpl in Hlen; [lia|]|lia|right; split; [done|by left]]. }
  inversion Hch as [Heq|c rest' cs' Hok' Hch' Heq]; [by destruct l; simpl in Hlen; [lia|]|].
  subst cs. destruct (chunk_ok_unique _ _ _ _ _ Hok Hok' (eq_sym Heq)) as [<- <-].
  inversion Hspec as [|? ? fs t a1 ? ? Hs Hl Hspec']; subst.
  rewrite cstring_id in Hs by done.
  assert (t = []) as ->.
  { destruct Hs as (_ & Hline & _ & _ & _ & [->|(b & t' & -> & Hb)]); [done|].
    exfalso. assert (b ∈ l) by (rewrite Hline; set_solver). unfold is_eol in Hb. set_solver. }
  destruct (line_spec_plain default_config l fs [] (abs st) a1 eq_refl eq_refl eq_refl eq_refl
    Hdq Hsol Hs Hl) as [Hout Hsol1].
  destruct cs' as [|c2 cs'']; [by apply chunked_nil_inv' in Hch'|].
  inversion Hspec' as [|? ? fs2 t2 a2 ? ? Hs2 Hl2 Hspec'']; subst.
  destruct fs2 as [|f2 fs2]; [by destruct Hs2|].
  pose proof (line_spec_first _ _ _ _ _ _ Hl2) as Hfirst.
  apply stream_spec_mono in Hspec''. simpl in Hout, Hsol1. rewrite Hsol1 in Hfirst.
  rewrite Hout in Hfirst. simpl in Hfirst. rewrite <-app_assoc in Hfirst.
  by etrans.
Qed.

End Claims.

(** ** Witnesses *)

Lemma convert_from_fp_correct_witness :
  ∃ cs st', chunked 3 (b{"ab"} ++ [LF]) cs ∧
    convert_from_fp_n 4 default_config (open_file (b{"ab"} ++ [LF]) false)
      (init_state ([] : list byte)) = Some (Returned 0%Z, st').
Proof.
  destruct (convert_from_fp_correct 4 default_config (b{"ab"} ++ [LF]) (init_state ([] : list byte))
    ltac:(lia) ltac:(decide_by_eval) eq_refl) as (cs & st' & Hch & Hrun & _).
  eauto.
Defined.

Lemma convert_from_fp_read_error_witness :
  ∃ cs lost st', chunked 3 (b{"ab"} ++ [LF] ++ b{"c"}) (cs ++ lost) ∧
    convert_from_fp_n 4 default_config (open_file (b{"ab"} ++ [LF] ++ b{"c"}) true)
      (init_state ([] : list byte)) = Some (Returned (-1)%Z, st').
Proof.
  destruct (convert_from_fp_read_error 4 default_config (b{"ab"} ++ [LF] ++ b{"c"})
    (init_state ([] : list byte)) ltac:(lia) ltac:(decide_by_eval) eq_refl)
    as (cs & lost & st' & Hch & _ & Hrun & _).
  eauto.
Defined.

Lemma convert_from_fp_identity_witness :
  ∃ st', convert_from_fp_n 5 default_config (open_file (concat [b{"1,2"} ++ [LF]; b{"ab"} ++ [LF]]) false)
           (init_state ([] : list byte)) = Some (Returned 0%Z, st') ∧
         sink_bytes (st_out st') =
           sink_bytes (st_out (init_state ([] : list byte))) ++ concat [b{"1,2"} ++ [LF]; b{"ab"} ++ [LF]].
Proof.
  apply (convert_from_fp_identity 5 _ (init_state ([] : list byte))); [lia| |reflexivity|reflexivity].
  apply List.Forall_cons; [exists b{"1,2"}|apply List.Forall_cons; [exists b{"ab"}|apply List.Forall_nil]];
    split_and!; (reflexivity || decide_by_eval).
Defined.

Lemma convert_from_fp_long_line_witness :
  ∃ st', convert_from_fp_n 4 default_config (open_file (b{"abc"} ++ b{"de"} ++ [LF]) false)
           (init_state ([] : list byte)) = Some (Returned 0%Z, st') ∧
         (sink_bytes (st_out (init_state ([] : list byte))) ++ b{"abc"} ++ [COMMA])
           `prefix_of` sink_bytes (st_out st').
Proof.
  apply (convert_from_fp_long_line 4 b{"abc"} (b{"de"} ++ [LF]) (init_state ([] : list byte)));
    try reflexivity; try decide_by_eval; lia.
Defined.

