(* ===== verification/Loop.v ===== *)
(** * The driver loop as a state machine

    [convert_from_fp]'s [for (;;)] loop (csv.c lines 253-268) as a step
    relation [fp_step] on configurations: the stream, the array [line]
    (which keeps its contents between iterations), the [int lineno] and
    the conversion state.  One step is one iteration that converts a
    line; the loop leaves when [fgets] returns [NULL].  This file holds
    the properties of the machine as a whole:
    - the well-formedness [state_wf] of the conversion state ([buf[0]]
      is the quote, [buf] fits its [MAXFIELDLEN] bytes), kept by
      [convert_field] and [convert_line];
    - the invariant [fp_inv] of every configuration reachable from the
      start, by rule induction over [rtc fp_step];
    - termination (every configuration is strongly normalizing: a step
      consumes input) and liveness (the loop reaches a configuration
      where [fgets] returns [NULL]);
    - the refinement of the machine by the fuelled [convert_from_fp_loop]
      of [Driver]: the machine is deterministic, and the loop returns
      [fp_exit] of the unique configuration where no step applies;
    - the width of [lineno]: it counts the lines, so a stream of
      [INT_MAX] line feeds takes it past [INT_MAX]. *)

From stdpp Require Import relations.
From S2P Require Import Prelude Config Replace Field Line Driver.

(** ** The machine *)

(** The largest [int] (32-bit [int], as on the platforms the code
    targets). *)
Definition INT_MAX : Z := 2147483647.

Section Machine.
Context {Out : Type} `{!Sink Out}.

(** The loop as a state machine on (stream, array [line], [lineno],
    conversion state): one iteration reads a chunk and converts it, or,
    when [fgets] returns [NULL] with neither indicator set, converts the
    old contents of [line]. *)
Inductive fp_step (n : nat) (cfg : config) :
    file * list byte * nat * conv_state Out → file * list byte * nat * conv_state Out → Prop :=
  | fp_step_read fp fp' l line lineno st r st' :
      fgets n fp = (Some l, fp') → convert_line cfg (cstring l) st = Some (r, st') →
      fp_step n cfg (fp, line, lineno, st) (fp', l, S lineno, st')
  | fp_step_stale fp fp' line lineno st r st' :
      fgets n fp = (None, fp') → f_err fp' = false → f_eof fp' = false →
      convert_line cfg (cstring line) st = Some (r, st') →
      fp_step n cfg (fp, line, lineno, st) (fp', line, S lineno, st').

(** What holds in every configuration the loop reaches: the array holds
    at most [n - 1] bytes, [buf[0]] is the quote, and [buf] has at most
    [b] bytes. *)
Definition fp_inv (n b : nat) (c : file * list byte * nat * conv_state Out) : Prop :=
  let '(_, line, _, st) := c in
  length line ≤ n - 1 ∧ st_buf st !!! 0 = DQ ∧ length (st_buf st) ≤ b.

(** The line counter of a configuration. *)
Definition fp_lineno (c : file * list byte * nat * conv_state Out) : nat :=
  let '(_, _, lineno, _) := c in lineno.

(** The stream of a configuration. *)
Definition fp_file (c : file * list byte * nat * conv_state Out) : file :=
  let '(fp, _, _, _) := c in fp.

(** A well-formed conversion state: the quote in [buf[0]], and [buf]
    within the [MAXFIELDLEN] bytes of the static array. *)
Definition state_wf (st : conv_state Out) : Prop :=
  st_buf st !!! 0 = DQ ∧ length (st_buf st) ≤ MAXFIELDLEN.

(** What the function returns once the loop has left at a configuration
    where [fgets] returned [NULL]: [-1] with the output unflushed on a
    read error, otherwise [0] after [flush_output()]. *)
Definition fp_exit (n : nat) (c : file * list byte * nat * conv_state Out)
    : outcome * conv_state Out :=
  let '(fp, _, _, st) := c in
  if f_err (fgets n fp).2 then (Returned (-1)%Z, st) else (Returned 0%Z, flush_state st).
End Machine.

(** ** Reachable configurations *)

Section Reach.
Context {Out : Type} `{!Sink Out} `{HL : !SinkLaws Out}.

(** Every step keeps the invariant, when [b] leaves room for a full
    array escaped. *)
Lemma fp_step_inv n b cfg (c c' : file * list byte * nat * conv_state Out) :
  config_wf cfg → 2 * (n - 1) + 2 ≤ b → fp_step n cfg c c' → fp_inv n b c → fp_inv n b c'.
Proof using HL.
  intros Hwf Hb Hstep. destruct Hstep as [fp fp' l line lineno st r st' Hfg Hrun|
    fp fp' line lineno st r st' _ _ _ Hrun]; intros (Hline & H0 & Hlen).
  - pose proof (fgets_length n fp l fp' Hfg). pose proof (cstring_length l).
    destruct (convert_line_run cfg _ st _ st' Hwf H0 Hrun) as (_ & _ & _ & _ & _ & Hq).
    pose proof (convert_line_buf cfg _ st st' _ Hwf H0 Hrun). split_and!; [done|done|lia].
  - pose proof (cstring_length line).
    destruct (convert_line_run cfg _ st _ st' Hwf H0 Hrun) as (_ & _ & _ & _ & _ & Hq).
    pose proof (convert_line_buf cfg _ st st' _ Hwf H0 Hrun). split_and!; [done|done|lia].
Qed.

(** By rule induction, the invariant holds in every reachable configuration. *)
Lemma fp_reachable_inv n b cfg (c c' : file * list byte * nat * conv_state Out) :
  config_wf cfg → 2 * (n - 1) + 2 ≤ b →
  rtc (fp_step n cfg) c c' → fp_inv n b c → fp_inv n b c'.
Proof using HL.
  intros Hwf Hb. induction 1 as [|c c1 c' Hstep _ IH]; [done|].
  intros Hinv. apply IH. by apply (fp_step_inv n b cfg c c1).
Qed.

(** A run of the loop ends in a reachable configuration (flushed when
    it ends at end of file). *)
Lemma convert_from_fp_loop_reachable fuel n cfg fp line lineno (st st' : conv_state Out) o :
  convert_from_fp_loop fuel n cfg fp line lineno st = Some (o, st') →
  ∃ fp1 line1 lineno1 st1, rtc (fp_step n cfg) (fp, line, lineno, st) (fp1, line1, lineno1, st1) ∧
    (st' = st1 ∨ st' = flush_state st1).
Proof.
  revert fp line lineno st.
  induction fuel as [|fuel IH]; intros fp line lineno st; [done|].
  cbn [convert_from_fp_loop]. destruct (fgets n fp) as [[l|] fp'] eqn:Hfg.
  - destruct (convert_line cfg (cstring l) st) as [[r st1]|] eqn:Hrun; simpl; [|done].
    case_decide.
    + intros [= _ <-]. exists fp', l, (S lineno), st1. split; [|by left].
      apply rtc_once. by eapply fp_step_read.
    + intros (fp2 & line2 & lineno2 & st2 & Hrtc & Hst)%IH.
      exists fp2, line2, lineno2, st2. split; [|done].
      eapply rtc_l; [|exact Hrtc]. by eapply fp_step_read.
  - destruct (f_err fp') eqn:Herr; [intros [= _ <-]; exists fp, line, lineno, st; by split; [|left]|].
    destruct (f_eof fp') eqn:Heof; [intros [= _ <-]; exists fp, line, lineno, st; by split; [|right]|].
    destruct (convert_line cfg (cstring line) st) as [[r st1]|] eqn:Hrun; simpl; [|done].
    case_decide.
    + intros [= _ <-]. exists fp', line, (S lineno), st1. split; [|by left].
      apply rtc_once. by eapply fp_step_stale.
    + intros (fp2 & line2 & lineno2 & st2 & Hrtc & Hst)%IH.
      exists fp2, line2, lineno2, st2. split; [|done].
      eapply rtc_l; [|exact Hrtc]. by eapply fp_step_stale.
Qed.
End Reach.

(** ** Progress of the loop *)

(** With room for at least one byte, a successful [fgets] consumes
    input. *)
Lemma fgets_some_shrinks n fp l fp' :
  2 ≤ n → fgets n fp = (Some l, fp') → length (f_data fp') < length (f_data fp).
Proof.
  intros Hn. unfold fgets. destruct (f_data fp) as [|b data] eqn:Hd.
  - rewrite fgets_chunk_nil. cbn [length drop].
    rewrite bool_decide_eq_true_2 by (split_and!; [done|done|lia]).
    by destruct (f_fail fp).
  - destruct (fgets_chunk_spec (n - 1) (b :: data) ltac:(lia) ltac:(done)) as (Hne & _).
    case_bool_decide.
    + destruct (f_fail fp); [done|]. case_decide; [done|]. intros [= _ <-]. simpl. lia.
    + intros [= _ <-]. simpl. rewrite length_drop.
      destruct (fgets_chunk _ _); simpl in *; [done|lia].
Qed.

(** [fgets] on a stream that starts with a line feed returns it alone. *)
Lemma fgets_lf n r :
  2 ≤ n → fgets n (mk_file (LF :: r) false false false) = (Some [LF], mk_file r false false false).
Proof.
  intros Hn. unfold fgets. cbn [f_data f_fail f_eof f_err].
  destruct (n - 1) as [|k] eqn:Hk; [lia|]. cbn [fgets_chunk]. rewrite decide_True by done.
  rewrite bool_decide_eq_false_2; [done|]. intros (_ & Hl & _). by apply Hl.
Qed.

Section Progress.
Context {Out : Type} `{!Sink Out} `{HL : !SinkLaws Out}.

(** Every step consumes input: a step that does not read is impossible. *)
Lemma fp_step_shrinks n cfg (c c' : file * list byte * nat * conv_state Out) :
  2 ≤ n → fp_step n cfg c c' → length (f_data (fp_file c')) < length (f_data (fp_file c)).
Proof.
  intros Hn Hs. inversion Hs as [? ? ? ? ? ? ? ? Hfg|? ? ? ? ? ? ? Hfg Herr Heof]; subst; simpl.
  - by eapply fgets_some_shrinks.
  - exfalso. destruct (fgets_null _ _ _ Hfg); congruence.
Qed.

(** Where [fgets] returns [NULL] the loop has left: no step applies. *)
Lemma fp_nf_null n cfg fp fp' line lineno (st : conv_state Out) :
  fgets n fp = (None, fp') → nf (fp_step n cfg) (fp, line, lineno, st).
Proof.
  intros Hfg [c' Hs]. inversion Hs as [? ? ? ? ? ? ? ? Hfg'|? ? ? ? ? ? ? Hfg' Herr Heof]; subst.
  - congruence.
  - rewrite Hfg in Hfg'. injection Hfg' as <-. destruct (fgets_null _ _ _ Hfg); congruence.
Qed.

(** The same, for a configuration given as a whole. *)
Lemma fp_nf_of_null n cfg (c : file * list byte * nat * conv_state Out) :
  (fgets n (fp_file c)).1 = None → nf (fp_step n cfg) c.
Proof.
  destruct c as [[[fp line] lineno] st]. simpl.
  destruct (fgets n fp) as [[l|] fp'] eqn:Hfg; [done|]. intros _. by eapply fp_nf_null.
Qed.

(** The loop is deterministic: [fgets] and [convert_line] are functions. *)
Lemma fp_step_det n cfg : deterministic (@fp_step Out _ n cfg).
Proof.
  intros c c1 c2 H1 H2.
  destruct H1 as [fp fp' l line lineno st r st' Hfg Hrun|fp fp' line lineno st r st' Hfg Herr Heof Hrun];
    inversion H2 as [? ? ? ? ? ? ? ? Hfg2 Hrun2|? ? ? ? ? ? ? Hfg2 Herr2 Heof2 Hrun2]; subst;
    rewrite Hfg in Hfg2; simplify_eq; congruence.
Qed.

(** A step from a configuration whose state has the quote in [buf[0]]. *)
Lemma fp_step_read_some n cfg fp l fp' line lineno (st : conv_state Out) :
  config_wf cfg → st_buf st !!! 0 = DQ → fgets n fp = (Some l, fp') →
  ∃ st', fp_step n cfg (fp, line, lineno, st) (fp', l, S lineno, st') ∧ st_buf st' !!! 0 = DQ.
Proof using HL.
  intros Hwf H0 Hfg. destruct (convert_line_some cfg (cstring l) st Hwf H0) as (st' & Hrun).
  destruct (convert_line_run cfg _ st _ st' Hwf H0 Hrun) as (_ & _ & _ & _ & _ & H1).
  exists st'. split; [|done]. by eapply fp_step_read.
Qed.

(** A stream of [k] line feeds takes [k] steps, each adding one to
    [lineno]. *)
Lemma fp_lines_lineno n cfg k line lineno (st : conv_state Out) :
  2 ≤ n → config_wf cfg → st_buf st !!! 0 = DQ →
  ∃ c', rtc (fp_step n cfg) (mk_file (replicate k LF) false false false, line, lineno, st) c' ∧
    fp_lineno c' = lineno + k.
Proof using HL.
  intros Hn Hwf. revert line lineno st.
  induction k as [|k IH]; intros line lineno st H0.
  - eexists. split; [apply rtc_refl|]. simpl. lia.
  - destruct (fp_step_read_some n cfg _ [LF] _ line lineno st Hwf H0
      (fgets_lf n (replicate k LF) Hn))
      as (st' & Hstep & H1).
    destruct (IH [LF] (S lineno) st' H1) as (c' & Hrtc & Hl).
    exists c'. split; [by eapply rtc_l|]. rewrite Hl. lia.
Qed.

(** With fuel beyond the length of the stream, the fuelled loop follows
    the machine to a configuration where [fgets] returns [NULL] and
    returns what the function returns there. *)
Lemma fp_run_terminal fuel n cfg fp line lineno (st : conv_state Out) :
  2 ≤ n → config_wf cfg → st_buf st !!! 0 = DQ → length (f_data fp) < fuel →
  ∃ c', rtc (fp_step n cfg) (fp, line, lineno, st) c' ∧ (fgets n (fp_file c')).1 = None ∧
    convert_from_fp_loop fuel n cfg fp line lineno st = Some (fp_exit n c').
Proof using HL.
  intros Hn Hwf. revert fp line lineno st.
  induction fuel as [|fuel IH]; intros fp line lineno st H0 Hfuel; [lia|].
  cbn [convert_from_fp_loop]. destruct (fgets n fp) as [[l|] fp'] eqn:Hfg.
  - destruct (convert_line_some cfg (cstring l) st Hwf H0) as (st1 & Hrun).
    destruct (convert_line_run cfg _ st _ st1 Hwf H0 Hrun) as (_ & _ & _ & _ & _ & H1).
    pose proof (fgets_some_shrinks n fp l fp' Hn Hfg).
    destruct (IH fp' l (S lineno) st1 H1 ltac:(lia)) as (c' & Hrtc & Hnull & Hloop).
    exists c'. split_and!; [|done|]; [eapply rtc_l; [by eapply fp_step_read|done]|].
    rewrite Hrun. simpl. exact Hloop.
  - exists (fp, line, lineno, st). split_and!; [apply rtc_refl|by simpl; rewrite Hfg|].
    cbn [fp_exit]. rewrite Hfg. simpl. destruct (f_err fp') eqn:Herr; [done|].
    destruct (fgets_null _ _ _ Hfg) as [Herr'|Heof]; [congruence|by rewrite Heof].
Qed.
End Progress.

(** * Properties of the loop *)

Section Claims.
Context {Out : Type} `{!Sink Out} `{HL : !SinkLaws Out}.

(** C8: the scratch array [buf] of [MAXFIELDLEN] bytes is never written
    past its end: on any input, every field of a line read into the
    [MAXLINELEN]-byte array, escaped and quoted, fits. *)
Theorem convert_from_fp_buf_bound cfg data fail st :
  config_wf cfg → st_buf st !!! 0 = DQ → length (st_buf st) ≤ MAXFIELDLEN →
  ∃ r st', convert_from_fp cfg (open_file data fail) st = Some (Returned r, st') ∧
    length (st_buf st') ≤ MAXFIELDLEN.
Proof using HL.
  intros Hwf H0 Hlen. unfold convert_from_fp, convert_from_fp_n.
  assert (2 ≤ MAXLINELEN) as Hn by (unfold MAXLINELEN; lia).
  destruct (convert_from_fp_loop_refines (S (S (length data))) MAXLINELEN cfg
    (open_file data fail) [] 1 st Hn Hwf eq_refl ltac:(simpl; lia) H0)
    as (cs & lost & r & st' & _ & Hrun & _).
  exists r, st'. split; [done|].
  destruct (convert_from_fp_loop_reachable _ _ _ _ _ _ _ _ _ Hrun)
    as (fp1 & line1 & lineno1 & st1 & Hrtc & Hst).
  destruct (fp_reachable_inv MAXLINELEN MAXFIELDLEN cfg _ _ Hwf ltac:(unfold MAXFIELDLEN; lia) Hrtc)
    as (_ & _ & Hlen1); [unfold fp_inv; split_and!; [apply Nat.le_0_l|done|done]|].
  by destruct Hst as [-> | ->].
Qed.

(** C36: the branch that converts the old contents of [line] is dead:
    every step of the loop converts the chunk [fgets] has just read. *)
Theorem fp_step_reads n cfg fp line lineno st fp' line' lineno' st' :
  fp_step n cfg (fp, line, lineno, st) (fp', line', lineno', st') →
  fgets n fp = (Some line', fp') ∧ lineno' = S lineno.
Proof.
  intros Hstep. inversion Hstep as [|? ? ? ? ? ? ? Hfg Herr Heof]; subst; [done|].
  exfalso. destruct (fgets_null _ _ _ Hfg); congruence.
Qed.

(** C10: termination of the [for (;;)] loop: with an array of at least
    two bytes every configuration is strongly normalizing for
    [fp_step], since each iteration consumes input. *)
Theorem fp_step_terminates n cfg (c : file * list byte * nat * conv_state Out) :
  2 ≤ n → sn (fp_step n cfg) c.
Proof.
  intros Hn. remember (length (f_data (fp_file c))) as k eqn:Hk. revert c Hk.
  induction k as [k IH] using lt_wf_ind. intros c ->.
  constructor. intros c' Hs. eapply IH; [|done]. exact (fp_step_shrinks n cfg c c' Hn Hs).
Qed.

(** C11: liveness: from any configuration whose state has the quote in
    [buf[0]], the loop reaches one where [fgets] returns [NULL] and no
    iteration is left. *)
Theorem fp_step_reaches_eof n cfg fp line lineno (st : conv_state Out) :
  2 ≤ n → config_wf cfg → st_buf st !!! 0 = DQ →
  ∃ c', rtc (fp_step n cfg) (fp, line, lineno, st) c' ∧ nf (fp_step n cfg) c' ∧
    (fgets n (fp_file c')).1 = None.
Proof using HL.
  intros Hn Hwf H0.
  destruct (fp_run_terminal (S (length (f_data fp))) n cfg fp line lineno st Hn Hwf H0
    ltac:(lia)) as (c' & Hrtc & Hnull & _).
  exists c'. split_and!; [done|by apply fp_nf_of_null|done].
Qed.

(** C12: the fuelled [convert_from_fp_loop] implements the machine: from
    a configuration with the quote in [buf[0]] the machine reaches a
    configuration where no iteration applies, and for every such
    configuration it reaches, the loop given more fuel than bytes left
    returns what the function returns there ([fp_exit]: [-1] unflushed
    on a read error, else [0] flushed). *)
Theorem convert_from_fp_loop_machine fuel n cfg fp line lineno (st : conv_state Out) :
  2 ≤ n → config_wf cfg → st_buf st !!! 0 = DQ → length (f_data fp) < fuel →
  (∃ c', rtc (fp_step n cfg) (fp, line, lineno, st) c' ∧ nf (fp_step n cfg) c') ∧
  ∀ c', rtc (fp_step n cfg) (fp, line, lineno, st) c' → nf (fp_step n cfg) c' →
    convert_from_fp_loop fuel n cfg fp line lineno st = Some (fp_exit n c').
Proof using HL.
  intros Hn Hwf H0 Hfuel.
  destruct (fp_run_terminal fuel n cfg fp line lineno st Hn Hwf H0 Hfuel)
    as (c1 & Hrtc1 & Hnull & Hloop).
  assert (nf (fp_step n cfg) c1) by by apply fp_nf_of_null.
  split; [by exists c1|]. intros c' Hrtc Hnf. rewrite Hloop.
  assert (c1 = c') as -> by (eapply confluent_rtc_nf; [apply deterministic_confluent, fp_step_det|done..]).
  done.
Qed.

(** C13: the state is well formed at the start ([buf] is the single
    quote of [initialize]) and stays well formed: [convert_field] on a
    field of at most [MAXLINELEN] bytes and [convert_line] on a line
    that fits the array both return, with a well-formed state. *)
Theorem state_wf_preserved cfg (out : Out) :
  config_wf cfg →
  state_wf (init_state out) ∧
  (∀ c (st : conv_state Out), length c ≤ MAXLINELEN → state_wf st →
     ∃ st', convert_field cfg c (length c) st = Some st' ∧ state_wf st') ∧
  (∀ line (st : conv_state Out), length line < MAXLINELEN → state_wf st →
     ∃ st', convert_line cfg line st = Some (0%Z, st') ∧ state_wf st').
Proof using HL.
  intros Hwf. split_and!.
  - split; [done|]. cbn [init_state st_buf initial_buf length]. unfold MAXFIELDLEN. lia.
  - intros c st Hc [H0 Hb].
    destruct (convert_field_refines cfg c st (proj2 Hwf) H0) as (f & hit & st' & _ & Hrun & _ & H1).
    exists st'. split; [done|]. split; [done|].
    pose proof (convert_field_buf_length cfg c st st' (proj2 Hwf) H0 Hrun).
    unfold MAXFIELDLEN, MAXLINELEN in *. lia.
  - intros line st Hl [H0 Hb].
    destruct (convert_line_some cfg line st Hwf H0) as (st' & Hrun).
    destruct (convert_line_run cfg line st _ st' Hwf H0 Hrun) as (_ & _ & _ & _ & _ & H1).
    exists st'. split; [done|]. split; [done|].
    pose proof (convert_line_buf cfg line st st' _ Hwf H0 Hrun).
    unfold MAXFIELDLEN, MAXLINELEN in *. lia.
Qed.

(** C9: every configuration the loop reaches from the start, on any
    stream and from a well-formed state, satisfies the invariant: the
    array [line] holds at most [MAXLINELEN - 1] bytes, [buf[0]] is the
    quote and [buf] fits its [MAXFIELDLEN] bytes. *)
Theorem fp_reachable_wf cfg data fail (st : conv_state Out) c :
  config_wf cfg → state_wf st →
  rtc (fp_step MAXLINELEN cfg) (open_file data fail, [], 1, st) c →
  fp_inv MAXLINELEN MAXFIELDLEN c.
Proof using HL.
  intros Hwf [H0 Hb] Hrtc.
  apply (fp_reachable_inv MAXLINELEN MAXFIELDLEN cfg _ _ Hwf) in Hrtc; [done| |].
  - unfold MAXFIELDLEN. lia.
  - unfold fp_inv. split_and!; [apply Nat.le_0_l|done|done].
Qed.

(** C35: [int lineno] overflows: on a stream of [INT_MAX] empty lines
    the loop reaches a configuration whose line count exceeds
    [INT_MAX], so the final [lineno++] is a signed overflow. *)
Theorem fp_lineno_overflow cfg (st : conv_state Out) :
  config_wf cfg → st_buf st !!! 0 = DQ →
  ∃ c', rtc (fp_step MAXLINELEN cfg)
      (open_file (replicate (Z.to_nat INT_MAX) LF) false, [], 1, st) c' ∧
    (INT_MAX < Z.of_nat (fp_lineno c'))%Z.
Proof using HL.
  intros Hwf H0.
  destruct (fp_lines_lineno MAXLINELEN cfg (Z.to_nat INT_MAX) [] 1 st
    ltac:(unfold MAXLINELEN; lia) Hwf H0) as (c' & Hrtc & Hl).
  exists c'. split; [done|]. rewrite Hl, Nat2Z.inj_add, Z2Nat.id; unfold INT_MAX; lia.
Qed.
End Claims.

(** ** Witnesses *)

Lemma convert_from_fp_buf_bound_witness :
  ∃ r st', convert_from_fp default_config (open_file ([DQ] ++ b{"a,b"} ++ [LF]) false)
      (init_state ([] : list byte)) = Some (Returned r, st') ∧
    length (st_buf st') ≤ MAXFIELDLEN.
Proof.
  apply convert_from_fp_buf_bound; [decide_by_eval|reflexivity|].
  unfold MAXFIELDLEN, MAXLINELEN. cbn [length st_buf init_state initial_buf]. lia.
Defined.

Lemma fp_step_reads_witness :
  let fp := open_file (b{"ab"} ++ [LF]) false in
  let st := init_state ([] : list byte) in
  fgets 8 fp = (Some (b{"ab"} ++ [LF]), mk_file [] false false false) ∧ 2 = S 1.
Proof.
  intros fp st.
  apply (fp_step_reads 8 default_config fp [] 1 st _ _ _
    (default st (snd <$> convert_line default_config (b{"ab"} ++ [LF]) st))).
  eapply fp_step_read; reflexivity.
Defined.

Lemma fp_step_terminates_witness :
  sn (fp_step 8 default_config) (open_file (b{"a,b"} ++ [LF]) false, [], 1, init_state ([] : list byte)).
Proof. apply fp_step_terminates. lia. Defined.

Lemma fp_step_reaches_eof_witness :
  ∃ c', rtc (fp_step 8 default_config)
      (open_file (b{"a,b"} ++ [LF]) false, [], 1, init_state ([] : list byte)) c' ∧
    nf (fp_step 8 default_config) c' ∧ (fgets 8 (fp_file c')).1 = None.
Proof. apply fp_step_reaches_eof; [lia|decide_by_eval|reflexivity]. Defined.

Lemma state_wf_preserved_witness :
  config_wf default_config ∧
  (state_wf (init_state ([] : list byte)) ∧
  (∀ c (st : conv_state (list byte)), length c ≤ MAXLINELEN → state_wf st →
     ∃ st', convert_field default_config c (length c) st = Some st' ∧ state_wf st') ∧
  (∀ line (st : conv_state (list byte)), length line < MAXLINELEN → state_wf st →
     ∃ st', convert_line default_config line st = Some (0%Z, st') ∧ state_wf st')).
Proof.
  assert (config_wf default_config) as Hwf by decide_by_eval.
  split; [done|]. exact (state_wf_preserved default_config [] Hwf).
Defined.

Lemma fp_reachable_wf_witness :
  config_wf default_config ∧ state_wf (init_state ([] : list byte)) ∧
  ∃ c, rtc (fp_step MAXLINELEN default_config) (open_file [LF] false, [], 1, init_state ([] : list byte)) c ∧
    fp_lineno c = 2 ∧ fp_inv MAXLINELEN MAXFIELDLEN c.
Proof.
  assert (config_wf default_config) as Hwf by decide_by_eval.
  assert (state_wf (init_state ([] : list byte))) as Hst.
  { split; [done|]. cbn [init_state st_buf initial_buf length]. unfold MAXFIELDLEN. lia. }
  destruct (fp_step_read_some MAXLINELEN default_config (open_file [LF] false) [LF]
    (mk_file [] false false false) [] 1 (init_state ([] : list byte)) Hwf eq_refl
    (fgets_lf MAXLINELEN [] ltac:(unfold MAXLINELEN; lia))) as (st' & Hs & _).
  split_and!; [done|done|]. exists (mk_file [] false false false, [LF], 2, st').
  split_and!; [by apply rtc_once|done|].
  exact (fp_reachable_wf default_config [LF] false _ _ Hwf Hst (rtc_once _ _ Hs)).
Defined.

Lemma fp_lineno_overflow_witness :
  ∃ c', rtc (fp_step MAXLINELEN default_config)
      (open_file (replicate (Z.to_nat INT_MAX) LF) false, [], 1, init_state ([] : list byte)) c' ∧
    (INT_MAX < Z.of_nat (fp_lineno c'))%Z.
Proof. apply fp_lineno_overflow; [decide_by_eval|reflexivity]. Defined.

Lemma convert_from_fp_loop_machine_witness :
  (∃ c', rtc (fp_step 8 default_config)
      (open_file (b{"a,b"} ++ [LF]) false, [], 1, init_state ([] : list byte)) c' ∧
    nf (fp_step 8 default_config) c') ∧
  ∀ c', rtc (fp_step 8 default_config)
      (open_file (b{"a,b"} ++ [LF]) false, [], 1, init_state ([] : list byte)) c' →
    nf (fp_step 8 default_config) c' →
    convert_from_fp_loop 6 8 default_config (open_file (b{"a,b"} ++ [LF]) false) [] 1
      (init_state ([] : list byte)) = Some (fp_exit 8 c').
Proof. apply convert_from_fp_loop_machine; [lia|decide_by_eval|reflexivity|simpl; lia]. Defined.
