(* ===== verification/Rfc4180.v ===== *)
(** * The output read back as CSV

    A reader of CSV records and the round trip it makes with the
    converter: the bytes [convert_line] writes for a line, without its
    end-of-line bytes, read back as the record of the line's fields
    after the replacement passes.  The reader has two modes: the lenient
    [parse_record] accepts a CR or LF in an unquoted field, the strict
    [parse_record_rfc] follows RFC 4180, where CR and LF occur only
    inside quotes.  The lenient round trip holds whatever quoting
    decisions the policy makes (the stale [buf[1]] of the BorderSpaces
    policy included), because the code quotes every field that holds a
    double quote or a comma; the strict one holds too when the line's
    own fields have no CR or LF, because the code quotes every field a
    replacement changed, and so every CR or LF it introduced.  A CR in
    a field of the input is written unquoted ([convert_line_bare_cr]).
    Over a whole stream of lines ending in line feeds, [convert_from_fp]
    writes one such record per line, each followed by the line's
    end-of-line bytes. *)

From S2P Require Import Prelude Config Replace Field Line Driver.

(** ** The reader *)

(** Where the reader is in a field: at its start, in an unquoted field,
    inside quotes, or just after a quote inside quotes. *)
Inductive pmode := PStart | PUnquoted | PQuoted | PQuoteSeen.

(** A byte that ends a record outside quotes. *)
Definition eol_byte (b : byte) : bool := bool_decide (b = CR ∨ b = LF).

(** [cur] is the field read so far.  The [strict] reader follows the
    record structure of RFC 4180: outside quotes a field holds no CR or
    LF (its TEXTDATA excludes them, they end the record).  The lenient
    one accepts them there, as many readers do. *)
Fixpoint parse_fields (strict : bool) (m : pmode) (cur : list byte) (l : list byte)
    : option (list (list byte)) :=
  match l with
  | [] => match m with PQuoted => None | _ => Some [cur] end
  | b :: l' =>
      match m with
      | PStart =>
          if decide (b = DQ) then parse_fields strict PQuoted [] l'
          else if decide (b = COMMA) then cons [] <$> parse_fields strict PStart [] l'
          else if strict && eol_byte b then None
          else parse_fields strict PUnquoted [b] l'
      | PUnquoted =>
          if decide (b = COMMA) then cons cur <$> parse_fields strict PStart [] l'
          else if decide (b = DQ) then None
          else if strict && eol_byte b then None
          else parse_fields strict PUnquoted (cur ++ [b]) l'
      | PQuoted =>
          if decide (b = DQ) then parse_fields strict PQuoteSeen cur l'
          else parse_fields strict PQuoted (cur ++ [b]) l'
      | PQuoteSeen =>
          if decide (b = DQ) then parse_fields strict PQuoted (cur ++ [DQ]) l'
          else if decide (b = COMMA) then cons cur <$> parse_fields strict PStart [] l'
          else None
      end
  end.

Definition parse_record (l : list byte) : option (list (list byte)) := parse_fields false PStart [] l.

(** The strict reader: a record in the sense of RFC 4180. *)
Definition parse_record_rfc (l : list byte) : option (list (list byte)) :=
  parse_fields true PStart [] l.

(** A field may be written without quotes only when it has neither a
    double quote nor a comma, and, for the strict reader, neither a CR
    nor an LF. *)
Definition quote_ok (strict q : bool) (f : list byte) : Prop :=
  q = false → DQ ∉ f ∧ COMMA ∉ f ∧ (strict = true → CR ∉ f ∧ LF ∉ f).

(** A record written as the code writes it: the first field, then each
    other one after a comma. *)
Definition record_bytes (p : bool * list byte) (ps : list (bool * list byte)) : list byte :=
  csv_field p.1 p.2 ++ concat (map (λ p, COMMA :: csv_field p.1 p.2) ps).

(** What one input line became: [w] is a record that reads back as the
    line's fields after the replacement passes, [t] its end-of-line
    bytes. *)
Definition line_record (cfg : config) (l : list byte) (p : list byte * list byte) : Prop :=
  ∃ fs vs, line_split (delimiter cfg) l fs p.2 ∧ parse_record p.1 = Some vs ∧
    Forall2 (λ c v, ∃ hit, field_replaced cfg c v hit) fs vs ∧
    (Forall (λ f, CR ∉ f ∧ LF ∉ f) fs → parse_record_rfc p.1 = Some vs).

(** How a field was written: [p.2] is the field after the replacement
    passes and [p.1] the quoting decision the code made for it. *)
Definition field_written (cfg : config) (c : list byte) (p : bool * list byte) : Prop :=
  ∃ hit stale, field_replaced cfg c p.2 hit ∧ p.1 = needs_quote (quote_style cfg) stale p.2 hit.

(** ** Reading one field back *)

Section Fields.
Implicit Types (f cur rest : list byte).

Lemma eol_byte_false strict b :
  (strict = true → b ≠ CR ∧ b ≠ LF) → strict && eol_byte b = false.
Proof.
  intros H. destruct strict; [|done]. unfold eol_byte.
  destruct (H eq_refl). by rewrite bool_decide_eq_false_2 by naive_solver.
Qed.

Lemma parse_unquoted strict cur f rest :
  DQ ∉ f → COMMA ∉ f → (strict = true → CR ∉ f ∧ LF ∉ f) →
  parse_fields strict PUnquoted cur (f ++ rest) =
    match rest with
    | [] => Some [cur ++ f]
    | _ => parse_fields strict PUnquoted (cur ++ f) rest
    end.
Proof.
  revert cur. induction f as [|b f IH]; intros cur Hdq Hc He.
  - rewrite app_nil_r. by destruct rest.
  - cbn [parse_fields app]. rewrite !decide_False by set_solver.
    rewrite eol_byte_false by set_solver.
    rewrite IH by set_solver. by rewrite <-app_assoc.
Qed.

Lemma parse_quoted strict cur f rest :
  parse_fields strict PQuoted cur (escape f ++ DQ :: rest) =
    parse_fields strict PQuoteSeen (cur ++ f) rest.
Proof.
  revert cur. induction f as [|b f IH]; intros cur.
  - cbn [parse_fields app escape flat_map]. rewrite decide_True by done. by rewrite app_nil_r.
  - cbn [escape flat_map]. fold (escape f). unfold escape_byte.
    case_decide as Hb; cbn [parse_fields app].
    + subst. rewrite decide_True by done. cbn [parse_fields]. rewrite decide_True by done.
      rewrite IH. by rewrite <-app_assoc.
    + rewrite decide_False by done. rewrite IH. by rewrite <-app_assoc.
Qed.

(** A field written by [csv_field] followed by a comma is read back, and
    reading goes on at the start of the next field. *)
Lemma parse_csv_field_comma strict q f rest :
  quote_ok strict q f →
  parse_fields strict PStart [] (csv_field q f ++ COMMA :: rest) =
    cons f <$> parse_fields strict PStart [] rest.
Proof.
  intros Hq. destruct q; unfold csv_field.
  - rewrite <-!app_assoc. cbn [app parse_fields]. rewrite decide_True by done.
    rewrite parse_quoted. cbn [parse_fields]. by rewrite decide_False, decide_True by done.
  - destruct (Hq eq_refl) as (Hdq & Hc & He). rewrite escape_no_dq by done.
    destruct f as [|b f]; cbn [app parse_fields]; [by rewrite decide_False, decide_True by done|].
    rewrite !decide_False by set_solver. rewrite eol_byte_false by set_solver.
    rewrite parse_unquoted by set_solver. cbn [parse_fields]. by rewrite decide_True.
Qed.

Lemma parse_csv_field_end strict q f :
  quote_ok strict q f → parse_fields strict PStart [] (csv_field q f) = Some [f].
Proof.
  intros Hq. destruct q; unfold csv_field.
  - cbn [app parse_fields]. rewrite decide_True by done. rewrite parse_quoted. done.
  - destruct (Hq eq_refl) as (Hdq & Hc & He). rewrite escape_no_dq by done.
    destruct f as [|b f]; [done|]. cbn [parse_fields]. rewrite !decide_False by set_solver.
    rewrite eol_byte_false by set_solver.
    rewrite <-(app_nil_r f), parse_unquoted by set_solver. by rewrite app_nil_r.
Qed.

Lemma parse_record_bytes strict p ps :
  Forall (λ p, quote_ok strict p.1 p.2) (p :: ps) →
  parse_fields strict PStart [] (record_bytes p ps) = Some (p.2 :: map snd ps).
Proof.
  unfold record_bytes. revert p.
  induction ps as [|p' ps IH]; intros p Hps; inversion Hps as [|? ? Hp Hps']; subst.
  - cbn [map concat]. rewrite app_nil_r. by apply parse_csv_field_end.
  - cbn [map concat]. rewrite <-app_comm_cons, parse_csv_field_comma by done.
    by rewrite (IH p') by done.
Qed.
End Fields.

(** ** The fields of a line, read back *)

(** A pass that did not fire leaves the field as it was. *)
Lemma pass_spec_nohit p repl c c' : pass_spec p repl c c' false → c' = c.
Proof.
  destruct p as [pat|]; simpl; [|naive_solver]. intros (k & Hr & Hk).
  destruct k; [|by rewrite bool_decide_eq_true_2 in Hk by lia].
  by apply replaced_zero in Hr as [-> _].
Qed.

Lemma field_replaced_nohit cfg c f : field_replaced cfg c f false → f = c.
Proof.
  intros (c1 & h1 & h2 & H1 & H2 & Hh). symmetry in Hh. apply orb_false_iff in Hh as [-> ->].
  rewrite (pass_spec_nohit _ _ _ _ H2). by apply (pass_spec_nohit _ _ _ _ H1).
Qed.

(** The code's quoting decision is safe for the lenient reader, and for
    the strict one when the input field had no CR or LF: a field that a
    replacement changed is always quoted. *)
Lemma field_written_quote_ok cfg strict c p :
  field_written cfg c p → (strict = true → CR ∉ c ∧ LF ∉ c) → quote_ok strict p.1 p.2.
Proof.
  destruct p as [q f]. intros (hit & stale & Hf & ->) He. unfold quote_ok, needs_quote.
  cbn [fst snd] in *.
  intros Hq. apply orb_false_iff in Hq as [Hq Hc]. apply orb_false_iff in Hq as [Hq _].
  apply orb_false_iff in Hq as [-> Hdq]. apply bool_decide_eq_false in Hdq, Hc.
  split_and!; [done|done|]. rewrite (field_replaced_nohit _ _ _ Hf). done.
Qed.

Lemma field_written_quote_ok_all cfg strict cs ps :
  Forall2 (field_written cfg) cs ps → (strict = true → Forall (λ c, CR ∉ c ∧ LF ∉ c) cs) →
  Forall (λ p, quote_ok strict p.1 p.2) ps.
Proof.
  induction 1 as [|c p cs ps Hw _ IH]; intros He; constructor.
  - apply (field_written_quote_ok cfg _ c); [done|]. intros Hs. by apply Forall_inv in He.
  - apply IH. intros Hs. by apply Forall_inv_tail in He.
Qed.

Lemma field_written_replaced cfg cs ps :
  Forall2 (field_written cfg) cs ps →
  Forall2 (λ c v, ∃ hit, field_replaced cfg c v hit) cs (snd <$> ps).
Proof.
  intros H. apply Forall2_fmap_r. eapply Forall2_impl; [exact H|]. intros c p (hit & _ & Hf & _).
  by exists hit.
Qed.

(** The fields encoded after the first: each after a comma. *)
Lemma fields_encoded_rest cfg a cs a' :
  fields_encoded cfg a cs a' → a_sol a = false →
  ∃ ps, Forall2 (field_written cfg) cs ps ∧
    a_out a' = a_out a ++ concat (map (λ p, COMMA :: csv_field p.1 p.2) ps).
Proof.
  induction 1 as [a|a c f hit cs a' Hf _ IH]; intros Hsol.
  - exists []. by rewrite app_nil_r.
  - destruct IH as (ps & Hps & Hout); [done|].
    set (q := needs_quote (quote_style cfg) (a_stale a) f hit).
    exists ((q, f) :: ps). split.
    + constructor; [by exists hit, (a_stale a)|done].
    + rewrite Hout. unfold encode_field_spec. cbn [a_out a_sol]. rewrite Hsol.
      by rewrite <-!app_assoc.
Qed.

Lemma fields_encoded_record cfg a c cs a' :
  fields_encoded cfg a (c :: cs) a' → a_sol a = true →
  ∃ p ps, Forall2 (field_written cfg) (c :: cs) (p :: ps) ∧ a_out a' = a_out a ++ record_bytes p ps.
Proof.
  inversion 1 as [|? ? f hit ? ? Hf Hrest]; subst. intros Hsol.
  destruct (fields_encoded_rest _ _ _ _ Hrest eq_refl) as (ps & Hps & Hout).
  set (q := needs_quote (quote_style cfg) (a_stale a) f hit).
  exists (q, f), ps. split.
  - constructor; [by exists hit, (a_stale a)|done].
  - rewrite Hout. unfold encode_field_spec, record_bytes. cbn [a_out a_sol fst snd].
    rewrite Hsol. simpl. by rewrite <-!app_assoc.
Qed.

(** The round trip on the abstract run of a line: what it writes before
    the end-of-line bytes reads back as the fields after replacement,
    and is a record of RFC 4180 when the fields have no CR or LF. *)
Lemma line_spec_parse cfg a fs t a' :
  fs ≠ [] → a_sol a = true → line_spec cfg a fs t a' →
  ∃ w vs, a_out a' = a_out a ++ w ++ t ∧ parse_record w = Some vs ∧
    Forall2 (λ c v, ∃ hit, field_replaced cfg c v hit) fs vs ∧
    (Forall (λ f, CR ∉ f ∧ LF ∉ f) fs → parse_record_rfc w = Some vs).
Proof.
  intros Hne Hsol (a1 & Henc & ->). destruct fs as [|c cs]; [done|].
  destruct (fields_encoded_record _ _ _ _ _ Henc Hsol) as (p & ps & Hps & Hout).
  exists (record_bytes p ps), (p.2 :: map snd ps). split_and!.
  - destruct t; cbn [a_out]; rewrite Hout; by rewrite ?app_nil_r, <-?app_assoc.
  - apply parse_record_bytes. by eapply field_written_quote_ok_all.
  - change (p.2 :: map snd ps) with (snd <$> (p :: ps)). by eapply field_written_replaced.
  - intros Hfs. apply parse_record_bytes. by eapply field_written_quote_ok_all.
Qed.

(** After a line with end-of-line bytes the next field starts a line. *)
Lemma line_spec_sol cfg a fs t a' : t ≠ [] → line_spec cfg a fs t a' → a_sol a' = true.
Proof. intros Ht (a1 & _ & ->). by destruct t. Qed.

(** The round trip over a stream of lines that each end in a line feed
    and hold no NUL. *)
Lemma stream_spec_parse cfg a ls a' :
  delimiter cfg ≠ LF → a_sol a = true →
  Forall (λ l, ∃ l', l = l' ++ [LF] ∧ NUL ∉ l') ls → stream_spec cfg a ls a' →
  ∃ recs, a_out a' = a_out a ++ concat (map (λ p, p.1 ++ p.2) recs) ∧
    Forall2 (line_record cfg) ls recs.
Proof.
  intros Hd Hsol Hls H. revert Hsol Hls.
  induction H as [|a l fs t a1 ls a' Hs Hl _ IH]; intros Hsol Hls.
  - exists []. by rewrite app_nil_r.
  - inversion Hls as [|? ? (l' & -> & Hnul) Hls']; subst.
    rewrite cstring_id in Hs by set_solver.
    destruct (line_spec_parse cfg a fs t a1 (proj1 Hs) Hsol Hl) as (w & vs & Hout & Hw & Hvs & Hrfc).
    pose proof (line_split_eol_nonempty _ _ fs t l' Hd eq_refl Hs) as Ht.
    destruct (IH (line_spec_sol _ _ _ _ _ Ht Hl) Hls') as (recs & Hout' & Hrecs).
    exists ((w, t) :: recs). split.
    + rewrite Hout', Hout. simpl. by rewrite <-!app_assoc.
    + constructor; [by exists fs, vs|done].
Qed.

Section Claims.
Context {Out : Type} `{!Sink Out} `{HL : !SinkLaws Out}.
Implicit Types (st : conv_state Out).

(** C6: the output is CSV that reads back as the input: for a
    well-formed configuration, what [convert_line] writes for a line,
    before its end-of-line bytes, is a record whose fields are the
    line's fields after the replacement passes, whatever the quoting
    policy; and when no field of the line holds a CR or an LF it is a
    record of RFC 4180, which admits a CR or LF only inside quotes: a
    CR or LF that a replacement put into a field is quoted. *)
Theorem convert_line_roundtrip cfg line st :
  config_wf cfg → st_buf st !!! 0 = DQ → st_start_of_line st = true →
  ∃ fs t st' w vs, line_split (delimiter cfg) line fs t ∧
    convert_line cfg line st = Some (0%Z, st') ∧
    sink_bytes (st_out st') = sink_bytes (st_out st) ++ w ++ t ∧ parse_record w = Some vs ∧
    Forall2 (λ c v, ∃ hit, field_replaced cfg c v hit) fs vs ∧
    (Forall (λ f, CR ∉ f ∧ LF ∉ f) fs → parse_record_rfc w = Some vs).
Proof using HL.
  intros Hwf H0 Hsol.
  destruct (convert_line_some cfg line st Hwf H0) as (st' & Hrun).
  destruct (convert_line_run cfg line st 0%Z st' Hwf H0 Hrun) as (_ & fs & t & Hsplit & Hspec & _).
  destruct (line_spec_parse cfg (abs st) fs t (abs st') (proj1 Hsplit) Hsol Hspec)
    as (w & vs & Hout & Hw & Hvs & Hrfc).
  by exists fs, t, st', w, vs.
Qed.

(** C19: without replacement rules the record read back is exactly the
    line's fields, for any delimiter and quoting policy. *)
Theorem convert_line_roundtrip_exact cfg line st :
  delimiter cfg ≠ NUL → r_replacement cfg = None → n_replacement cfg = None →
  st_buf st !!! 0 = DQ → st_start_of_line st = true →
  ∃ fs t st' w, line_split (delimiter cfg) line fs t ∧
    convert_line cfg line st = Some (0%Z, st') ∧
    sink_bytes (st_out st') = sink_bytes (st_out st) ++ w ++ t ∧ parse_record w = Some fs.
Proof using HL.
  intros Hd Hr Hn H0 Hsol.
  assert (config_wf cfg) as Hwf by (split; [done|by split; rewrite ?Hr, ?Hn]).
  destruct (convert_line_some cfg line st Hwf H0) as (st' & Hrun).
  destruct (convert_line_run cfg line st 0%Z st' Hwf H0 Hrun) as (_ & fs & t & Hsplit & Hspec & _).
  destruct (line_spec_parse cfg (abs st) fs t (abs st') (proj1 Hsplit) Hsol Hspec)
    as (w & vs & Hout & Hw & Hvs & _).
  exists fs, t, st', w. split_and!; [done..|]. rewrite Hw. f_equal.
  clear -Hvs Hr Hn. induction Hvs as [|c v fs vs (hit & Hf) _ IH]; [done|].
  destruct (field_replaced_none cfg c v hit Hr Hn Hf) as [-> _]. by rewrite IH.
Qed.

(** C7: a stream of lines that each end in a line feed, fit in the
    [n]-byte array and hold no NUL is converted to a CSV stream: one
    record per input line, each followed by the line's end-of-line
    bytes and reading back as its fields after substitution, as a
    record of RFC 4180 when its fields hold no CR or LF. *)
Theorem convert_from_fp_roundtrip n cfg ls st :
  2 ≤ n → config_wf cfg → delimiter cfg ≠ LF →
  Forall (λ l, lf_line (n - 1) l ∧ NUL ∉ l) ls →
  st_start_of_line st = true → st_buf st !!! 0 = DQ →
  ∃ st' recs, convert_from_fp_n n cfg (open_file (concat ls) false) st = Some (Returned 0%Z, st') ∧
    sink_bytes (st_out st') = sink_bytes (st_out st) ++ concat (map (λ p, p.1 ++ p.2) recs) ∧
    Forall2 (line_record cfg) ls recs.
Proof using HL.
  intros Hn Hwf Hd Hls Hsol H0.
  destruct (convert_from_fp_clean n cfg (concat ls) st Hn Hwf H0)
    as (cs & st' & Hch & Hrun & Hspec & _).
  assert (Forall (lf_line (n - 1)) ls) as Hlf by (eapply Forall_impl; [exact Hls|naive_solver]).
  rewrite (chunked_det _ _ _ _ Hch (chunked_lf_lines _ _ Hlf)) in Hspec.
  destruct (stream_spec_parse cfg (abs st) ls (abs st') Hd Hsol) as (recs & Hout & Hrecs);
    [|done|].
  - eapply Forall_impl; [exact Hls|]. intros l ((l' & -> & _) & Hnul). exists l'. set_solver.
  - by exists st', recs.
Qed.
End Claims.

(** ** Witnesses *)

Lemma convert_line_roundtrip_witness :
  ∃ fs t st' w vs, line_split TAB (b{"x\ny"} ++ [TAB] ++ [DQ] ++ [LF]) fs t ∧
    convert_line (with_n_replacement b{"\n"} (with_delimiter TAB default_config))
      (b{"x\ny"} ++ [TAB] ++ [DQ] ++ [LF]) (init_state ([] : list byte)) = Some (0%Z, st') ∧
    sink_bytes (st_out st') = sink_bytes (st_out (init_state ([] : list byte))) ++ w ++ t ∧
    parse_record w = Some vs ∧
    Forall2 (λ c v, ∃ hit, field_replaced (with_n_replacement b{"\n"} (with_delimiter TAB default_config)) c v hit) fs vs ∧
    (Forall (λ f, CR ∉ f ∧ LF ∉ f) fs → parse_record_rfc w = Some vs).
Proof.
  apply (convert_line_roundtrip (with_n_replacement b{"\n"} (with_delimiter TAB default_config)));
    [decide_by_eval|reflexivity|reflexivity].
Defined.

Lemma convert_line_roundtrip_exact_witness :
  ∃ fs t st' w, line_split TAB (b{"a,b"} ++ [TAB] ++ [DQ] ++ [CR; LF]) fs t ∧
    convert_line (with_quote_style QS_BORDER_SPACES (with_delimiter TAB default_config))
      (b{"a,b"} ++ [TAB] ++ [DQ] ++ [CR; LF]) (init_state ([] : list byte)) = Some (0%Z, st') ∧
    sink_bytes (st_out st') = sink_bytes (st_out (init_state ([] : list byte))) ++ w ++ t ∧
    parse_record w = Some fs.
Proof.
  apply (convert_line_roundtrip_exact (with_quote_style QS_BORDER_SPACES (with_delimiter TAB default_config)));
    reflexivity || discriminate.
Defined.

Lemma convert_from_fp_roundtrip_witness :
  ∃ st' recs, convert_from_fp_n 8 default_config
      (open_file (concat [b{"a,b"} ++ [TAB; DQ; LF]; [CR; LF]]) false) (init_state ([] : list byte)) =
      Some (Returned 0%Z, st') ∧
    sink_bytes (st_out st') = sink_bytes (st_out (init_state ([] : list byte))) ++
      concat (map (λ p, p.1 ++ p.2) recs) ∧
    Forall2 (line_record default_config) [b{"a,b"} ++ [TAB; DQ; LF]; [CR; LF]] recs.
Proof.
  apply (convert_from_fp_roundtrip 8 default_config); [lia|decide_by_eval|discriminate| |reflexivity|reflexivity].
  apply List.Forall_cons; [|apply List.Forall_cons; [|apply List.Forall_nil]]; split; try decide_by_eval.
  - exists (b{"a,b"} ++ [TAB; DQ]). split_and!; [reflexivity|decide_by_eval|simpl; lia].
  - exists [CR]. split_and!; [reflexivity|decide_by_eval|simpl; lia].
Defined.
