(* ===== verification/Sinks.v ===== *)
(** * What reaches the device

    [csv.c] calls three output functions: [write_character] and
    [write_string], and [flush_output] once, at end of file (line 270).
    [writes] is a sequence of calls of the two write functions.  Every
    layer takes the sink to its result's by [writes], and so does the
    driver on every path but the return at end of file, which is the
    only one that flushes.  With the stdio-like [buffered_sink], a
    failing stream therefore leaves everything written below the
    buffer's capacity undelivered. *)

From stdpp Require Import relations.
From S2P Require Import Prelude Config Replace Field Line Driver.

(** One call of an output function other than [flush_output]; [writes]
    is a sequence of them. *)
Inductive write_step {Out : Type} `{!Sink Out} : Out → Out → Prop :=
  | write_step_char c s : write_step s (write_character c s)
  | write_step_string b s : write_step s (write_string b s).

Definition writes {Out : Type} `{!Sink Out} : Out → Out → Prop := rtc write_step.

(** ** Runs that do not flush

    Apart from the [flush_output] at end of file, the conversion only
    writes: each layer takes its sink to the result's by [writes]. *)

Section Writes.
Context {Out : Type} `{!Sink Out} `{HL : !SinkLaws Out}.
Implicit Types (st : conv_state Out).

Lemma writes_bytes (s s' : Out) : writes s s' → sink_bytes s `prefix_of` sink_bytes s'.
Proof using HL.
  induction 1 as [|s s1 s' Hs _ IH]; [done|]. etrans; [|exact IH].
  destruct Hs; autorewrite with uncsv_rw; by apply prefix_app_r.
Qed.

Lemma convert_field_writes cfg c len st st' :
  convert_field cfg c len st = Some st' → writes (st_out st) (st_out st').
Proof.
  unfold convert_field.
  destruct (apply_replacement (r_replacement cfg) CR c len false) as [[[c1 len1] q1]|];
    simpl; [|done].
  destruct (apply_replacement (n_replacement cfg) LF c1 len1 q1) as [[[c2 len2] q2]|];
    simpl; [|done].
  destruct (escape_loop c2 len2 (st_buf st) 1 q2) as [[[[c' len'] buf'] cur'] q'].
  destruct (if style_quoted _ _ _ _ _ then true else _); intros [= <-]; simpl.
  all: eapply rtc_r; [|constructor].
  all: destruct (st_start_of_line st); [done|apply rtc_once; constructor].
Qed.

Lemma convert_line_loop_writes fuel cfg cur st st' :
  convert_line_loop fuel cfg cur st = Some st' → writes (st_out st) (st_out st').
Proof.
  revert cur st. induction fuel as [|fuel IH]; intros cur st; simpl; [done|].
  destruct (strchr cur (delimiter cfg)) as [i|].
  - destruct (convert_field cfg (take i cur) i st) as [st1|] eqn:Hf; simpl; [|done].
    intros Hrun. etrans; [by eapply convert_field_writes|by eapply IH].
  - destruct (strpbrk cur [CR; LF]) as [i|]; [|apply convert_field_writes].
    destruct (convert_field cfg (take i cur) i st) as [st1|] eqn:Hf; simpl; [|done].
    intros [= <-]. simpl. eapply rtc_r; [by eapply convert_field_writes|constructor].
Qed.

Lemma convert_line_writes cfg line st r st' :
  convert_line cfg line st = Some (r, st') → writes (st_out st) (st_out st').
Proof.
  unfold convert_line. destruct (convert_line_loop _ cfg line st) eqn:Hl; simpl; [|done].
  intros [= _ <-]. by eapply convert_line_loop_writes.
Qed.

(** Every outcome but the return at end of file leaves the output as
    written, unflushed. *)
Lemma convert_from_fp_loop_writes fuel n cfg fp line lineno st o st' :
  convert_from_fp_loop fuel n cfg fp line lineno st = Some (o, st') → o ≠ Returned 0%Z →
  writes (st_out st) (st_out st').
Proof.
  revert fp line lineno st. induction fuel as [|fuel IH]; intros fp line lineno st; simpl; [done|].
  destruct (fgets n fp) as [res fp'].
  assert (∀ l, ('(retcode, st1) ← convert_line cfg (cstring l) st;
     if decide (retcode ≠ 0%Z) then Some (Exited 100, st1)
     else convert_from_fp_loop fuel n cfg fp' l (S lineno) st1) = Some (o, st') →
     o ≠ Returned 0%Z → writes (st_out st) (st_out st')) as Hconv.
  { intros l. destruct (convert_line cfg (cstring l) st) as [[r st1]|] eqn:Hl; simpl; [|done].
    apply convert_line_writes in Hl.
    case_decide; [intros [= _ <-] _; done|]. intros Hrun Ho. etrans; [exact Hl|by eapply IH]. }
  destruct res as [l|]; [apply Hconv|].
  destruct (f_err fp'); [intros [= _ <-] _; done|].
  destruct (f_eof fp'); [by intros [= <- _]|apply Hconv].
Qed.
End Writes.

(** A buffered sink that has delivered nothing delivers nothing while
    fewer than [cap] bytes have been written. *)
Lemma bs_writes_quiet cap (s s' : bsink) :
  @writes _ (buffered_sink cap) s s' → bs_device s = [] →
  length (bs_device s' ++ bs_pending s') < cap → bs_device s' = [].
Proof.
  induction 1 as [|s s1 s' Hs Hw IH]; intros Hd Hlen; [done|].
  apply IH; [|done].
  pose proof (prefix_length _ _ (@writes_bytes _ _ (buffered_sink_laws cap) _ _ Hw)) as Hle.
  destruct Hs as [c s|b s]; cbn [write_character write_string sink_bytes buffered_sink] in *;
    unfold bs_put in *; rewrite Hd in *; case_decide; simpl in *; try done;
    rewrite ?app_nil_r in Hle; lia.
Qed.

(** C38: the output is not flushed on a read error: with a stdio-like
    buffer of [cap] bytes that has delivered nothing, [convert_from_fp]
    returns -1 on any stream that fails, and when it has written fewer
    than [cap] bytes in all, none of them reaches the device. *)
Theorem convert_from_fp_error_unflushed cap n cfg data (st : conv_state bsink) :
  2 ≤ n → config_wf cfg → st_buf st !!! 0 = DQ → bs_device (st_out st) = [] →
  ∃ st', @convert_from_fp_n _ (buffered_sink cap) n cfg (open_file data true) st
      = Some (Returned (-1)%Z, st') ∧
    (length (@sink_bytes _ (buffered_sink cap) (st_out st')) < cap →
     @sink_delivered _ (buffered_sink cap) (st_out st') = []).
Proof.
  intros Hn Hwf H0 Hd.
  destruct (@convert_from_fp_loop_refines _ (buffered_sink cap) (buffered_sink_laws cap)
    (S (S (length data))) n cfg (open_file data true) [] 1 st Hn Hwf eq_refl ltac:(simpl; lia) H0)
    as (cs & lost & r & st' & _ & Hrun & _ & _ & Hr).
  simpl in Hr. destruct Hr as [-> _].
  exists st'. split; [done|]. intros Hlen.
  apply (bs_writes_quiet cap (st_out st)); [|done|done].
  eapply (@convert_from_fp_loop_writes _ (buffered_sink cap)); [exact Hrun|discriminate].
Qed.

(** ** Witnesses *)

Lemma convert_from_fp_error_unflushed_witness :
  ∃ st', @convert_from_fp_n _ (buffered_sink 4096) 8 default_config
      (open_file (b{"a,b"} ++ [LF]) true) (init_state (mk_bsink [] [])) = Some (Returned (-1)%Z, st') ∧
    (length (@sink_bytes _ (buffered_sink 4096) (st_out st')) < 4096 →
     @sink_delivered _ (buffered_sink 4096) (st_out st') = []).
Proof. apply convert_from_fp_error_unflushed; [lia|decide_by_eval|reflexivity|reflexivity]. Defined.
