(* ===== verification/Calls.v ===== *)
(** * Successive calls of [convert_from_fp]

    [convert_from_fp] (csv.c line 247) is the exported entry point; it
    is called once per input stream, and the static [buf] and the global
    [start_of_line] (line 39) keep their values from one call to the
    next: nothing in the function resets them.  This file composes two
    calls.  The abstract runs [fields_encoded], [line_spec] and
    [stream_spec] are deterministic, and a run over the concatenation
    of two lists of chunks splits into a run over each; with the
    refinement theorem of [Driver] this gives:
    - a stream of whole lines followed by any stream is converted as
      their concatenation is: two calls compose;
    - a stream whose last line has no line terminator leaves
      [start_of_line] false, so the next call writes a comma before its
      first field and the two lines are joined;
    - a line with a NUL byte is converted as a stream that ends at the
      NUL followed by a second call on the rest of the stream, since
      the converter sees the array as a C string. *)

From S2P Require Import Prelude Config Replace Field Line Driver.

(** ** The abstract runs are deterministic *)

Lemma fields_encoded_det cfg a fs a1 a2 :
  fields_encoded cfg a fs a1 → fields_encoded cfg a fs a2 → a1 = a2.
Proof.
  intros H1. revert a2.
  induction H1 as [|a c f hit fs a1 Hf _ IH]; intros a2 H2; inversion H2 as [|? ? f' hit' ? ? Hf' Henc']; subst;
    [done|].
  destruct (field_replaced_det _ _ _ _ _ _ Hf Hf') as [<- <-]. by apply IH.
Qed.

Lemma line_spec_det cfg a fs t a1 a2 :
  line_spec cfg a fs t a1 → line_spec cfg a fs t a2 → a1 = a2.
Proof.
  intros (b1 & H1 & ->) (b2 & H2 & ->). by rewrite (fields_encoded_det _ _ _ _ _ H1 H2).
Qed.

Lemma stream_spec_det cfg a ls a1 a2 :
  stream_spec cfg a ls a1 → stream_spec cfg a ls a2 → a1 = a2.
Proof.
  intros H1. revert a2.
  induction H1 as [|a l fs t b ls a1 Hs Hl _ IH]; intros a2 H2;
    inversion H2 as [|? ? fs' t' b' ? ? Hs' Hl' Hrest]; subst; [done|].
  destruct (line_split_det _ _ _ _ _ _ Hs Hs') as [<- <-].
  rewrite (line_spec_det _ _ _ _ _ _ Hl Hl') in IH. by apply IH.
Qed.

(** A run over [ls1 ++ ls2] passes through a state between the two. *)
Lemma stream_spec_app cfg a ls1 ls2 a' :
  stream_spec cfg a (ls1 ++ ls2) a' →
  ∃ a1, stream_spec cfg a ls1 a1 ∧ stream_spec cfg a1 ls2 a'.
Proof.
  revert a. induction ls1 as [|l ls1 IH]; intros a H.
  - exists a. split; [constructor|done].
  - inversion H as [|? ? fs t b ? ? Hs Hl Hrest]; subst.
    destruct (IH b Hrest) as (a1 & H1 & H2). exists a1. split; [|done].
    by eapply stream_spec_cons.
Qed.

(** ** Chunks *)

(** Whole lines are cut where they end, whatever follows them. *)
Lemma chunked_lf_app k ls d cs :
  Forall (lf_line k) ls → chunked k d cs → chunked k (concat ls ++ d) (ls ++ cs).
Proof.
  induction 1 as [|l ls (l' & -> & Hlf & Hlen) _ IH]; intros Hd; [done|].
  simpl. rewrite <-app_assoc. apply chunked_cons; [|by apply IH].
  split_and!; [by destruct l'|done|left; by exists l'].
Qed.

Lemma chunked_nonempty k d cs : d ≠ [] → chunked k d cs → cs ≠ [].
Proof. intros Hd Hc ->. by apply Hd, (chunked_nil_inv' k d []). Qed.

(** A run depends on a chunk only through its C string. *)
Lemma stream_spec_cstring cfg a l l' ls a' :
  cstring l = cstring l' → stream_spec cfg a (l :: ls) a' → stream_spec cfg a (l' :: ls) a'.
Proof.
  intros Hc H. inversion H as [|? ? fs t b ? ? Hs Hl Hrest]; subst.
  rewrite Hc in Hs. by eapply stream_spec_cons.
Qed.

(** ** Facts on a run's line-start flag and output *)

(** A line with no CR or LF has no end-of-line bytes. *)
Lemma line_split_no_eol d l fs t :
  Forall (λ b, b ≠ LF ∧ b ≠ CR) l → line_split d l fs t → t = [].
Proof.
  intros Hl (_ & -> & _ & _ & _ & [->|(b & t' & -> & Hb)]); [done|].
  rewrite Forall_app, Forall_cons in Hl. destruct Hl as (_ & [HLF HCR] & _).
  unfold is_eol in Hb. set_solver.
Qed.

(** After such a line the flag is off. *)
Lemma stream_spec_last_sol cfg a ls l a' :
  Forall (λ b, b ≠ LF ∧ b ≠ CR ∧ b ≠ NUL) l → stream_spec cfg a (ls ++ [l]) a' →
  a_sol a' = false.
Proof.
  intros Hl (a1 & _ & H)%stream_spec_app.
  inversion H as [|? ? fs t b ? ? Hs (b1 & Henc & ->) Hnil]; subst.
  inversion Hnil; subst.
  rewrite cstring_id in Hs by (intros Hn; eapply Forall_forall in Hl; [|exact Hn]; naive_solver).
  rewrite (line_split_no_eol _ l fs t) by (done || (eapply Forall_impl; [exact Hl|naive_solver])).
  eapply fields_encoded_sol; [apply (proj1 Hs)|done].
Qed.

(** A run over at least one chunk, from a state whose flag is off,
    writes a comma first. *)
Lemma stream_spec_first_comma cfg a ls a' :
  a_sol a = false → ls ≠ [] → stream_spec cfg a ls a' →
  ∃ rest, a_out a' = a_out a ++ COMMA :: rest.
Proof.
  intros Hsol Hne H. destruct H as [|a l fs t b ls a' Hs Hl Hrest]; [done|].
  destruct fs as [|f fs]; [by destruct Hs|].
  pose proof (line_spec_first _ _ _ _ _ _ Hl) as Hp. rewrite Hsol in Hp.
  assert ((a_out a ++ field_sep false) `prefix_of` a_out a') as (rest & Hrest')
    by (etrans; [exact Hp|exact (stream_spec_mono _ _ _ _ Hrest)]).
  exists rest. by rewrite Hrest', <-app_assoc.
Qed.

Section Calls.
Context {Out : Type} `{!Sink Out} `{HL : !SinkLaws Out}.
Implicit Types (st : conv_state Out).

(** ** Properties *)

(** C20: two calls compose: converting a stream of whole lines (each
    ending in a line feed, within the array) and then any other stream
    leaves the same state ([buf[1]], [start_of_line] and the bytes
    written) as converting their concatenation in one call. *)
Theorem convert_from_fp_calls_concat n cfg ls1 d2 st :
  2 ≤ n → config_wf cfg → st_buf st !!! 0 = DQ → Forall (lf_line (n - 1)) ls1 →
  ∃ st1 st2 st12,
    convert_from_fp_n n cfg (open_file (concat ls1) false) st = Some (Returned 0%Z, st1) ∧
    convert_from_fp_n n cfg (open_file d2 false) st1 = Some (Returned 0%Z, st2) ∧
    convert_from_fp_n n cfg (open_file (concat ls1 ++ d2) false) st = Some (Returned 0%Z, st12) ∧
    abs st2 = abs st12.
Proof using HL.
  intros Hn Hwf H0 Hls.
  destruct (convert_from_fp_clean n cfg (concat ls1) st Hn Hwf H0) as (cs1 & st1 & Hc1 & Hr1 & Hs1 & H1).
  destruct (convert_from_fp_clean n cfg d2 st1 Hn Hwf H1) as (cs2 & st2 & Hc2 & Hr2 & Hs2 & _).
  destruct (convert_from_fp_clean n cfg (concat ls1 ++ d2) st Hn Hwf H0)
    as (cs12 & st12 & Hc12 & Hr12 & Hs12 & _).
  exists st1, st2, st12. split_and!; [done..|].
  rewrite (chunked_det _ _ _ _ Hc1 (chunked_lf_lines _ _ Hls)) in Hs1.
  rewrite (chunked_det _ _ _ _ Hc12 (chunked_lf_app _ _ _ _ Hls Hc2)) in Hs12.
  destruct (stream_spec_app _ _ _ _ _ Hs12) as (a1 & Ha1 & Ha2).
  rewrite <-(stream_spec_det _ _ _ _ _ Hs1 Ha1) in Ha2.
  exact (stream_spec_det _ _ _ _ _ Hs2 Ha2).
Qed.

(** C32: a stream whose last line has no line terminator leaves
    [start_of_line] false, and the next call, on any nonempty stream,
    writes a comma before anything else: the last line of the first
    stream and the first line of the second are joined into one
    record. *)
Theorem convert_from_fp_calls_join n cfg ls1 l d2 st :
  2 ≤ n → config_wf cfg → st_buf st !!! 0 = DQ → Forall (lf_line (n - 1)) ls1 →
  l ≠ [] → length l ≤ n - 1 → Forall (λ b, b ≠ LF ∧ b ≠ CR ∧ b ≠ NUL) l → d2 ≠ [] →
  ∃ st1 st2 rest,
    convert_from_fp_n n cfg (open_file (concat ls1 ++ l) false) st = Some (Returned 0%Z, st1) ∧
    st_start_of_line st1 = false ∧
    convert_from_fp_n n cfg (open_file d2 false) st1 = Some (Returned 0%Z, st2) ∧
    sink_bytes (st_out st2) = sink_bytes (st_out st1) ++ COMMA :: rest.
Proof using HL.
  intros Hn Hwf H0 Hls Hne Hlen Hl Hd2.
  destruct (convert_from_fp_clean n cfg (concat ls1 ++ l) st Hn Hwf H0)
    as (cs1 & st1 & Hc1 & Hr1 & Hs1 & H1).
  destruct (convert_from_fp_clean n cfg d2 st1 Hn Hwf H1) as (cs2 & st2 & Hc2 & Hr2 & Hs2 & _).
  assert (chunked (n - 1) l [l]) as Hcl.
  { apply chunked_single. split_and!; [done|done|right; split; [|by right]].
    intros Hin. eapply Forall_forall in Hl; [|exact Hin]. naive_solver. }
  rewrite (chunked_det _ _ _ _ Hc1 (chunked_lf_app _ _ _ _ Hls Hcl)) in Hs1.
  pose proof (stream_spec_last_sol _ _ _ _ _ Hl Hs1) as Hsol.
  destruct (stream_spec_first_comma _ _ _ _ Hsol (chunked_nonempty _ _ _ Hd2 Hc2) Hs2)
    as (rest & Hout).
  by exists st1, st2, rest.
Qed.

(** C31: a NUL byte ends the line for [convert_line]: a stream whose
    first line holds a NUL is converted as if the stream ended at the
    NUL and the rest of the stream were converted by a second call; the
    bytes from the NUL to the line feed, the line feed included, are
    lost. *)
Theorem convert_from_fp_nul_byte n cfg p r d2 st :
  2 ≤ n → config_wf cfg → st_buf st !!! 0 = DQ →
  p ≠ [] → NUL ∉ p → LF ∉ p ++ r → length (p ++ NUL :: r ++ [LF]) ≤ n - 1 →
  ∃ st12 st1 st2,
    convert_from_fp_n n cfg (open_file (p ++ NUL :: r ++ LF :: d2) false) st
      = Some (Returned 0%Z, st12) ∧
    convert_from_fp_n n cfg (open_file p false) st = Some (Returned 0%Z, st1) ∧
    convert_from_fp_n n cfg (open_file d2 false) st1 = Some (Returned 0%Z, st2) ∧
    abs st12 = abs st2.
Proof using HL.
  intros Hn Hwf H0 Hne Hnul Hlf Hlen.
  assert (p ++ NUL :: r ++ LF :: d2 = concat [p ++ NUL :: r ++ [LF]] ++ d2) as ->
    by (simpl; rewrite app_nil_r, <-app_assoc; simpl; by rewrite <-app_assoc).
  assert (Forall (lf_line (n - 1)) [p ++ NUL :: r ++ [LF]]) as Hl1.
  { repeat constructor. exists (p ++ NUL :: r). split_and!; [by rewrite <-app_assoc|set_solver|done]. }
  assert (chunked (n - 1) p [p]) as Hcp.
  { apply chunked_single. split_and!; [done|rewrite length_app in Hlen; lia|right; set_solver]. }
  destruct (convert_from_fp_clean n cfg p st Hn Hwf H0) as (cs1 & st1 & Hc1 & Hr1 & Hs1 & H1).
  destruct (convert_from_fp_clean n cfg d2 st1 Hn Hwf H1) as (cs2 & st2 & Hc2 & Hr2 & Hs2 & _).
  destruct (convert_from_fp_clean n cfg (concat [p ++ NUL :: r ++ [LF]] ++ d2) st Hn Hwf H0)
    as (cs12 & st12 & Hc12 & Hr12 & Hs12 & _).
  exists st12, st1, st2. split_and!; [done..|].
  rewrite (chunked_det _ _ _ _ Hc1 Hcp) in Hs1.
  rewrite (chunked_det _ _ _ _ Hc12 (chunked_lf_app _ _ _ _ Hl1 Hc2)) in Hs12.
  destruct (stream_spec_app _ _ _ _ _ Hs12) as (a1 & Ha1 & Ha2).
  apply (stream_spec_cstring _ _ _ p) in Ha1; [|by rewrite cstring_app_nul, cstring_id].
  rewrite <-(stream_spec_det _ _ _ _ _ Hs1 Ha1) in Ha2.
  symmetry. exact (stream_spec_det _ _ _ _ _ Hs2 Ha2).
Qed.
End Calls.

(** ** Witnesses *)

Lemma convert_from_fp_calls_concat_witness :
  ∃ st1 st2 st12,
    convert_from_fp_n 8 default_config (open_file (concat [b{"a,b"} ++ [LF]]) false)
      (init_state ([] : list byte)) = Some (Returned 0%Z, st1) ∧
    convert_from_fp_n 8 default_config (open_file b{"c"} false) st1 = Some (Returned 0%Z, st2) ∧
    convert_from_fp_n 8 default_config (open_file (concat [b{"a,b"} ++ [LF]] ++ b{"c"}) false)
      (init_state ([] : list byte)) = Some (Returned 0%Z, st12) ∧
    abs st2 = abs st12.
Proof.
  apply convert_from_fp_calls_concat; [lia|decide_by_eval|reflexivity|].
  repeat constructor. exists b{"a,b"}. split_and!; [done|decide_by_eval|simpl; lia].
Defined.

Lemma convert_from_fp_calls_join_witness :
  ∃ st1 st2 rest,
    convert_from_fp_n 8 default_config (open_file (concat [] ++ b{"a"}) false)
      (init_state ([] : list byte)) = Some (Returned 0%Z, st1) ∧
    st_start_of_line st1 = false ∧
    convert_from_fp_n 8 default_config (open_file (b{"b"} ++ [LF]) false) st1
      = Some (Returned 0%Z, st2) ∧
    sink_bytes (st_out st2) = sink_bytes (st_out st1) ++ COMMA :: rest.
Proof.
  apply convert_from_fp_calls_join; [lia|decide_by_eval|reflexivity|constructor|done|simpl; lia|
    repeat constructor; discriminate|done].
Defined.

Lemma convert_from_fp_nul_byte_witness :
  ∃ st12 st1 st2,
    convert_from_fp_n 8 default_config (open_file (b{"ab"} ++ NUL :: b{"x"} ++ LF :: b{"cd"} ++ [LF]) false)
      (init_state ([] : list byte)) = Some (Returned 0%Z, st12) ∧
    convert_from_fp_n 8 default_config (open_file b{"ab"} false) (init_state ([] : list byte))
      = Some (Returned 0%Z, st1) ∧
    convert_from_fp_n 8 default_config (open_file (b{"cd"} ++ [LF]) false) st1 = Some (Returned 0%Z, st2) ∧
    abs st12 = abs st2.
Proof.
  apply convert_from_fp_nul_byte; [lia|decide_by_eval|reflexivity|done|decide_by_eval|decide_by_eval|
    simpl; lia].
Defined.
